(** * N-Queens solvers: a shallow embedding and its properties

    The development follows the Go sources of the repository:
    [greedy.go] (hill climbing), [simulated_annealing.go], [genetic.go]
    and [exhaustive.go] (depth-first search, and the helper [abs]).
    [main.go] times the solvers and reads the memory statistics of the
    runtime; it has no part in what the solvers compute and is not
    modelled.

    Conventions of the embedding.
    - A Go slice [[]int] is a [list Z]; an index is a [nat].  A read
      [b[i]] is the total lookup [b !!! i] and a write [b[i] = v] is
      [<[i:=v]> b].  Every read and write of the sources is in bounds as
      long as the boards have length [n] (out of bounds Go panics, which
      the model does not represent); the length is carried as an
      invariant or a hypothesis wherever a statement depends on it.
    - Go's [int] is 64 bits wide.  Conflict counts are bounded by
      [n * (n - 1)], and row values lie in [[0, n)], so no operation of
      the sources wraps for any board that fits in memory; integers are
      modelled in [Z].
    - The board dimension [n] is a [nat]: the constructors allocate with
      [make([]int, n)], which panics for a negative [n].
    - [float64] is Rocq's primitive binary64 [float]; [math.Exp] and
      [sort.Slice] are not part of the repository and are parameters of
      the sections that use them.
    - The global source of [math/rand] is an explicit tape of draws that
      is threaded through every function that draws from it. *)

From Stdlib Require Import ZArith Lia Floats Uint63.
From stdpp Require Import base tactics option list numbers sorting gmap strings pretty.

Local Open Scope Z_scope.

(** Decimal literals such as [0.99] denote the nearest binary64 value, as
    they do in Go. *)
Set Warnings "-inexact-float".

(** The zero value of [int]: what a read of the model returns where the
    Go program would panic with an index out of range.  No such read
    happens on boards of length [n]. *)
#[global] Instance int_zero_value : Inhabited Z := populate 0.

(** ** The random source *)

Module Rand.

(** One cell of the tape answers one call of the [math/rand] interface:
    [d_int] answers [rand.Intn] (reduced modulo the bound) and [d_float]
    answers [rand.Float64]. *)
Record draw : Type := Draw { d_int : nat; d_float : float }.

Record t : Type := Source { tape : N -> draw; cursor : N }.

Definition next (r : t) : draw * t :=
  (tape r (cursor r), Source (tape r) (N.succ (cursor r))).

(** [rand.Intn(n)]: a value in [[0, n)].  Go panics for [n <= 0]; the
    solvers only call it with a positive bound when [n >= 1]. *)
Definition Intn (n : nat) (r : t) : nat * t :=
  let '(d, r) := next r in ((d_int d `mod` n)%nat, r).

(** [rand.Float64()]. *)
Definition Float64 (r : t) : float * t :=
  let '(d, r) := next r in (d_float d, r).

(** [rand.Perm(n)], as the Go library writes it:
    [for i := 0; i < n; i++ { j := r.Intn(i + 1); m[i] = m[j]; m[j] = i }]. *)
Definition Perm (n : nat) (r : t) : list Z * t :=
  foldl (fun '(m, r) i =>
           let '(j, r) := Intn (S i) r in
           let m := <[i := m !!! j]> m in
           let m := <[j := Z.of_nat i]> m in
           (m, r))
        (replicate n 0, r) (seq 0 n).

End Rand.

(** ** Slices *)

(** Go's builtin [copy(dst, src)]: the first [min(len(dst), len(src))]
    elements of [dst] are overwritten. *)
Definition copy (dst src : list Z) : list Z :=
  take (length dst) src ++ drop (length src) dst.

(** [make([]int, n)]. *)
Definition make (n : nat) : list Z := replicate n 0.

(** [abs] of [exhaustive.go]. *)
Definition abs (x : Z) : Z := if x <? 0 then - x else x.

(** The two tests that every conflict counter of the sources applies to a
    pair of columns: same row, then same diagonal.  Each test that fires
    increments the counter once. *)
Definition count_pair (board : list Z) (i j : nat) (conflicts : Z) : Z :=
  let conflicts :=
    if bool_decide (board !!! i = board !!! j) then conflicts + 1 else conflicts in
  let conflicts :=
    if bool_decide (abs (board !!! i - board !!! j) = abs (Z.of_nat i - Z.of_nat j))
    then conflicts + 1 else conflicts in
  conflicts.

(** The pairwise scan shared by [GreedySolver.countConflicts],
    [SimulatedAnnealingSolver.calculateCostForBoard] and
    [GeneticSolver.calculateFitness]:
    [for i := 0; i < n; i++ { for j := i + 1; j < n; j++ { ... } }]. *)
Definition pairwise_scan (n : nat) (board : list Z) : Z :=
  foldl (fun conflicts i =>
           foldl (fun conflicts j => count_pair board i j conflicts)
                 conflicts (seq (S i) (n - S i)))
        0 (seq 0 n).

(** The column-scoped scan shared by the two
    [calculateConflictsForPosition] methods:
    [for j := 0; j < n; j++ { if j != col { ... } }]. *)
Definition column_scan (n : nat) (board : list Z) (col : nat) : Z :=
  foldl (fun conflicts j =>
           if bool_decide (j ≠ col) then count_pair board col j conflicts
           else conflicts)
        0 (seq 0 n).

(** ** Standard output *)

(** The text written so far; [fmt.Print] appends to it. *)
Definition newline : string := String (Ascii.ascii_of_nat 10) "".

Definition Print (s : string) (stdout : string) : string := stdout +:+ s.

Definition Println (s : string) (stdout : string) : string :=
  stdout +:+ s +:+ newline.

(** The board loop shared (textually) by every [PrintSolution]:
    [for i ... { for j ... { if solution[i] == j { Print("Q ") } else
    { Print(". ") } }; Println() }]. *)
Definition print_board (n : nat) (solution : list Z) (stdout : string) : string :=
  foldl (fun stdout i =>
           let stdout :=
             foldl (fun stdout j =>
                      if bool_decide (solution !!! i = Z.of_nat j)
                      then Print "Q " stdout else Print ". " stdout)
                   stdout (seq 0 n) in
           Println "" stdout)
        stdout (seq 0 n).

(** ** Greedy hill climbing ([greedy.go]) *)

Module Greedy.

Record GreedySolver : Type := Build {
  n : nat;
  board : list Z;
  solution : list Z;
  solved : bool;
  maxIterations : Z
}.

Definition set_board (g : GreedySolver) (b : list Z) : GreedySolver :=
  {| n := n g; board := b; solution := solution g; solved := solved g;
     maxIterations := maxIterations g |}.

Definition NewGreedySolver (n : nat) : GreedySolver :=
  {| n := n; board := make n; solution := []; solved := false;
     maxIterations := 10000 |}.

(** [randomInit]: every column gets a fresh [rand.Intn(n)]. *)
Definition randomInit (g : GreedySolver) (r : Rand.t) : GreedySolver * Rand.t :=
  foldl (fun '(g, r) i =>
           let '(v, r) := Rand.Intn (n g) r in
           (set_board g (<[i := Z.of_nat v]> (board g)), r))
        (g, r) (seq 0 (n g)).

Definition countConflicts (g : GreedySolver) : Z :=
  foldl (fun conflicts i =>
           foldl (fun conflicts j =>
                    let conflicts :=
                      if bool_decide (board g !!! i = board g !!! j)
                      then conflicts + 1 else conflicts in
                    let conflicts :=
                      if bool_decide (abs (board g !!! i - board g !!! j)
                                      = abs (Z.of_nat i - Z.of_nat j))
                      then conflicts + 1 else conflicts in
                    conflicts)
                 conflicts (seq (S i) (n g - S i)))
        0 (seq 0 (n g)).

(** The state of the best-neighbour sweep: the solver (whose board is
    changed in place and restored), [bestBoard] and [bestConflicts]. *)
Definition sweep_state : Type := GreedySolver * list Z * Z.

(** The body of the inner loop, for one candidate [(col, newRow)]. *)
Definition try_move (col newRow : nat) (s : sweep_state) : sweep_state :=
  let '(g, bestBoard, bestConflicts) := s in
  if bool_decide (board g !!! col = Z.of_nat newRow) then s
  else
    let originalRow := board g !!! col in
    let g := set_board g (<[col := Z.of_nat newRow]> (board g)) in
    let newConflicts := countConflicts g in
    let '(bestBoard, bestConflicts) :=
      if newConflicts <? bestConflicts
      then (copy bestBoard (board g), newConflicts)
      else (bestBoard, bestConflicts) in
    let g := set_board g (<[col := originalRow]> (board g)) in
    (g, bestBoard, bestConflicts).

(** The two nested loops over [col] and [newRow]. *)
Definition sweep (g : GreedySolver) (conflicts : Z) : sweep_state :=
  let bestBoard := copy (make (n g)) (board g) in
  foldl (fun s col =>
           foldl (fun s newRow => try_move col newRow s) s (seq 0 (n g)))
        (g, bestBoard, conflicts) (seq 0 (n g)).

(** What follows the sweep: restart at random, or commit the best
    neighbour. *)
Definition commit_or_restart (g : GreedySolver) (bestBoard : list Z)
    (bestConflicts conflicts : Z) (r : Rand.t) : GreedySolver * Rand.t :=
  if bestConflicts >=? conflicts then randomInit g r
  else (set_board g (copy (board g) bestBoard), r).

(** One pass through the body of the main loop, on a board that has
    conflicts. *)
Definition iteration (g : GreedySolver) (r : Rand.t) : GreedySolver * Rand.t :=
  let conflicts := countConflicts g in
  let '(g, bestBoard, bestConflicts) := sweep g conflicts in
  commit_or_restart g bestBoard bestConflicts conflicts r.

Definition found (g : GreedySolver) : GreedySolver :=
  {| n := n g; board := board g; solution := copy (make (n g)) (board g);
     solved := true; maxIterations := maxIterations g |}.

(** [for iter := 0; iter < g.maxIterations; iter++], with [k] the number
    of iterations that remain. *)
Fixpoint main_loop (k : nat) (g : GreedySolver) (r : Rand.t)
  : bool * GreedySolver * Rand.t :=
  match k with
  | O => (false, g, r)
  | S k =>
      if countConflicts g =? 0 then (true, found g, r)
      else let '(g, r) := iteration g r in main_loop k g r
  end.

Definition Solve (g : GreedySolver) (r : Rand.t) : bool * GreedySolver * Rand.t :=
  let '(g, r) := randomInit g r in
  main_loop (Z.to_nat (maxIterations g)) g r.

Definition GetSolution (g : GreedySolver) : list Z := solution g.

Definition PrintSolution (g : GreedySolver) (stdout : string)
  : GreedySolver * string :=
  if negb (solved g) then (g, Println "No solution found" stdout)
  else
    let stdout :=
      Print ("Greedy Search Solution for N=" +:+ pretty (n g) +:+ ":" +:+ newline)
            stdout in
    let stdout := print_board (n g) (solution g) stdout in
    (g, Println "" stdout).

End Greedy.

(** ** Simulated annealing ([simulated_annealing.go]) *)

(** The conversion [float64(x)] of an [int]. *)
Definition float64 (x : Z) : float :=
  if x <? 0 then (- PrimFloat.of_uint63 (Uint63.of_Z (- x)))%float
  else PrimFloat.of_uint63 (Uint63.of_Z x).

Module SA.

Record SimulatedAnnealingSolver : Type := Build {
  n : nat;
  board : list Z;
  solution : list Z;
  solved : bool;
  initialTemp : float;
  coolingRate : float;
  minTemp : float;
  maxIterations : Z;
  restarts : Z
}.

Definition set_board (sa : SimulatedAnnealingSolver) (b : list Z)
  : SimulatedAnnealingSolver :=
  {| n := n sa; board := b; solution := solution sa; solved := solved sa;
     initialTemp := initialTemp sa; coolingRate := coolingRate sa;
     minTemp := minTemp sa; maxIterations := maxIterations sa;
     restarts := restarts sa |}.

Definition NewSimulatedAnnealingSolver (n : nat) : SimulatedAnnealingSolver :=
  {| n := n; board := make n; solution := []; solved := false;
     initialTemp := float64 (Z.of_nat n * Z.of_nat n);
     coolingRate := 0.99%float;
     minTemp := 0.01%float;
     maxIterations := Z.of_nat n * 1000;
     restarts := 5 |}.

(** [smartInit]: a random permutation. *)
Definition smartInit (sa : SimulatedAnnealingSolver) (r : Rand.t)
  : SimulatedAnnealingSolver * Rand.t :=
  let '(perm, r) := Rand.Perm (n sa) r in
  (set_board sa (copy (board sa) perm), r).

Definition calculateConflictsForPosition (sa : SimulatedAnnealingSolver)
    (board : list Z) (col : nat) : Z :=
  foldl (fun conflicts j =>
           if bool_decide (j ≠ col) then
             let conflicts :=
               if bool_decide (board !!! col = board !!! j)
               then conflicts + 1 else conflicts in
             let conflicts :=
               if bool_decide (abs (board !!! col - board !!! j)
                               = abs (Z.of_nat col - Z.of_nat j))
               then conflicts + 1 else conflicts in
             conflicts
           else conflicts)
        0 (seq 0 (n sa)).

Definition calculateCostForBoard (sa : SimulatedAnnealingSolver)
    (board : list Z) : Z :=
  foldl (fun conflicts i =>
           foldl (fun conflicts j =>
                    let conflicts :=
                      if bool_decide (board !!! i = board !!! j)
                      then conflicts + 1 else conflicts in
                    let conflicts :=
                      if bool_decide (abs (board !!! i - board !!! j)
                                      = abs (Z.of_nat i - Z.of_nat j))
                      then conflicts + 1 else conflicts in
                    conflicts)
                 conflicts (seq (S i) (n sa - S i)))
        0 (seq 0 (n sa)).

Definition calculateCost (sa : SimulatedAnnealingSolver) : Z :=
  calculateCostForBoard sa (board sa).

Definition findConflictedQueens (sa : SimulatedAnnealingSolver) : list nat :=
  foldl (fun conflicted i =>
           if calculateConflictsForPosition sa (board sa) i >? 0
           then conflicted ++ [i] else conflicted)
        [] (seq 0 (n sa)).

(** [for pos1 == pos2 { pos2 = rand.Intn(sa.n) }].  The loop has no bound
    of its own: [fuel] is the number of redraws the model allows, and
    [None] says that they were used up. *)
Fixpoint redraw (fuel : nat) (n pos1 pos2 : nat) (r : Rand.t)
  : option (nat * Rand.t) :=
  if bool_decide (pos1 = pos2) then
    match fuel with
    | O => None
    | S fuel => let '(pos2, r) := Rand.Intn n r in redraw fuel n pos1 pos2 r
    end
  else Some (pos2, r).

(** The row scan that strategies 2 and 3 both run for a column:
    [for row := 0; row < n; row++ { if row != neighbor[col] { ... } }]. *)
Definition scan_rows (sa : SimulatedAnnealingSolver) (neighbor : list Z)
    (col : nat) (bestRow minConflicts : Z) : Z * Z :=
  foldl (fun '(bestRow, minConflicts) row =>
           if bool_decide (Z.of_nat row ≠ neighbor !!! col) then
             let tempBoard := copy (make (n sa)) neighbor in
             let tempBoard := <[col := Z.of_nat row]> tempBoard in
             let conflicts := calculateConflictsForPosition sa tempBoard col in
             if conflicts <? minConflicts then (Z.of_nat row, conflicts)
             else (bestRow, minConflicts)
           else (bestRow, minConflicts))
        (bestRow, minConflicts) (seq 0 (n sa)).

(** Strategy 1: swap two random queens. *)
Definition swap_two (fuel : nat) (sa : SimulatedAnnealingSolver)
    (neighbor : list Z) (r : Rand.t) : option (list Z * Rand.t) :=
  let '(pos1, r) := Rand.Intn (n sa) r in
  let '(pos2, r) := Rand.Intn (n sa) r in
  match redraw fuel (n sa) pos1 pos2 r with
  | None => None
  | Some (pos2, r) =>
      let v1 := neighbor !!! pos1 in
      let v2 := neighbor !!! pos2 in
      Some (<[pos2 := v1]> (<[pos1 := v2]> neighbor), r)
  end.

(** Strategy 2: move a conflicted queen. *)
Definition move_conflicted (sa : SimulatedAnnealingSolver)
    (neighbor : list Z) (r : Rand.t) : list Z * Rand.t :=
  let conflictedQueens := findConflictedQueens sa in
  if bool_decide (0 < length conflictedQueens)%nat then
    let '(k, r) := Rand.Intn (length conflictedQueens) r in
    let col := conflictedQueens !!! k in
    let '(bestRow, r) := Rand.Intn (n sa) r in
    let minConflicts := Z.of_nat (n sa) * Z.of_nat (n sa) in
    let '(bestRow, _) :=
      scan_rows sa neighbor col (Z.of_nat bestRow) minConflicts in
    (<[col := bestRow]> neighbor, r)
  else (neighbor, r).

(** Strategy 3: local search on a random column. *)
Definition improve_random (sa : SimulatedAnnealingSolver)
    (neighbor : list Z) (r : Rand.t) : list Z * Rand.t :=
  let '(col, r) := Rand.Intn (n sa) r in
  let bestRow := neighbor !!! col in
  let minConflicts := calculateConflictsForPosition sa neighbor col in
  let '(bestRow, _) := scan_rows sa neighbor col bestRow minConflicts in
  (<[col := bestRow]> neighbor, r).

Definition generateSmartNeighbor (fuel : nat) (sa : SimulatedAnnealingSolver)
    (r : Rand.t) : option (list Z * Rand.t) :=
  let neighbor := copy (make (n sa)) (board sa) in
  let '(strategy, r) := Rand.Float64 r in
  if (strategy <? 0.6)%float then swap_two fuel sa neighbor r
  else if (strategy <? 0.8)%float then Some (move_conflicted sa neighbor r)
  else Some (improve_random sa neighbor r).

Section Annealing.

(** [math.Exp]. *)
Variable Exp : float -> float.

Definition acceptanceProbability (sa : SimulatedAnnealingSolver)
    (deltaCost : Z) (temperature : float) : float :=
  Exp (- float64 deltaCost / temperature)%float.

(** The working variables of [singleRun]. *)
Record run_state : Type := RunState {
  solver : SimulatedAnnealingSolver;
  temperature : float;
  currentCost : Z;
  bestCost : Z;
  bestBoard : list Z;
  source : Rand.t
}.

(** The decision of line 72:
    [deltaCost <= 0 || sa.acceptanceProbability(deltaCost, temperature) >
    rand.Float64()].  The right operand, and with it the draw, is only
    evaluated when the left one is false. *)
Definition accepts (sa : SimulatedAnnealingSolver) (deltaCost : Z)
    (temperature : float) (r : Rand.t) : bool * Rand.t :=
  if deltaCost <=? 0 then (true, r)
  else
    let '(u, r) := Rand.Float64 r in
    ((u <? acceptanceProbability sa deltaCost temperature)%float, r).

(** Lines 69 to 81: accept or reject the neighbour. *)
Definition accept_or_reject (s : run_state) (neighbor : list Z)
    (neighborCost : Z) : run_state :=
  let deltaCost := neighborCost - currentCost s in
  let '(ok, r) := accepts (solver s) deltaCost (temperature s) (source s) in
  if ok then
    let sa := set_board (solver s) (copy (board (solver s)) neighbor) in
    let currentCost := neighborCost in
    if currentCost <? bestCost s then
      RunState sa (temperature s) currentCost currentCost
               (copy (bestBoard s) (board sa)) r
    else RunState sa (temperature s) currentCost (bestCost s) (bestBoard s) r
  else RunState (solver s) (temperature s) (currentCost s) (bestCost s)
                (bestBoard s) r.

(** Lines 84 to 91: fall back to the best board, or cool down. *)
Definition cool (iter : Z) (s : run_state) : run_state :=
  if (Z.rem iter 100 =? 0) && (currentCost s >? bestCost s * 2) then
    RunState (set_board (solver s) (copy (board (solver s)) (bestBoard s)))
             (initialTemp (solver s) * 0.5)%float
             (bestCost s) (bestCost s) (bestBoard s) (source s)
  else
    RunState (solver s) (temperature s * coolingRate (solver s))%float
             (currentCost s) (bestCost s) (bestBoard s) (source s).

Definition found (sa : SimulatedAnnealingSolver) (b : list Z)
  : SimulatedAnnealingSolver :=
  {| n := n sa; board := board sa; solution := copy (make (n sa)) b;
     solved := true;
     initialTemp := initialTemp sa; coolingRate := coolingRate sa;
     minTemp := minTemp sa; maxIterations := maxIterations sa;
     restarts := restarts sa |}.

(** How the loop of [singleRun] is left: by its [return true], or by its
    condition. *)
Inductive loop_exit : Type :=
  | Returned (sa : SimulatedAnnealingSolver) (r : Rand.t)
  | Exhausted (s : run_state).

(** [for iter := 0; iter < sa.maxIterations && temperature > sa.minTemp;
    iter++], with [k] the number of iterations that the first condition
    still allows. *)
Fixpoint anneal (fuel : nat) (k : nat) (iter : Z) (s : run_state)
  : option loop_exit :=
  match k with
  | O => Some (Exhausted s)
  | S k =>
      if negb (minTemp (solver s) <? temperature s)%float
      then Some (Exhausted s)
      else if currentCost s =? 0
      then Some (Returned (found (solver s) (board (solver s))) (source s))
      else
        match generateSmartNeighbor fuel (solver s) (source s) with
        | None => None
        | Some (neighbor, r) =>
            let neighborCost := calculateCostForBoard (solver s) neighbor in
            let s :=
              RunState (solver s) (temperature s) (currentCost s) (bestCost s)
                       (bestBoard s) r in
            let s := accept_or_reject s neighbor neighborCost in
            let s := cool iter s in
            anneal fuel k (iter + 1) s
        end
  end.

Definition singleRun (fuel : nat) (sa : SimulatedAnnealingSolver) (r : Rand.t)
  : option (bool * SimulatedAnnealingSolver * Rand.t) :=
  let '(sa, r) := smartInit sa r in
  let start :=
    {| solver := sa;
       temperature := initialTemp sa;
       currentCost := calculateCost sa;
       bestCost := calculateCost sa;
       bestBoard := copy (make (n sa)) (board sa);
       source := r |} in
  match anneal fuel (Z.to_nat (maxIterations sa)) 0 start with
  | None => None
  | Some (Returned sa r) => Some (true, sa, r)
  | Some (Exhausted s) =>
      let sa := set_board (solver s) (copy (board (solver s)) (bestBoard s)) in
      if bestCost s =? 0 then Some (true, found sa (bestBoard s), source s)
      else Some (false, sa, source s)
  end.

(** [for restart := 0; restart < sa.restarts; restart++]. *)
Fixpoint restart_loop (fuel : nat) (k : nat) (sa : SimulatedAnnealingSolver)
    (r : Rand.t) : option (bool * SimulatedAnnealingSolver * Rand.t) :=
  match k with
  | O => Some (false, sa, r)
  | S k =>
      match singleRun fuel sa r with
      | None => None
      | Some (true, sa, r) => Some (true, sa, r)
      | Some (false, sa, r) => restart_loop fuel k sa r
      end
  end.

Definition Solve (fuel : nat) (sa : SimulatedAnnealingSolver) (r : Rand.t)
  : option (bool * SimulatedAnnealingSolver * Rand.t) :=
  restart_loop fuel (Z.to_nat (restarts sa)) sa r.

End Annealing.

Definition GetSolution (sa : SimulatedAnnealingSolver) : list Z := solution sa.

Definition PrintSolution (sa : SimulatedAnnealingSolver) (stdout : string)
  : SimulatedAnnealingSolver * string :=
  if negb (solved sa) then (sa, Println "No solution found" stdout)
  else
    let stdout :=
      Print ("Simulated Annealing Solution for N=" +:+ pretty (n sa) +:+ ":"
             +:+ newline) stdout in
    let stdout := print_board (n sa) (solution sa) stdout in
    (sa, Println "" stdout).

End SA.

(** ** Genetic algorithm ([genetic.go]) *)

Module GA.

Record Individual : Type := Indiv {
  chromosome : list Z;
  fitness : Z
}.

(** The zero value of the struct, which [make([]Individual, k)] fills a
    fresh slice with. *)
Global Instance Individual_inhabited : Inhabited Individual :=
  populate (Indiv [] 0).

Record GeneticSolver : Type := Build {
  n : nat;
  populationSize : nat;
  maxGenerations : Z;
  mutationRate : float;
  crossoverRate : float;
  population : list Individual;
  solution : list Z;
  solved : bool;
  restarts : Z
}.

Definition set_population (ga : GeneticSolver) (p : list Individual)
  : GeneticSolver :=
  {| n := n ga; populationSize := populationSize ga;
     maxGenerations := maxGenerations ga; mutationRate := mutationRate ga;
     crossoverRate := crossoverRate ga; population := p;
     solution := solution ga; solved := solved ga; restarts := restarts ga |}.

Definition set_mutationRate (ga : GeneticSolver) (m : float) : GeneticSolver :=
  {| n := n ga; populationSize := populationSize ga;
     maxGenerations := maxGenerations ga; mutationRate := m;
     crossoverRate := crossoverRate ga; population := population ga;
     solution := solution ga; solved := solved ga; restarts := restarts ga |}.

Definition NewGeneticSolver (n : nat) : GeneticSolver :=
  let popSize := 80%nat in
  let popSize := if bool_decide (20 < n)%nat then 120%nat else popSize in
  let popSize := if bool_decide (40 < n)%nat then 150%nat else popSize in
  {| n := n; populationSize := popSize; maxGenerations := 200;
     mutationRate := 0.15%float; crossoverRate := 0.85%float;
     population := replicate popSize inhabitant;
     solution := []; solved := false; restarts := 5 |}.

Definition initializeIndividual (ga : GeneticSolver) (index : nat) (r : Rand.t)
  : GeneticSolver * Rand.t :=
  let chromosome := make (n ga) in
  let '(perm, r) := Rand.Perm (n ga) r in
  let chromosome := copy chromosome perm in
  (set_population ga (<[index := Indiv chromosome 0]> (population ga)), r).

Definition initializePopulation (ga : GeneticSolver) (r : Rand.t)
  : GeneticSolver * Rand.t :=
  foldl (fun '(ga, r) i => initializeIndividual ga i r)
        (ga, r) (seq 0 (populationSize ga)).

Definition calculateFitness (ga : GeneticSolver) (chromosome : list Z) : Z :=
  foldl (fun conflicts i =>
           foldl (fun conflicts j =>
                    let conflicts :=
                      if bool_decide (chromosome !!! i = chromosome !!! j)
                      then conflicts + 1 else conflicts in
                    let conflicts :=
                      if bool_decide (abs (chromosome !!! i - chromosome !!! j)
                                      = abs (Z.of_nat i - Z.of_nat j))
                      then conflicts + 1 else conflicts in
                    conflicts)
                 conflicts (seq (S i) (n ga - S i)))
        0 (seq 0 (n ga)).

Definition calculateConflictsForPosition (ga : GeneticSolver)
    (chromosome : list Z) (col : nat) : Z :=
  foldl (fun conflicts j =>
           if bool_decide (j ≠ col) then
             let conflicts :=
               if bool_decide (chromosome !!! col = chromosome !!! j)
               then conflicts + 1 else conflicts in
             let conflicts :=
               if bool_decide (abs (chromosome !!! col - chromosome !!! j)
                               = abs (Z.of_nat col - Z.of_nat j))
               then conflicts + 1 else conflicts in
             conflicts
           else conflicts)
        0 (seq 0 (n ga)).

(** The comparison that [evaluatePopulation] hands to [sort.Slice]. *)
Definition less (a b : Individual) : bool := fitness a <? fitness b.

(** The segment copy of [orderCrossover]:
    [for i := start; i <= end; i++ { child[i] = parent1[i];
    used[parent1[i]] = true }].  Only [true] is ever stored in [used], so
    the map is the set of its keys. *)
Definition copy_segment (parent1 : list Z) (start end_ : nat)
    (child : list Z) : list Z * gset Z :=
  foldl (fun '(child, used) i =>
           (<[i := parent1 !!! i]> child, {[parent1 !!! i]} ∪ used))
        (child, ∅) (seq start (S end_ - start)).

(** The fill loop of [orderCrossover]. *)
Definition fill_rest (n : nat) (parent2 : list Z) (end_ : nat)
    (used : gset Z) (child : list Z) : list Z * nat :=
  let childIndex := ((end_ + 1) `mod` n)%nat in
  foldl (fun '(child, childIndex) i =>
           let parent2Index := ((end_ + 1 + i) `mod` n)%nat in
           if bool_decide (parent2 !!! parent2Index ∉ used) then
             (<[childIndex := parent2 !!! parent2Index]> child,
              ((childIndex + 1) `mod` n)%nat)
           else (child, childIndex))
        (child, childIndex) (seq 0 n).

(** [orderCrossover] once [start] and [end] are drawn and ordered. *)
Definition cross_at (n : nat) (parent1 parent2 : list Z) (start end_ : nat)
  : list Z :=
  let child := make n in
  let '(child, used) := copy_segment parent1 start end_ child in
  let '(child, _) := fill_rest n parent2 end_ used child in
  child.

(** The two draws of [orderCrossover] and their ordering swap. *)
Definition cut_points (n : nat) (r : Rand.t) : nat * nat * Rand.t :=
  let '(start, r) := Rand.Intn n r in
  let '(end_, r) := Rand.Intn n r in
  if bool_decide (end_ < start)%nat then (end_, start, r) else (start, end_, r).

Definition orderCrossover (ga : GeneticSolver) (parent1 parent2 : list Z)
    (r : Rand.t) : list Z * Rand.t :=
  let '(start, end_, r) := cut_points (n ga) r in
  (cross_at (n ga) parent1 parent2 start end_, r).

Definition smartCrossover (ga : GeneticSolver) (parent1 parent2 : Individual)
    (r : Rand.t) : list Z * Rand.t :=
  orderCrossover ga (chromosome parent1) (chromosome parent2) r.

(** The three attempts of the conflict-directed mutation. *)
Definition try_rows (ga : GeneticSolver) (col : nat) (chromosome : list Z)
    (bestRow minConflicts : Z) (r : Rand.t) : list Z * Z * Z * Rand.t :=
  foldl (fun '(chromosome, bestRow, minConflicts, r) (attempts : nat) =>
           let '(testRow, r) := Rand.Intn (n ga) r in
           if bool_decide (Z.of_nat testRow ≠ chromosome !!! col) then
             let originalRow := chromosome !!! col in
             let chromosome := <[col := Z.of_nat testRow]> chromosome in
             let conflicts := calculateConflictsForPosition ga chromosome col in
             let '(bestRow, minConflicts) :=
               if conflicts <? minConflicts then (Z.of_nat testRow, conflicts)
               else (bestRow, minConflicts) in
             let chromosome := <[col := originalRow]> chromosome in
             (chromosome, bestRow, minConflicts, r)
           else (chromosome, bestRow, minConflicts, r))
        (chromosome, bestRow, minConflicts, r) (seq 0 3).

(** [pos := rand.Intn(n); chromosome[pos] = rand.Intn(n)]. *)
Definition random_gene (ga : GeneticSolver) (chromosome : list Z) (r : Rand.t)
  : list Z * Rand.t :=
  let '(pos, r) := Rand.Intn (n ga) r in
  let '(v, r) := Rand.Intn (n ga) r in
  (<[pos := Z.of_nat v]> chromosome, r).

(** [smartMutation] changes the slice it is given in place; the model
    returns the changed slice. *)
Definition smartMutation (ga : GeneticSolver) (chromosome : list Z)
    (r : Rand.t) : list Z * Rand.t :=
  let '(strategy, r) := Rand.Float64 r in
  if (strategy <? 0.5)%float then
    let '(pos1, r) := Rand.Intn (n ga) r in
    let '(pos2, r) := Rand.Intn (n ga) r in
    let v1 := chromosome !!! pos1 in
    let v2 := chromosome !!! pos2 in
    (<[pos2 := v1]> (<[pos1 := v2]> chromosome), r)
  else if (strategy <? 0.8)%float then
    let conflicts :=
      foldl (fun conflicts i =>
               if calculateConflictsForPosition ga chromosome i >? 0
               then conflicts ++ [i] else conflicts)
            [] (seq 0 (n ga)) in
    if bool_decide (0 < length conflicts)%nat then
      let '(k, r) := Rand.Intn (length conflicts) r in
      let col := conflicts !!! k in
      let bestRow := chromosome !!! col in
      let minConflicts := calculateConflictsForPosition ga chromosome col in
      let '(chromosome, bestRow, _, r) :=
        try_rows ga col chromosome bestRow minConflicts r in
      (<[col := bestRow]> chromosome, r)
    else random_gene ga chromosome r
  else random_gene ga chromosome r.

(** [tournamentSelection]: the best of [tournamentSize] random picks, by
    the cached [fitness]. *)
Definition tournamentSelection (ga : GeneticSolver) (r : Rand.t)
  : Individual * Rand.t :=
  let tournamentSize := 5%nat in
  let tournamentSize :=
    if bool_decide (populationSize ga < tournamentSize)%nat
    then populationSize ga else tournamentSize in
  let '(k, r) := Rand.Intn (populationSize ga) r in
  let best := population ga !!! k in
  foldl (fun '(best, r) (i : nat) =>
           let '(k, r) := Rand.Intn (populationSize ga) r in
           let candidate := population ga !!! k in
           if fitness candidate <? fitness best then (candidate, r)
           else (best, r))
        (best, r) (seq 1 (tournamentSize - 1)).

Definition eliteSize (ga : GeneticSolver) : nat :=
  let eliteSize := (populationSize ga / 10)%nat in
  let eliteSize := if bool_decide (eliteSize < 2)%nat then 2%nat else eliteSize in
  let eliteSize := if bool_decide (10 < eliteSize)%nat then 10%nat else eliteSize in
  eliteSize.

(** One slot of the new generation beyond the elite. *)
Definition breed (ga : GeneticSolver) (r : Rand.t) : Individual * Rand.t :=
  let '(u, r) := Rand.Float64 r in
  if (u <? crossoverRate ga)%float then
    let '(parent1, r) := tournamentSelection ga r in
    let '(parent2, r) := tournamentSelection ga r in
    let '(child, r) := smartCrossover ga parent1 parent2 r in
    let '(u, r) := Rand.Float64 r in
    let '(child, r) :=
      if (u <? mutationRate ga)%float then smartMutation ga child r
      else (child, r) in
    (Indiv child 0, r)
  else
    let '(parent, r) := tournamentSelection ga r in
    let child := copy (make (n ga)) (chromosome parent) in
    let '(u, r) := Rand.Float64 r in
    let '(child, r) :=
      if (u <? mutationRate ga)%float then smartMutation ga child r
      else (child, r) in
    (Indiv child 0, r).

Definition createNewGeneration (ga : GeneticSolver) (r : Rand.t)
  : list Individual * Rand.t :=
  let newPopulation : list Individual :=
    replicate (populationSize ga) inhabitant in
  let newPopulation :=
    foldl (fun newPopulation i =>
             <[i := Indiv (copy (make (n ga)) (chromosome (population ga !!! i)))
                          (fitness (population ga !!! i))]> newPopulation)
          newPopulation (seq 0 (eliteSize ga)) in
  foldl (fun '(newPopulation, r) i =>
           let '(child, r) := breed ga r in
           (<[i := child]> newPopulation, r))
        (newPopulation, r)
        (seq (eliteSize ga) (populationSize ga - eliteSize ga)).

(** Lines 479 to 488: the adaptive parameters, with the fresh random
    individuals written over the last fifth of the population. *)
Definition adapt (ga : GeneticSolver) (generationsWithoutImprovement : Z)
    (r : Rand.t) : GeneticSolver * Rand.t :=
  if generationsWithoutImprovement >? 20 then
    let ga := set_mutationRate ga 0.3%float in
    foldl (fun '(ga, r) i => initializeIndividual ga i r)
          (ga, r)
          (seq (populationSize ga * 4 / 5)
               (populationSize ga - populationSize ga * 4 / 5))
  else (set_mutationRate ga 0.15%float, r).

(** Lines 465 to 472: the progress counters
    [(bestFitnessEver, generationsWithoutImprovement)]. *)
Definition track (currentBest bestFitnessEver generationsWithoutImprovement : Z)
  : Z * Z :=
  if currentBest <? bestFitnessEver then (currentBest, 0)
  else (bestFitnessEver, generationsWithoutImprovement + 1).

Definition found (ga : GeneticSolver) : GeneticSolver :=
  {| n := n ga; populationSize := populationSize ga;
     maxGenerations := maxGenerations ga; mutationRate := mutationRate ga;
     crossoverRate := crossoverRate ga; population := population ga;
     solution := copy (make (n ga)) (chromosome (population ga !!! 0%nat));
     solved := true; restarts := restarts ga |}.

Section Evolution.

(** [sort.Slice], which is not part of the repository.  It is not a
    stable sort, so the order among equal elements is left open. *)
Variable sortSlice :
  (Individual -> Individual -> bool) -> list Individual -> list Individual.

Definition evaluatePopulation (ga : GeneticSolver) : GeneticSolver :=
  let ga :=
    foldl (fun ga i =>
             let p := population ga in
             set_population ga
               (<[i := Indiv (chromosome (p !!! i))
                             (calculateFitness ga (chromosome (p !!! i)))]> p))
          ga (seq 0 (populationSize ga)) in
  set_population ga (sortSlice less (population ga)).

(** How one pass through the generation loop ends. *)
Inductive step : Type :=
  | Success (ga : GeneticSolver) (r : Rand.t)
  | Break (ga : GeneticSolver) (r : Rand.t)
  | Continue (ga : GeneticSolver) (generationsWithoutImprovement
                                   bestFitnessEver : Z) (r : Rand.t).

(** The part of a generation that precedes the reproduction: evaluation,
    success check, progress tracking, early termination, and the adaptive
    parameters. *)
Definition before_selection (ga : GeneticSolver)
    (generationsWithoutImprovement bestFitnessEver : Z) (r : Rand.t) : step :=
  let ga := evaluatePopulation ga in
  if fitness (population ga !!! 0%nat) =? 0 then Success (found ga) r
  else
    let currentBest := fitness (population ga !!! 0%nat) in
    let '(bestFitnessEver, generationsWithoutImprovement) :=
      track currentBest bestFitnessEver generationsWithoutImprovement in
    if generationsWithoutImprovement >? 50 then Break ga r
    else
      let '(ga, r) := adapt ga generationsWithoutImprovement r in
      Continue ga generationsWithoutImprovement bestFitnessEver r.

(** The body of the generation loop. *)
Definition generation (ga : GeneticSolver)
    (generationsWithoutImprovement bestFitnessEver : Z) (r : Rand.t) : step :=
  match before_selection ga generationsWithoutImprovement bestFitnessEver r with
  | Continue ga generationsWithoutImprovement bestFitnessEver r =>
      let '(newPopulation, r) := createNewGeneration ga r in
      Continue (set_population ga newPopulation)
               generationsWithoutImprovement bestFitnessEver r
  | other => other
  end.

(** [for generation := 0; generation < ga.maxGenerations; generation++],
    with [k] the number of generations that remain.  The result is
    [Success] after the [return true] of the loop, and [Break] when the
    loop is left by [break] or by its condition. *)
Fixpoint evolve (k : nat) (ga : GeneticSolver)
    (generationsWithoutImprovement bestFitnessEver : Z) (r : Rand.t) : step :=
  match k with
  | O => Break ga r
  | S k =>
      match generation ga generationsWithoutImprovement bestFitnessEver r with
      | Continue ga generationsWithoutImprovement bestFitnessEver r =>
          evolve k ga generationsWithoutImprovement bestFitnessEver r
      | other => other
      end
  end.

Definition singleRun (ga : GeneticSolver) (r : Rand.t)
  : bool * GeneticSolver * Rand.t :=
  let '(ga, r) := initializePopulation ga r in
  match evolve (Z.to_nat (maxGenerations ga)) ga 0
               (Z.of_nat (n ga) * Z.of_nat (n ga)) r with
  | Success ga r => (true, ga, r)
  | Break ga r | Continue ga _ _ r =>
      let ga := evaluatePopulation ga in
      if fitness (population ga !!! 0%nat) =? 0 then (true, found ga, r)
      else (false, ga, r)
  end.

Fixpoint restart_loop (k : nat) (ga : GeneticSolver) (r : Rand.t)
  : bool * GeneticSolver * Rand.t :=
  match k with
  | O => (false, ga, r)
  | S k =>
      match singleRun ga r with
      | (true, ga, r) => (true, ga, r)
      | (false, ga, r) => restart_loop k ga r
      end
  end.

Definition Solve (ga : GeneticSolver) (r : Rand.t)
  : bool * GeneticSolver * Rand.t :=
  restart_loop (Z.to_nat (restarts ga)) ga r.

End Evolution.

Definition GetSolution (ga : GeneticSolver) : list Z := solution ga.

Definition PrintSolution (ga : GeneticSolver) (stdout : string)
  : GeneticSolver * string :=
  if negb (solved ga) then (ga, Println "No solution found" stdout)
  else
    let stdout :=
      Print ("Genetic Algorithm Solution for N=" +:+ pretty (n ga) +:+ ":"
             +:+ newline) stdout in
    let stdout := print_board (n ga) (solution ga) stdout in
    (ga, Println "" stdout).

End GA.

(** ** Exhaustive depth-first search ([exhaustive.go]) *)

Module Exhaustive.

(** [board[row]] is the column of the queen that the search has put in
    [row]. *)
Record ExhaustiveSearchSolver : Type := Build {
  n : nat;
  board : list Z;
  solution : list Z;
  solutionFound : bool
}.

Definition set_board (e : ExhaustiveSearchSolver) (b : list Z)
  : ExhaustiveSearchSolver :=
  {| n := n e; board := b; solution := solution e;
     solutionFound := solutionFound e |}.

Definition set_solutionFound (e : ExhaustiveSearchSolver) (b : bool)
  : ExhaustiveSearchSolver :=
  {| n := n e; board := board e; solution := solution e; solutionFound := b |}.

Definition NewExhaustiveSearchSolver (n : nat) : ExhaustiveSearchSolver :=
  {| n := n; board := make n; solution := []; solutionFound := false |}.

(** [isSafe]: [for i := 0; i < row; i++] with its two [return false];
    [continue] stands for the rest of the loop. *)
Definition isSafe (e : ExhaustiveSearchSolver) (row col : nat) : bool :=
  foldr (fun i continue =>
           if bool_decide (board e !!! i = Z.of_nat col) then false
           else if bool_decide (abs (board e !!! i - Z.of_nat col)
                                = abs (Z.of_nat i - Z.of_nat row))
           then false
           else continue)
        true (seq 0 row).

(** Lines 36 to 38: the board becomes the solution. *)
Definition found (e : ExhaustiveSearchSolver) : ExhaustiveSearchSolver :=
  {| n := n e; board := board e; solution := copy (make (n e)) (board e);
     solutionFound := true |}.

(** The loop over [col] of [solveRecursive], for the columns [cols] that
    are still to be tried; [solveNext] is the recursive call for the next
    row, and [None] says that the recursion did not return. *)
Fixpoint try_columns
    (solveNext : ExhaustiveSearchSolver -> option ExhaustiveSearchSolver)
    (row : nat) (cols : list nat) (e : ExhaustiveSearchSolver)
  : option ExhaustiveSearchSolver :=
  match cols with
  | [] => Some e
  | col :: cols =>
      if isSafe e row col then
        match solveNext (set_board e (<[row := Z.of_nat col]> (board e))) with
        | None => None
        | Some e =>
            if solutionFound e then Some e
            else try_columns solveNext row cols e
        end
      else try_columns solveNext row cols e
  end.

(** [solveRecursive].  The recursion goes one call deeper per row;
    [depth] is the number of nested calls that the model allows below
    this one, and [None] says that they were used up. *)
Fixpoint solveRecursive (depth : nat) (e : ExhaustiveSearchSolver) (row : nat)
  : option ExhaustiveSearchSolver :=
  if solutionFound e then Some e
  else if bool_decide (row = n e) then Some (found e)
  else
    match depth with
    | O => None
    | S depth =>
        try_columns (fun e => solveRecursive depth e (S row)) row
                    (seq 0 (n e)) e
    end.

(** [Solve]: the search starts in row 0 and nests at most [n] calls below
    the first. *)
Definition Solve (e : ExhaustiveSearchSolver)
  : option (bool * ExhaustiveSearchSolver) :=
  let e := set_solutionFound e false in
  match solveRecursive (n e) e 0 with
  | Some e => Some (solutionFound e, e)
  | None => None
  end.

Definition GetSolution (e : ExhaustiveSearchSolver) : list Z := solution e.

Definition PrintSolution (e : ExhaustiveSearchSolver) (stdout : string)
  : ExhaustiveSearchSolver * string :=
  if negb (solutionFound e) then (e, Println "No solution found" stdout)
  else
    let stdout :=
      Print ("Exhaustive Search Solution for N=" +:+ pretty (n e) +:+ ":"
             +:+ newline) stdout in
    let stdout := print_board (n e) (solution e) stdout in
    (e, Println "" stdout).

End Exhaustive.

(** A sort by which [sort.Slice] can be instantiated: stdpp's merge sort
    with the order [a <= b] given by [less b a = false]. *)
Definition not_after (less : GA.Individual -> GA.Individual -> bool)
  : relation GA.Individual := fun a b => less b a = false.

Global Instance not_after_dec less a b : Decision (not_after less a b).
Proof. unfold not_after. apply _. Defined.

Definition merge_sortSlice (less : GA.Individual -> GA.Individual -> bool)
    (l : list GA.Individual) : list GA.Individual :=
  merge_sort (not_after less) l.

(** * The vocabulary of the statements *)

(** ** Counting conflicts *)

Definition sumZ {A : Type} (f : A -> Z) (l : list A) : Z :=
  foldr (fun x acc => f x + acc) 0 l.

(** What one pair of columns adds to a counter. *)
Definition pair_cost (board : list Z) (i j : nat) : Z := count_pair board i j 0.

(** The pairs of columns [(i, j)] with [i < j < n], in the order in which
    the nested loops visit them. *)
Definition column_pairs (n : nat) : list (nat * nat) :=
  i ← seq 0 n; j ← seq (S i) (n - S i); [(i, j)].

Definition same_row (board : list Z) (p : nat * nat) : Prop :=
  board !!! p.1 = board !!! p.2.

Definition same_diagonal (board : list Z) (p : nat * nat) : Prop :=
  Z.abs (board !!! p.1 - board !!! p.2) = Z.abs (Z.of_nat p.1 - Z.of_nat p.2).

Global Instance same_row_dec board p : Decision (same_row board p).
Proof. unfold same_row. apply _. Defined.

Global Instance same_diagonal_dec board p : Decision (same_diagonal board p).
Proof. unfold same_diagonal. apply _. Defined.

(** The number of pairs of columns [i < j < n] that satisfy [P]. *)
Definition count_pairs (n : nat) (P : nat * nat -> Prop)
    `{!∀ p, Decision (P p)} : Z :=
  Z.of_nat (length (filter P (column_pairs n))).

(** No two queens share a row or a diagonal. *)
Definition zero_conflict (n : nat) (board : list Z) : Prop :=
  ∀ i j : nat, (i < n)%nat -> (j < n)%nat -> i ≠ j ->
    board !!! i ≠ board !!! j ∧
    Z.abs (board !!! i - board !!! j) ≠ Z.abs (Z.of_nat i - Z.of_nat j).

(** Values of a board: rows of the [n] by [n] grid. *)
Definition in_range (n : nat) (board : list Z) : Prop :=
  Forall (fun v => 0 <= v < Z.of_nat n) board.

(** ** The sweep and the restart of the greedy search *)

(** The candidate moves [(col, newRow)] in the order of the sweep. *)
Definition moves (n : nat) : list (nat * nat) :=
  col ← seq 0 n; newRow ← seq 0 n; [(col, newRow)].

(** The board that a move leads to, and its conflict count. *)
Definition moved (g : Greedy.GreedySolver) (m : nat * nat) : list Z :=
  <[m.1 := Z.of_nat m.2]> (Greedy.board g).

Definition move_cost (g : Greedy.GreedySolver) (m : nat * nat) : Z :=
  Greedy.countConflicts (Greedy.set_board g (moved g m)).

(** A move changes the board: [newRow] is not the current row. *)
Definition proper_move (g : Greedy.GreedySolver) (m : nat * nat) : Prop :=
  Greedy.board g !!! m.1 ≠ Z.of_nat m.2.

(** What the sweep keeps of one candidate. *)
Definition pick (g : Greedy.GreedySolver) (best : list Z * Z) (m : nat * nat)
  : list Z * Z :=
  if bool_decide (Greedy.board g !!! m.1 = Z.of_nat m.2) then best
  else if move_cost g m <? best.2 then (moved g m, move_cost g m) else best.

(** The rows that [k] consecutive calls of [rand.Intn(n)] return, and the
    source after [k] draws. *)
Definition fresh_rows (n : nat) (r : Rand.t) (k : nat) : list Z :=
  map (fun i =>
         Z.of_nat (Rand.d_int (Rand.tape r (Rand.cursor r + N.of_nat i)%N) `mod` n))
      (seq 0 k).

Definition advance (r : Rand.t) (k : nat) : Rand.t :=
  Rand.Source (Rand.tape r) (Rand.cursor r + N.of_nat k)%N.

(** The boards that the main loop goes through: [trajectory j g r] is the
    state before iteration [j], as long as no earlier board was free of
    conflicts. *)
Fixpoint trajectory (j : nat) (g : Greedy.GreedySolver) (r : Rand.t)
  : Greedy.GreedySolver * Rand.t :=
  match j with
  | O => (g, r)
  | S j => let '(g, r) := Greedy.iteration g r in trajectory j g r
  end.

(** What the greedy search keeps along the way: the dimension, the cap,
    the length of the board and the range of its rows. *)
Definition greedy_inv (n : nat) (g : Greedy.GreedySolver) : Prop :=
  Greedy.n g = n ∧ length (Greedy.board g) = n ∧ in_range n (Greedy.board g).



(** ** What a run of simulated annealing keeps *)

(** A board of dimension [n]: [n] rows in [[0, n)]. *)
Definition board_ok (n : nat) (board : list Z) : Prop :=
  length board = n ∧ in_range n board.

Definition sa_ok (n : nat) (sa : SA.SimulatedAnnealingSolver) : Prop :=
  SA.n sa = n ∧ board_ok n (SA.board sa).

(** The working variables of [singleRun] agree with the boards they
    describe. *)
Definition run_ok (n : nat) (s : SA.run_state) : Prop :=
  sa_ok n (SA.solver s)
  ∧ board_ok n (SA.bestBoard s)
  ∧ SA.currentCost s = pairwise_scan n (SA.board (SA.solver s))
  ∧ SA.bestCost s = pairwise_scan n (SA.bestBoard s).

(** A board without conflicts, as [found] stores it. *)
Definition stores_solution (n : nat) (sa : SA.SimulatedAnnealingSolver) : Prop :=
  sa_ok n sa ∧ board_ok n (SA.solution sa) ∧ pairwise_scan n (SA.solution sa) = 0
  ∧ SA.solved sa = true.

(** The result of one run: the solver still has its dimension and a
    board of that length, and a success stores a board without
    conflicts. *)
Definition run_result_ok (n : nat)
    (res : bool * SA.SimulatedAnnealingSolver * Rand.t) : Prop :=
  SA.n res.1.2 = n ∧ length (SA.board res.1.2) = n
  ∧ (res.1.1 = true -> stores_solution n res.1.2).


(** On the tape whose every cell is zero, the redraw loop never ends. *)
Definition zero_tape : N -> Rand.draw := fun _ => Rand.Draw 0 0%float.

(** ** What a run of the genetic algorithm keeps *)

Definition indiv_ok (n : nat) (x : GA.Individual) : Prop :=
  board_ok n (GA.chromosome x).

(** The cached fitness is the conflict count of the chromosome. *)
Definition evaluated (n : nat) (x : GA.Individual) : Prop :=
  GA.fitness x = pairwise_scan n (GA.chromosome x).

(** The population of a run: [populationSize] individuals, each with a
    board of dimension [n] for its chromosome. *)
Definition ga_shape (n : nat) (ga : GA.GeneticSolver) : Prop :=
  GA.n ga = n ∧ (20 <= GA.populationSize ga)%nat
  ∧ length (GA.population ga) = GA.populationSize ga.

Definition ga_ok (n : nat) (ga : GA.GeneticSolver) : Prop :=
  ga_shape n ga ∧ Forall (indiv_ok n) (GA.population ga).

(** The outcome of a run, of a generation or of [Solve]: the solver keeps
    its shape, and a success stores a board without conflicts. *)
Definition ga_stores (n : nat) (ga : GA.GeneticSolver) : Prop :=
  board_ok n (GA.solution ga) ∧ pairwise_scan n (GA.solution ga) = 0
  ∧ GA.solved ga = true.

(** What a pass through the generation loop, or the loop itself, leaves. *)
Definition step_ok (n : nat) (st : GA.step) : Prop :=
  match st with
  | GA.Success ga r => ga_ok n ga ∧ ga_stores n ga
  | GA.Break ga r => ga_ok n ga
  | GA.Continue ga _ _ r => ga_ok n ga
  end.

Definition ga_result_ok (n : nat) (res : bool * GA.GeneticSolver * Rand.t) : Prop :=
  ga_ok n res.1.2 ∧ (res.1.1 = true -> ga_stores n res.1.2).

(** ** Order crossover *)

(** A permutation of [[0, n)]. *)
Definition is_permutation (n : nat) (l : list Z) : Prop :=
  l ≡ₚ seqZ 0 (Z.of_nat n).

(** The values of the segment [[start, end]] of [parent1]. *)
Definition segment (parent1 : list Z) (start end_ : nat) : list Z :=
  (fun i => parent1 !!! i) <$> seq start (S end_ - start).

(** [parent2] read cyclically from the position after [end]; [rotated_to]
    stops after [k] values. *)
Definition rotated_to (n : nat) (parent2 : list Z) (end_ k : nat) : list Z :=
  (fun i => parent2 !!! ((end_ + 1 + i) `mod` n)%nat) <$> seq 0 k.

Definition rotated (n : nat) (parent2 : list Z) (end_ : nat) : list Z :=
  rotated_to n parent2 end_ n.

(** The values of [parent2], in that cyclic order, that the segment does
    not hold. *)
Definition unused (n : nat) (parent1 parent2 : list Z) (start end_ : nat)
  : list Z :=
  filter (fun x => x ∉ segment parent1 start end_) (rotated n parent2 end_).


(** What claim C5 says of the child of [parent1] and [parent2] for the
    cut points [start <= end]. *)
Definition ox_child (n : nat) (parent1 parent2 : list Z) (start end_ : nat)
    (child : list Z) : Prop :=
  let rest := unused n parent1 parent2 start end_ in
  length child = n
  ∧ is_permutation n child
  (* the segment is copied verbatim, at the same positions *)
  ∧ (∀ i : nat, (start <= i <= end_)%nat -> child !!! i = parent1 !!! i)
  (* every other position is filled, from the one after [end] on and
     wrapping around, with the unused values in parent2's cyclic order *)
  ∧ length rest = (n - (S end_ - start))%nat
  ∧ (∀ j : nat, (j < length rest)%nat ->
       child !!! ((end_ + 1 + j) `mod` n)%nat = rest !!! j)
  ∧ (∀ pos : nat, (pos < n)%nat -> ¬ (start <= pos <= end_)%nat ->
       ∃ j : nat, (j < length rest)%nat ∧ pos = ((end_ + 1 + j) `mod` n)%nat).

Definition list_tape (l : list nat) : N -> Rand.draw :=
  fun k => Rand.Draw (l !!! N.to_nat k) 0%float.

(** ** The common interface of the solvers *)

(** The three heuristic solvers behind their common interface:
    construct with [n], call [Solve], then read [GetSolution] or call
    [PrintSolution]. *)
Inductive heuristic : Type :=
  | GreedySearch
  | SimulatedAnnealing
  | GeneticAlgorithm.

Inductive solver : Type :=
  | Greedy_solver (g : Greedy.GreedySolver)
  | Annealing_solver (sa : SA.SimulatedAnnealingSolver)
  | Genetic_solver (ga : GA.GeneticSolver).

Definition GetSolution (s : solver) : list Z :=
  match s with
  | Greedy_solver g => Greedy.GetSolution g
  | Annealing_solver sa => SA.GetSolution sa
  | Genetic_solver ga => GA.GetSolution ga
  end.

Definition PrintSolution (s : solver) (stdout : string) : solver * string :=
  match s with
  | Greedy_solver g =>
      let '(g, stdout) := Greedy.PrintSolution g stdout in (Greedy_solver g, stdout)
  | Annealing_solver sa =>
      let '(sa, stdout) := SA.PrintSolution sa stdout in (Annealing_solver sa, stdout)
  | Genetic_solver ga =>
      let '(ga, stdout) := GA.PrintSolution ga stdout in (Genetic_solver ga, stdout)
  end.

(** Construct a solver of kind [h] for dimension [n] and call its
    [Solve]: the result of [Solve] and the solver afterwards. *)
Definition run (h : heuristic) (Exp : float -> float)
    (sortSlice : (GA.Individual -> GA.Individual -> bool) ->
                 list GA.Individual -> list GA.Individual)
    (fuel n : nat) (r : Rand.t) : option (bool * solver) :=
  match h with
  | GreedySearch =>
      let '(ok, g, _) := Greedy.Solve (Greedy.NewGreedySolver n) r in
      Some (ok, Greedy_solver g)
  | SimulatedAnnealing =>
      match SA.Solve Exp fuel (SA.NewSimulatedAnnealingSolver n) r with
      | Some (ok, sa, _) => Some (ok, Annealing_solver sa)
      | None => None
      end
  | GeneticAlgorithm =>
      let '(ok, ga, _) := GA.Solve sortSlice (GA.NewGeneticSolver n) r in
      Some (ok, Genetic_solver ga)
  end.

Definition solve (h : heuristic) (Exp : float -> float)
    (sortSlice : (GA.Individual -> GA.Individual -> bool) ->
                 list GA.Individual -> list GA.Individual)
    (fuel n : nat) (r : Rand.t) : option (bool * list Z) :=
  match run h Exp sortSlice fuel n r with
  | Some (ok, s) => Some (ok, GetSolution s)
  | None => None
  end.

Definition dimension (s : solver) : nat :=
  match s with
  | Greedy_solver g => Greedy.n g
  | Annealing_solver sa => SA.n sa
  | Genetic_solver ga => GA.n ga
  end.

Definition solved (s : solver) : bool :=
  match s with
  | Greedy_solver g => Greedy.solved g
  | Annealing_solver sa => SA.solved sa
  | Genetic_solver ga => GA.solved ga
  end.

(** A solver after a successful [Solve]. *)
Definition holds_solution (n : nat) (s : solver) : Prop :=
  dimension s = n ∧ solved s = true
  ∧ board_ok n (GetSolution s) ∧ pairwise_scan n (GetSolution s) = 0.

(** A tape on which consecutive draws differ. *)
Definition alternating_tape : N -> Rand.draw :=
  fun k => Rand.Draw (if N.even k then 0 else 1) 0.5%float.


(** ** Rendering *)

(** The concatenation of a list of strings. *)
Definition flatten (l : list string) : string := foldr String.append "" l.

(** The cell that [PrintSolution] prints as cell [pos] of line [line]. *)
Definition cell (solution : list Z) (line pos : nat) : string :=
  if bool_decide (solution !!! line = Z.of_nat pos) then "Q " else ". ".

(** The [n] lines of [n] cells each. *)
Definition grid (n : nat) (solution : list Z) : list (list string) :=
  (fun line => (fun pos => cell solution line pos) <$> seq 0 n) <$> seq 0 n.

(** The text of a grid: the cells of a line one after the other, and a
    newline after every line. *)
Definition render (rows : list (list string)) : string :=
  flatten ((fun row => flatten row +:+ newline) <$> rows).

(** The number of queen markers of a grid. *)
Definition markers (rows : list (list string)) : nat :=
  length (filter (fun c => c = "Q ") (mjoin rows)).

(** The first line that [PrintSolution] prints for a solver that holds a
    solution. *)
Definition header (s : solver) : string :=
  match s with
  | Greedy_solver g =>
      "Greedy Search Solution for N=" +:+ pretty (Greedy.n g) +:+ ":" +:+ newline
  | Annealing_solver sa =>
      "Simulated Annealing Solution for N=" +:+ pretty (SA.n sa) +:+ ":" +:+ newline
  | Genetic_solver ga =>
      "Genetic Algorithm Solution for N=" +:+ pretty (GA.n ga) +:+ ":" +:+ newline
  end.

(** What [PrintSolution] does for the solver [s] of dimension [n]. *)
Definition prints_one_line_per_column (n : nat) (s : solver) : Prop :=
  let rows := grid n (GetSolution s) in
  (* the text: a header, the grid and an empty line; the solver is
     returned as it was *)
  (∀ stdout,
     PrintSolution s stdout
     = (s, stdout +:+ header s +:+ render rows +:+ newline))
  (* the grid has [n] lines of [n] cells *)
  ∧ length rows = n
  ∧ (∀ line : nat, (line < n)%nat -> length (rows !!! line) = n)
  (* line [col] has its marker in cell [solution[col]], blanks elsewhere *)
  ∧ (∀ col pos : nat, (col < n)%nat -> (pos < n)%nat ->
       (rows !!! col) !!! pos
       = if bool_decide (GetSolution s !!! col = Z.of_nat pos) then "Q " else ". ")
  ∧ markers rows = n.

Definition tape_1302 : N -> Rand.draw := list_tape [1; 3; 0; 2]%nat.

(** The layout that claim C10 states: the marker of column [col] in line
    [solution[col]], at cell [col]. *)
Definition claimed_grid (n : nat) (solution : list Z) : list (list string) :=
  (fun row =>
     (fun col => if bool_decide (solution !!! col = Z.of_nat row) then "Q " else ". ")
     <$> seq 0 n) <$> seq 0 n.

(** ** The acceptance rule of simulated annealing *)

(** The state in which an iteration of [singleRun] reaches line 69: the
    working variables, with the source as neighbour generation left it. *)
Definition at_acceptance (s : SA.run_state) (r : Rand.t) : SA.run_state :=
  SA.RunState (SA.solver s) (SA.temperature s) (SA.currentCost s)
              (SA.bestCost s) (SA.bestBoard s) r.

(** What claim C4 says of the state [s'] after lines 69 to 81, for the
    state [s] before them and the neighbour [neighbor]. *)
Definition metropolis_step (Exp : float -> float) (s : SA.run_state)
    (neighbor : list Z) (s' : SA.run_state) : Prop :=
  let sa := SA.solver s in
  let neighborCost := SA.calculateCostForBoard sa neighbor in
  let deltaCost := neighborCost - SA.currentCost s in
  let draw := Rand.Float64 (SA.source s) in
  let accepted : Prop :=
    deltaCost <= 0
    ∨ (draw.1 <? Exp (- float64 deltaCost / SA.temperature s))%float = true in
  SA.acceptanceProbability Exp sa deltaCost (SA.temperature s)
  = Exp (- float64 deltaCost / SA.temperature s)%float
  (* accepted: the neighbour replaces the board, its cost the current cost *)
  ∧ (accepted ->
       SA.solver s' = SA.set_board sa (copy (SA.board sa) neighbor)
       ∧ SA.currentCost s' = neighborCost
       (* and the best board and cost follow a strictly better cost *)
       ∧ (neighborCost < SA.bestCost s ->
            SA.bestCost s' = neighborCost
            ∧ SA.bestBoard s' = copy (SA.bestBoard s) (SA.board (SA.solver s')))
       ∧ (¬ neighborCost < SA.bestCost s ->
            SA.bestCost s' = SA.bestCost s ∧ SA.bestBoard s' = SA.bestBoard s))
  (* rejected: nothing changes *)
  ∧ (¬ accepted ->
       SA.solver s' = SA.solver s ∧ SA.currentCost s' = SA.currentCost s
       ∧ SA.bestCost s' = SA.bestCost s ∧ SA.bestBoard s' = SA.bestBoard s)
  (* the draw is made, and used up, only when the neighbour is worse *)
  ∧ SA.source s' = (if bool_decide (deltaCost <= 0) then SA.source s else draw.2)
  ∧ SA.temperature s' = SA.temperature s
  (* between boards of one length, [copy] replaces the whole board *)
  ∧ (length neighbor = length (SA.board sa) -> copy (SA.board sa) neighbor = neighbor).

Definition warm_state : SA.run_state :=
  SA.RunState (SA.set_board (SA.NewSimulatedAnnealingSolver 4) [0; 1; 2; 3])
              16%float 6 6 [0; 1; 2; 3] (Rand.Source alternating_tape 0).

(** ** Strategy 2 of the neighbour generation *)

(** The conflicts of column [col] once its queen is put in row [row]. *)
Definition local_conflicts (sa : SA.SimulatedAnnealingSolver) (board : list Z)
    (col row : nat) : Z :=
  SA.calculateConflictsForPosition sa (<[col := Z.of_nat row]> board) col.

(** What strategy 2 returns for the solver [sa] and the source [r0] that
    the strategy draw left. *)
Definition moves_conflicted_queen (fuel : nat) (sa : SA.SimulatedAnnealingSolver)
    (r r0 : Rand.t) : Prop :=
  let conflicted := SA.findConflictedQueens sa in
  let col := conflicted !!! (Rand.Intn (length conflicted) r0).1 in
  ∃ (row : nat) (r' : Rand.t),
    (* the neighbour is the board with the queen of [col] in [row] *)
    SA.generateSmartNeighbor fuel sa r
    = Some (<[col := Z.of_nat row]> (SA.board sa), r')
    (* [col] is a column in conflict *)
    ∧ (col < SA.n sa)%nat
    ∧ 0 < SA.calculateConflictsForPosition sa (SA.board sa) col
    (* [row] is another row of the board *)
    ∧ (row < SA.n sa)%nat ∧ Z.of_nat row ≠ SA.board sa !!! col
    (* with the least local count among the rows other than the current *)
    ∧ ∀ row' : nat, (row' < SA.n sa)%nat -> Z.of_nat row' ≠ SA.board sa !!! col ->
        local_conflicts sa (SA.board sa) col row
        <= local_conflicts sa (SA.board sa) col row'.

(** A board that [smartInit] can produce, with columns 1 and 2 on one
    diagonal, and a tape whose strategy draws select strategy 2. *)
Definition diagonal_pair : SA.SimulatedAnnealingSolver :=
  SA.set_board (SA.NewSimulatedAnnealingSolver 3) [0; 2; 1].

Definition strategy_2_tape : N -> Rand.draw := fun _ => Rand.Draw 0 0.7%float.

(** ** The generation loop *)

(** The first [k] passes through the generation loop. *)
Fixpoint generations
    (sortSlice : (GA.Individual -> GA.Individual -> bool) ->
                 list GA.Individual -> list GA.Individual)
    (k : nat) (st : GA.step) : GA.step :=
  match k with
  | O => st
  | S k =>
      match st with
      | GA.Continue ga generationsWithoutImprovement bestFitnessEver r =>
          generations sortSlice k
            (GA.generation sortSlice ga generationsWithoutImprovement
               bestFitnessEver r)
      | other => other
      end
  end.

(** A stream on which no generation improves: every [rand.Intn] draw is
    79 modulo its bound and every [rand.Float64] draw is 0. *)
Definition stagnation_tape : N -> Rand.draw := fun _ => Rand.Draw 79 0%float.

(** The state of the 22nd generation of a run for [N = 2] when it reaches
    [createNewGeneration], and the individual that the first tournament
    of that generation returns. *)
Definition stagnant_selection : option (Z * GA.GeneticSolver * GA.Individual) :=
  let '(ga, r) :=
    GA.initializePopulation (GA.NewGeneticSolver 2) (Rand.Source stagnation_tape 0) in
  match generations merge_sortSlice 21 (GA.Continue ga 0 4 r) with
  | GA.Continue ga g b r =>
      match GA.before_selection merge_sortSlice ga g b r with
      | GA.Continue ga g _ r => Some (g, ga, (GA.tournamentSelection ga r).1)
      | _ => None
      end
  | _ => None
  end.

(** ** The exhaustive search *)

(** A placement of [n] queens, one per index, none attacking another. *)
Definition is_solution (n : nat) (s : list Z) : Prop :=
  board_ok n s ∧ zero_conflict n s.

(** [s] has the entries of [b] below [row]. *)
Definition same_prefix (row : nat) (b s : list Z) : Prop :=
  ∀ i : nat, (i < row)%nat -> s !!! i = b !!! i.

(** The first [row] queens of [b] are on the board and do not attack each
    other. *)
Definition placed (n row : nat) (b : list Z) : Prop :=
  (∀ i : nat, (i < row)%nat -> 0 <= b !!! i < Z.of_nat n) ∧ zero_conflict row b.

(** The lexicographic order of boards of one length. *)
Definition lex_le (s s' : list Z) : Prop :=
  s = s' ∨ ∃ k : nat, (∀ i : nat, (i < k)%nat -> s !!! i = s' !!! i)
                      ∧ s !!! k < s' !!! k.

(** What a call [solveRecursive(row)] on the solver [e] leaves in [e']:
    the rows below [row] are as they were, and the search either stores
    the first solution that continues them, or finds that there is none
    and stores nothing. *)
Definition search_spec (n row : nat)
    (e e' : Exhaustive.ExhaustiveSearchSolver) : Prop :=
  Exhaustive.n e' = n ∧ length (Exhaustive.board e') = n
  ∧ same_prefix row (Exhaustive.board e) (Exhaustive.board e')
  ∧ if Exhaustive.solutionFound e' then
      is_solution n (Exhaustive.solution e')
      ∧ same_prefix row (Exhaustive.board e) (Exhaustive.solution e')
      ∧ ∀ s, is_solution n s -> same_prefix row (Exhaustive.board e) s ->
             lex_le (Exhaustive.solution e') s
    else
      Exhaustive.solution e' = Exhaustive.solution e
      ∧ ∀ s, is_solution n s -> ¬ same_prefix row (Exhaustive.board e) s.

(** The picture of a chessboard with [n] queens: [n] lines of [n] cells,
    with one marker in every line and one in every cell position. *)
Definition chessboard (n : nat) (rows : list (list string)) : Prop :=
  length rows = n
  ∧ (∀ line : nat, (line < n)%nat -> length (rows !!! line) = n)
  ∧ (∀ line : nat, (line < n)%nat ->
       ∃ pos : nat, (pos < n)%nat
         ∧ ∀ pos' : nat, (pos' < n)%nat ->
             (rows !!! line) !!! pos' = (if decide (pos' = pos) then "Q " else ". "))
  ∧ (∀ pos : nat, (pos < n)%nat ->
       ∃ line : nat, (line < n)%nat
         ∧ ∀ line' : nat, (line' < n)%nat ->
             (rows !!! line') !!! pos = (if decide (line' = line) then "Q " else ". ")).

(** ** Evaluation, elitism and selection *)

(** An individual with its fitness computed afresh. *)
Definition reevaluate (ga : GA.GeneticSolver) (x : GA.Individual) : GA.Individual :=
  GA.Indiv (GA.chromosome x) (GA.calculateFitness ga (GA.chromosome x)).

(** What [evaluatePopulation] needs of [sort.Slice] for its comparison:
    the slice is rearranged, and afterwards no individual is less than
    the one before it. *)
Definition sorts_by_fitness
    (sortSlice : (GA.Individual -> GA.Individual -> bool) ->
                 list GA.Individual -> list GA.Individual) : Prop :=
  ∀ l, sortSlice GA.less l ≡ₚ l ∧ Sorted (not_after GA.less) (sortSlice GA.less l).

(** The best fitness that a generation finds once it has evaluated the
    population: [currentBest]. *)
Definition currentBest
    (sortSlice : (GA.Individual -> GA.Individual -> bool) ->
                 list GA.Individual -> list GA.Individual)
    (ga : GA.GeneticSolver) : Z :=
  GA.fitness (GA.population (GA.evaluatePopulation sortSlice ga) !!! 0%nat).

(** The individuals that [k] consecutive draws of [rand.Intn] pick from
    the population. *)
Definition picks (ga : GA.GeneticSolver) (r : Rand.t) (k : nat)
  : list GA.Individual :=
  (fun i =>
     GA.population ga
       !!! (Rand.d_int (Rand.tape r (Rand.cursor r + N.of_nat i)%N)
            `mod` GA.populationSize ga)%nat) <$> seq 0 k.

(** The population with which the tests of the genetic operators start. *)
Definition first_population : GA.GeneticSolver :=
  (GA.initializePopulation (GA.NewGeneticSolver 4)
     (Rand.Source alternating_tape 0)).1.

(** ** Boards that are permutations *)

(** A fresh individual: a permutation of the rows whose fitness is not
    computed yet. *)
Definition fresh_individual (n : nat) (x : GA.Individual) : Prop :=
  is_permutation n (GA.chromosome x) ∧ GA.fitness x = 0.

(** The board [b] with the entries at [pos1] and [pos2] exchanged. *)
Definition exchanged (b : list Z) (pos1 pos2 : nat) : list Z :=
  <[pos2 := b !!! pos1]> (<[pos1 := b !!! pos2]> b).

(** ** Strategy 3 of the neighbour generation *)

(** What strategy 3 returns for the solver [sa] and the source [r0] that
    the strategy draw left. *)
Definition improves_drawn_column (fuel : nat) (sa : SA.SimulatedAnnealingSolver)
    (r r0 : Rand.t) : Prop :=
  let col := (Rand.Intn (SA.n sa) r0).1 in
  let current := SA.calculateConflictsForPosition sa (SA.board sa) col in
  ∃ row : nat,
    (* the neighbour is the board with the queen of the drawn column in [row] *)
    SA.generateSmartNeighbor fuel sa r
    = Some (<[col := Z.of_nat row]> (SA.board sa), (Rand.Intn (SA.n sa) r0).2)
    ∧ (col < SA.n sa)%nat ∧ (row < SA.n sa)%nat
    (* no row of the board gives the column fewer conflicts *)
    ∧ (∀ row' : nat, (row' < SA.n sa)%nat ->
         local_conflicts sa (SA.board sa) col row
         <= local_conflicts sa (SA.board sa) col row')
    (* and the queen only moves when that is a strict improvement *)
    ∧ (Z.of_nat row = SA.board sa !!! col
       ∨ local_conflicts sa (SA.board sa) col row < current).

(** A tape whose strategy draws select strategy 3. *)
Definition strategy_3_tape : N -> Rand.draw := fun _ => Rand.Draw 1 0.9%float.

(** ** The bookkeeping of the annealing loop *)

(** The best cost is at most the current cost. *)
Definition best_so_far (s : SA.run_state) : Prop :=
  SA.bestCost s <= SA.currentCost s.

(** ** The result fields of the solvers *)

(** What [Solve] leaves in the fields [solved] and [solution] of a solver
    that held [solved0] and [solution0] there, when it returns [ok]. *)
Definition keeps_result (solved0 : bool) (solution0 : list Z) (ok : bool)
    (solved1 : bool) (solution1 : list Z) : Prop :=
  solved1 = solved0 || ok ∧ (ok = false -> solution1 = solution0).

(** Two solvers with the same result fields. *)
Definition greedy_same (g g' : Greedy.GreedySolver) : Prop :=
  Greedy.solved g' = Greedy.solved g ∧ Greedy.solution g' = Greedy.solution g.

Definition sa_same (sa sa' : SA.SimulatedAnnealingSolver) : Prop :=
  SA.solved sa' = SA.solved sa ∧ SA.solution sa' = SA.solution sa.

Definition ga_same (ga ga' : GA.GeneticSolver) : Prop :=
  GA.solved ga' = GA.solved ga ∧ GA.solution ga' = GA.solution ga.

(** What the three [Solve] methods do to the result fields. *)
Definition Solve_keeps_result : Prop :=
  (∀ (g : Greedy.GreedySolver) (r : Rand.t),
     let res := Greedy.Solve g r in
     keeps_result (Greedy.solved g) (Greedy.solution g) res.1.1
                  (Greedy.solved res.1.2) (Greedy.solution res.1.2))
  ∧ (∀ (Exp : float -> float) (fuel : nat) (sa : SA.SimulatedAnnealingSolver)
       (r : Rand.t) (res : bool * SA.SimulatedAnnealingSolver * Rand.t),
       SA.Solve Exp fuel sa r = Some res ->
       keeps_result (SA.solved sa) (SA.solution sa) res.1.1
                    (SA.solved res.1.2) (SA.solution res.1.2))
  ∧ (∀ (sortSlice : (GA.Individual -> GA.Individual -> bool) ->
                    list GA.Individual -> list GA.Individual)
       (ga : GA.GeneticSolver) (r : Rand.t),
       let res := GA.Solve sortSlice ga r in
       keeps_result (GA.solved ga) (GA.solution ga) res.1.1
                    (GA.solved res.1.2) (GA.solution res.1.2)).

(** ** A placement for every dimension but 2 and 3 *)

(** For an even dimension [2 * m]: the queens of the first [m] rows on
    the odd columns and those of the last [m] rows on the even columns. *)
Definition stairs (m row : nat) : Z :=
  if bool_decide (row < m)%nat then 2 * Z.of_nat row + 1
  else 2 * (Z.of_nat row - Z.of_nat m).

(** For the even dimensions [2 * m] with [m mod 3 = 1], where [stairs]
    puts two queens on one diagonal: the first [m] rows shifted by
    [m - 1] columns, cyclically, and the last [m] rows their mirror
    image. *)
Definition shifted (m i : nat) : Z :=
  let x := 2 * Z.of_nat i + Z.of_nat m - 1 in
  if bool_decide (x < 2 * Z.of_nat m) then x else x - 2 * Z.of_nat m.

Definition mirrored_stairs (m row : nat) : Z :=
  if bool_decide (row < m)%nat then shifted m row
  else 2 * Z.of_nat m - 1 - shifted m (2 * m - 1 - row).

Definition even_placement (m : nat) : nat -> Z :=
  if bool_decide (m `mod` 3 = 1)%nat then mirrored_stairs m else stairs m.

(** An odd dimension takes the placement of the even dimension below it
    and adds a queen in the last corner. *)
Definition placement (n : nat) : list Z :=
  if Nat.even n then even_placement (n / 2) <$> seq 0 n
  else (even_placement (n / 2) <$> seq 0 (n - 1)) ++ [Z.of_nat n - 1].

(** ** The conflict-directed mutation *)

(** The genes of [chromosome] that are in conflict, in increasing order:
    the slice [conflicts] of [smartMutation]. *)
Definition conflicted_genes (ga : GA.GeneticSolver) (chromosome : list Z)
  : list nat :=
  filter (fun i => 0 < GA.calculateConflictsForPosition ga chromosome i)
         (seq 0 (GA.n ga)).

(** What the second strategy of [smartMutation] returns for the source
    [r0] that the strategy draw left. *)
Definition moves_a_conflicted_gene (ga : GA.GeneticSolver) (chromosome : list Z)
    (r r0 : Rand.t) : Prop :=
  let conflicts := conflicted_genes ga chromosome in
  let col := conflicts !!! (Rand.Intn (length conflicts) r0).1 in
  let mutated := (GA.smartMutation ga chromosome r).1 in
  (* [col] is a gene in conflict *)
  (col < GA.n ga)%nat
  ∧ 0 < GA.calculateConflictsForPosition ga chromosome col
  (* only this gene can change *)
  ∧ (∃ row : Z, mutated = <[col := row]> chromosome)
  (* and it does not get worse *)
  ∧ GA.calculateConflictsForPosition ga mutated col
    <= GA.calculateConflictsForPosition ga chromosome col.

(** A tape whose strategy draws select the second strategy of
    [smartMutation]. *)
Definition mutation_2_tape : N -> Rand.draw := fun k => Rand.Draw (N.to_nat k) 0.7%float.

(** A population that holds a solution. *)
Definition lucky_population : GA.GeneticSolver :=
  GA.set_population (GA.NewGeneticSolver 4)
    (<[17%nat := GA.Indiv [1; 3; 0; 2] 0]> (GA.population first_population)).

(** ** The swap moves *)

(** The value that call number [k] of [rand.Intn(n)] returns, the calls
    counted from the source [r] on: the strategy draw of a neighbour or
    of a mutation is call 0, so that its position draws start at call
    1. *)
Definition draw_at (n : nat) (r : Rand.t) (k : nat) : nat :=
  (Rand.d_int (Rand.tape r (Rand.cursor r + N.of_nat k)%N) `mod` n)%nat.

(** What strategy 1 of [generateSmartNeighbor] does on the solver [sa]
    and the source [r]: [pos1] is call 1 and the draws of [pos2] are the
    calls from 2 on. *)
Definition swaps_at_first_other_draw (fuel : nat)
    (sa : SA.SimulatedAnnealingSolver) (r : Rand.t) : Prop :=
  let n := SA.n sa in
  let pos1 := draw_at n r 1 in
  (pos1 < n)%nat
  (* when [k] draws of [pos2] repeat [pos1] and the next one differs, the
     loop ends with that draw, and the two queens are exchanged *)
  ∧ (∀ k : nat,
       (∀ i : nat, (i < k)%nat -> draw_at n r (2 + i) = pos1) ->
       draw_at n r (2 + k) ≠ pos1 ->
       let pos2 := draw_at n r (2 + k) in
       (pos2 < n)%nat
       ∧ SA.generateSmartNeighbor fuel sa r
         = (if bool_decide (k <= fuel)%nat
            then Some (exchanged (SA.board sa) pos1 pos2, advance r (3 + k))
            else None)
       ∧ exchanged (SA.board sa) pos1 pos2 ≡ₚ SA.board sa
       ∧ (is_permutation n (SA.board sa) ->
            is_permutation n (exchanged (SA.board sa) pos1 pos2)))
  (* when every draw of [pos2] repeats [pos1], the loop does not end *)
  ∧ ((∀ i : nat, draw_at n r (2 + i) = pos1) ->
       ∀ fuel' : nat, SA.generateSmartNeighbor fuel' sa r = None).

(** A tape whose calls of [rand.Intn] return 1, 1, 1, 3 after a strategy
    draw of 0.25. *)
Definition repeating_tape : N -> Rand.draw :=
  fun k => Rand.Draw ([0; 1; 1; 1; 3]%nat !!! N.to_nat k) 0.25%float.

(** A tape whose call number [k] of [rand.Intn] returns [k], with 0.25
    for every call of [rand.Float64]. *)
Definition counting_tape : N -> Rand.draw :=
  fun k => Rand.Draw (N.to_nat k) 0.25%float.

(** A state whose swap neighbour on [counting_tape] is worse by one
    conflict. *)
Definition uphill_state : SA.run_state :=
  SA.RunState (SA.set_board (SA.NewSimulatedAnnealingSolver 4) [0; 3; 1; 2])
              16%float 1 1 [0; 3; 1; 2] (Rand.Source counting_tape 0).

(** ** The budgets of the solvers *)















(** * Properties *)

(** ** Sums over loops *)

Lemma sumZ_app {A} (f : A -> Z) l1 l2 :
  sumZ f (l1 ++ l2) = sumZ f l1 + sumZ f l2.
Proof. induction l1 as [|x l1 IH]; simpl; lia. Qed.

Lemma sumZ_ext {A} (f g : A -> Z) l :
  (∀ x, x ∈ l -> f x = g x) -> sumZ f l = sumZ g l.
Proof.
  induction l as [|x l IH]; intros Hfg; simpl; [done|].
  rewrite Hfg by left. rewrite IH; [done|]. intros y Hy. apply Hfg. by right.
Qed.

Lemma sumZ_plus {A} (f g : A -> Z) l :
  sumZ (fun x => f x + g x) l = sumZ f l + sumZ g l.
Proof. induction l as [|x l IH]; simpl; lia. Qed.

Lemma sumZ_nonneg {A} (f : A -> Z) l :
  (∀ x, x ∈ l -> 0 <= f x) -> 0 <= sumZ f l.
Proof.
  induction l as [|x l IH]; intros Hf; simpl; [lia|].
  assert (0 <= f x) by (apply Hf; left).
  assert (0 <= sumZ f l) by (apply IH; intros y Hy; apply Hf; by right). lia.
Qed.

Lemma sumZ_zero {A} (f : A -> Z) l :
  (∀ x, x ∈ l -> 0 <= f x) ->
  sumZ f l = 0 <-> ∀ x, x ∈ l -> f x = 0.
Proof.
  induction l as [|x l IH]; intros Hf; simpl.
  - split; [intros _ y Hy; inversion Hy|done].
  - assert (0 <= f x) by (apply Hf; left).
    assert (Hl : ∀ y, y ∈ l -> 0 <= f y) by (intros y Hy; apply Hf; by right).
    pose proof (sumZ_nonneg f l Hl). specialize (IH Hl). split.
    + intros Hs y Hy. apply elem_of_cons in Hy as [->|Hy]; [lia|].
      apply IH; [lia|done].
    + intros Hz. rewrite (Hz x) by left.
      assert (sumZ f l = 0) by (apply IH; intros y Hy; apply Hz; by right). lia.
Qed.

(** A loop that only adds to its counter computes a sum. *)
Lemma foldl_add {A} (g : Z -> A -> Z) (f : A -> Z) l c :
  (∀ c x, x ∈ l -> g c x = c + f x) ->
  foldl g c l = c + sumZ f l.
Proof.
  revert c. induction l as [|x l IH]; intros c Hg; simpl; [lia|].
  rewrite IH by (intros c' y Hy; apply Hg; by right).
  rewrite Hg by left. lia.
Qed.

(** ** The objective function *)

Lemma abs_Zabs x : abs x = Z.abs x.
Proof. unfold abs. destruct (Z.ltb_spec x 0); lia. Qed.

Lemma count_pair_add board i j c :
  count_pair board i j c = c + pair_cost board i j.
Proof.
  unfold pair_cost, count_pair. repeat case_bool_decide; lia.
Qed.

Lemma pair_cost_sym board i j : pair_cost board i j = pair_cost board j i.
Proof.
  unfold pair_cost, count_pair. rewrite !abs_Zabs.
  repeat case_bool_decide; lia.
Qed.

Lemma pair_cost_nonneg board i j : 0 <= pair_cost board i j.
Proof. unfold pair_cost, count_pair. repeat case_bool_decide; lia. Qed.

(** A pair of distinct columns is never counted twice: it cannot share
    both a row and a diagonal. *)
Lemma pair_cost_le_1 board i j : i ≠ j -> pair_cost board i j <= 1.
Proof.
  intros Hij. unfold pair_cost, count_pair. rewrite !abs_Zabs.
  repeat case_bool_decide; lia.
Qed.

Lemma pairwise_scan_sum n board :
  pairwise_scan n board =
  sumZ (fun i => sumZ (pair_cost board i) (seq (S i) (n - S i))) (seq 0 n).
Proof.
  unfold pairwise_scan. rewrite (foldl_add _ (fun i => sumZ (pair_cost board i) (seq (S i) (n - S i)))); [lia|].
  intros c i _. apply foldl_add. intros c' j _. apply count_pair_add.
Qed.

Lemma column_scan_sum n board col :
  column_scan n board col =
  sumZ (fun j => if bool_decide (j ≠ col) then pair_cost board col j else 0)
       (seq 0 n).
Proof.
  unfold column_scan. rewrite (foldl_add _ (fun j => if bool_decide (j ≠ col) then pair_cost board col j else 0)); [lia|].
  intros c j _. case_bool_decide; [apply count_pair_add|lia].
Qed.

(** The three full counters and the two column-scoped counters of the
    sources are the two scans. *)
Lemma greedy_countConflicts_scan g :
  Greedy.countConflicts g = pairwise_scan (Greedy.n g) (Greedy.board g).
Proof. reflexivity. Qed.

Lemma sa_calculateCostForBoard_scan sa board :
  SA.calculateCostForBoard sa board = pairwise_scan (SA.n sa) board.
Proof. reflexivity. Qed.

Lemma ga_calculateFitness_scan ga chromosome :
  GA.calculateFitness ga chromosome = pairwise_scan (GA.n ga) chromosome.
Proof. reflexivity. Qed.

Lemma sa_calculateConflictsForPosition_scan sa board col :
  SA.calculateConflictsForPosition sa board col = column_scan (SA.n sa) board col.
Proof. reflexivity. Qed.

Lemma ga_calculateConflictsForPosition_scan ga board col :
  GA.calculateConflictsForPosition ga board col = column_scan (GA.n ga) board col.
Proof. reflexivity. Qed.

Lemma elem_of_column_pairs n i j :
  (i, j) ∈ column_pairs n <-> (i < j < n)%nat.
Proof.
  unfold column_pairs. rewrite list_elem_of_bind. split.
  - intros (i' & Hj & Hi). apply list_elem_of_bind in Hj as (j' & Hp & Hj).
    apply list_elem_of_singleton in Hp. injection Hp as -> ->.
    apply elem_of_seq in Hi, Hj. lia.
  - intros Hij. exists i. split; [|apply elem_of_seq; lia].
    apply list_elem_of_bind. exists j. split; [by left|apply elem_of_seq; lia].
Qed.

Lemma sumZ_bind {A B} (f : B -> Z) (g : A -> list B) l :
  sumZ f (l ≫= g) = sumZ (fun x => sumZ f (g x)) l.
Proof.
  induction l as [|x l IH]; [done|]. by rewrite bind_cons, sumZ_app, IH.
Qed.

Lemma length_filter_sum {A} (P : A -> Prop) `{!∀ x, Decision (P x)} l :
  Z.of_nat (length (filter P l)) = sumZ (fun x => if decide (P x) then 1 else 0) l.
Proof.
  induction l as [|x l IH]; simpl; [done|].
  rewrite filter_cons. destruct (decide (P x)); simpl; lia.
Qed.

Lemma pairwise_scan_pairs n board :
  pairwise_scan n board = sumZ (fun p => pair_cost board p.1 p.2) (column_pairs n).
Proof.
  rewrite pairwise_scan_sum. unfold column_pairs. rewrite sumZ_bind.
  apply sumZ_ext. intros i _. rewrite sumZ_bind. apply sumZ_ext.
  intros j _. simpl. lia.
Qed.

Lemma pair_cost_indicators board p :
  pair_cost board p.1 p.2 =
  (if decide (same_row board p) then 1 else 0)
  + (if decide (same_diagonal board p) then 1 else 0).
Proof.
  unfold pair_cost, count_pair, same_row, same_diagonal. rewrite !abs_Zabs.
  repeat case_bool_decide; repeat case_decide; lia.
Qed.

Lemma pairwise_scan_count n board :
  pairwise_scan n board
  = count_pairs n (same_row board) + count_pairs n (same_diagonal board).
Proof.
  rewrite pairwise_scan_pairs. unfold count_pairs.
  rewrite !length_filter_sum, <- sumZ_plus. apply sumZ_ext.
  intros p _. apply pair_cost_indicators.
Qed.

Lemma pairwise_scan_nonneg n board : 0 <= pairwise_scan n board.
Proof.
  rewrite pairwise_scan_pairs. apply sumZ_nonneg.
  intros p _. apply pair_cost_nonneg.
Qed.

Lemma pair_cost_zero board i j :
  pair_cost board i j = 0 <->
  board !!! i ≠ board !!! j ∧
  Z.abs (board !!! i - board !!! j) ≠ Z.abs (Z.of_nat i - Z.of_nat j).
Proof.
  unfold pair_cost, count_pair. rewrite !abs_Zabs.
  repeat case_bool_decide; split; intros; try lia; tauto.
Qed.

Lemma pairwise_scan_zero n board :
  pairwise_scan n board = 0 <-> zero_conflict n board.
Proof.
  rewrite pairwise_scan_pairs.
  rewrite sumZ_zero by (intros p _; apply pair_cost_nonneg). split.
  - intros Hz i j Hi Hj Hij.
    destruct (decide (i < j)%nat) as [Hlt|Hge].
    + apply pair_cost_zero. apply (Hz (i, j)). apply elem_of_column_pairs. lia.
    + assert (Hp : pair_cost board j i = 0).
      { apply (Hz (j, i)). apply elem_of_column_pairs. lia. }
      rewrite pair_cost_sym in Hp. by apply pair_cost_zero.
  - intros Hz [i j] Hp. apply elem_of_column_pairs in Hp. simpl.
    apply pair_cost_zero. apply Hz; lia.
Qed.

(** Each column's count, summed over the columns, sees every pair from
    both of its ends. *)
Lemma seq_upper i n : (i < n)%nat ->
  seq (S i) (S n - S i) = seq (S i) (n - S i) ++ [n].
Proof.
  intros Hi. replace (S n - S i)%nat with (S (n - S i)) by lia.
  rewrite seq_S. f_equal. f_equal. lia.
Qed.

Lemma sumZ_singleton {A} (f : A -> Z) x : sumZ f [x] = f x.
Proof. simpl. lia. Qed.

Lemma pairwise_scan_S n board :
  pairwise_scan (S n) board
  = pairwise_scan n board + sumZ (fun i => pair_cost board i n) (seq 0 n).
Proof.
  rewrite !pairwise_scan_sum, seq_S, sumZ_app, sumZ_singleton.
  replace (S n - S (0 + n))%nat with 0%nat by lia.
  rewrite <- sumZ_plus. change (sumZ (pair_cost board (0 + n)) (seq (S (0 + n)) 0)) with 0.
  rewrite Z.add_0_r. apply sumZ_ext.
  intros i Hi. apply elem_of_seq in Hi.
  rewrite seq_upper by lia. by rewrite sumZ_app, sumZ_singleton.
Qed.

Lemma column_scan_S n board col :
  column_scan (S n) board col
  = column_scan n board col
    + (if bool_decide (n ≠ col) then pair_cost board col n else 0).
Proof. by rewrite !column_scan_sum, seq_S, sumZ_app, sumZ_singleton. Qed.

Lemma column_scan_last n board :
  column_scan n board n = sumZ (fun j => pair_cost board n j) (seq 0 n).
Proof.
  rewrite column_scan_sum. apply sumZ_ext. intros j Hj.
  apply elem_of_seq in Hj. rewrite bool_decide_eq_true_2; [done|lia].
Qed.

Lemma column_scan_total n board :
  sumZ (column_scan n board) (seq 0 n) = 2 * pairwise_scan n board.
Proof.
  induction n as [|n IH]; [done|].
  rewrite seq_S, sumZ_app, sumZ_singleton, pairwise_scan_S.
  change (0 + n)%nat with n.
  rewrite column_scan_S, bool_decide_eq_false_2 by lia.
  rewrite column_scan_last.
  rewrite (sumZ_ext (column_scan (S n) board)
             (fun c => column_scan n board c + pair_cost board c n)).
  - rewrite sumZ_plus, IH.
    rewrite (sumZ_ext (pair_cost board n) (fun i => pair_cost board i n))
      by (intros; apply pair_cost_sym). lia.
  - intros c Hc. apply elem_of_seq in Hc.
    rewrite column_scan_S, bool_decide_eq_true_2; [done|lia].
Qed.

(** ** Slices and loops *)

Lemma length_make n : length (make n) = n.
Proof. apply length_replicate. Qed.

Lemma length_copy dst src : length (copy dst src) = length dst.
Proof.
  unfold copy. rewrite length_app, length_take, length_drop. lia.
Qed.

Lemma copy_same_length dst src : length dst = length src -> copy dst src = src.
Proof.
  intros Hl. unfold copy. rewrite take_ge, drop_ge by lia. apply app_nil_r.
Qed.

Lemma copy_make n src : length src = n -> copy (make n) src = src.
Proof. intros Hl. apply copy_same_length. by rewrite length_make. Qed.

(** A loop keeps what its body keeps. *)
Lemma foldl_invariant {A B} (P : A -> Prop) (f : A -> B -> A) l a :
  P a -> (∀ a x, x ∈ l -> P a -> P (f a x)) -> P (foldl f a l).
Proof.
  revert a. induction l as [|x l IH]; intros a Ha Hf; simpl; [done|].
  apply IH; [apply Hf; [by left|done]|]. intros a' y Hy. apply Hf. by right.
Qed.

Lemma foldl_bind {A B C} (f : A -> C -> A) (g : B -> list C) l a :
  foldl f a (l ≫= g) = foldl (fun a x => foldl f a (g x)) a l.
Proof.
  revert a. induction l as [|x l IH]; intros a; [done|].
  by rewrite bind_cons, foldl_app, IH.
Qed.

Lemma foldl_ext_in {A B} (f g : A -> B -> A) l a :
  (∀ a x, x ∈ l -> f a x = g a x) -> foldl f a l = foldl g a l.
Proof.
  revert a. induction l as [|x l IH]; intros a Hfg; simpl; [done|].
  rewrite Hfg by left. apply IH. intros a' y Hy. apply Hfg. by right.
Qed.

Lemma in_range_insert n board i v :
  in_range n board -> 0 <= v < Z.of_nat n -> in_range n (<[i := v]> board).
Proof. intros Hb Hv. by apply Forall_insert. Qed.

Lemma in_range_lookup n board i :
  (0 < n)%nat -> in_range n board -> 0 <= board !!! i < Z.of_nat n.
Proof.
  intros Hn Hb. destruct (decide (i < length board)%nat) as [Hi|Hi].
  - unfold in_range in Hb. rewrite Forall_lookup in Hb.
    apply (Hb i). by apply list_lookup_lookup_total_lt.
  - rewrite list_lookup_total_alt, lookup_ge_None_2 by lia.
    change (0 <= 0 < Z.of_nat n). lia.
Qed.

Lemma in_range_make n : (0 < n)%nat -> in_range n (make n).
Proof. intros Hn. apply Forall_replicate. lia. Qed.

Lemma Intn_lt n r : (0 < n)%nat -> (fst (Rand.Intn n r) < n)%nat.
Proof. intros Hn. unfold Rand.Intn. simpl. apply Nat.mod_upper_bound. lia. Qed.

Lemma Intn_range n r : (0 < n)%nat ->
  0 <= Z.of_nat (fst (Rand.Intn n r)) < Z.of_nat n.
Proof. intros Hn. pose proof (Intn_lt n r Hn). lia. Qed.

(** ** Greedy hill climbing: the sweep and the restart *)

Lemma greedy_set_board_id g : Greedy.set_board g (Greedy.board g) = g.
Proof. by destruct g. Qed.

Lemma greedy_set_board_twice g b1 b2 :
  Greedy.set_board (Greedy.set_board g b1) b2 = Greedy.set_board g b2.
Proof. done. Qed.

Lemma list_insert_restore (b : list Z) col v :
  <[col := b !!! col]> (<[col := v]> b) = b.
Proof.
  rewrite list_insert_insert_eq.
  destruct (decide (col < length b)%nat) as [Hc|Hc].
  - apply list_insert_id. by apply list_lookup_lookup_total_lt.
  - apply list_insert_ge. lia.
Qed.

Lemma elem_of_moves n col newRow :
  (col, newRow) ∈ moves n <-> (col < n)%nat ∧ (newRow < n)%nat.
Proof.
  unfold moves. rewrite list_elem_of_bind. split.
  - intros (c & Hr & Hc). apply list_elem_of_bind in Hr as (w & Hp & Hr).
    apply list_elem_of_singleton in Hp. injection Hp as -> ->.
    apply elem_of_seq in Hc, Hr. lia.
  - intros [Hc Hr]. exists col. split; [|apply elem_of_seq; lia].
    apply list_elem_of_bind. exists newRow. split; [by left|apply elem_of_seq; lia].
Qed.

Lemma foldl_cons_eq {A B} (f : A -> B -> A) a x l :
  foldl f a (x :: l) = foldl f (f a x) l.
Proof. done. Qed.

Lemma try_move_pick g col newRow bestBoard bestConflicts :
  length bestBoard = length (Greedy.board g) ->
  Greedy.try_move col newRow (g, bestBoard, bestConflicts)
  = (g, (pick g (bestBoard, bestConflicts) (col, newRow)).1,
        (pick g (bestBoard, bestConflicts) (col, newRow)).2)
  ∧ length (pick g (bestBoard, bestConflicts) (col, newRow)).1
    = length (Greedy.board g).
Proof.
  intros Hl. unfold Greedy.try_move, pick, move_cost, moved. simpl.
  case_bool_decide as Hrow; [done|].
  rewrite !greedy_set_board_twice. simpl.
  rewrite list_insert_restore, greedy_set_board_id.
  destruct (_ <? _); simpl; [|done].
  rewrite copy_same_length by (by rewrite length_insert).
  by rewrite length_insert.
Qed.

Lemma sweep_moves g l bestBoard bestConflicts :
  length bestBoard = length (Greedy.board g) ->
  foldl (fun s m => Greedy.try_move m.1 m.2 s) (g, bestBoard, bestConflicts) l
  = (g, (foldl (pick g) (bestBoard, bestConflicts) l).1,
        (foldl (pick g) (bestBoard, bestConflicts) l).2)
  ∧ length (foldl (pick g) (bestBoard, bestConflicts) l).1
    = length (Greedy.board g).
Proof.
  revert bestBoard bestConflicts.
  induction l as [|[col newRow] l IH]; intros bb bc Hl; [done|].
  rewrite !foldl_cons_eq. cbn [fst snd].
  destruct (try_move_pick g col newRow bb bc Hl) as [-> Hl'].
  destruct (pick g (bb, bc) (col, newRow)) as [bb' bc'] eqn:Hp.
  by apply IH.
Qed.

Lemma sweep_pick g conflicts :
  length (Greedy.board g) = Greedy.n g ->
  Greedy.sweep g conflicts
  = (g, (foldl (pick g) (Greedy.board g, conflicts) (moves (Greedy.n g))).1,
        (foldl (pick g) (Greedy.board g, conflicts) (moves (Greedy.n g))).2).
Proof.
  intros Hl. unfold Greedy.sweep. rewrite copy_make by done.
  rewrite <- (proj1 (sweep_moves g (moves (Greedy.n g)) _ conflicts eq_refl)).
  unfold moves. rewrite foldl_bind. apply foldl_ext_in. intros s col _.
  rewrite foldl_bind. apply foldl_ext_in. intros s' newRow _. done.
Qed.

(** The running best of the sweep is the least cost seen, and the board
    that goes with it. *)
Lemma pick_best g l bestBoard bestConflicts :
  let best := foldl (pick g) (bestBoard, bestConflicts) l in
  best.2 <= bestConflicts
  ∧ (∀ m, m ∈ l -> proper_move g m -> best.2 <= move_cost g m)
  ∧ (best = (bestBoard, bestConflicts)
     ∨ best.2 < bestConflicts
       ∧ ∃ m, m ∈ l ∧ proper_move g m ∧ best = (moved g m, move_cost g m)).
Proof.
  revert bestBoard bestConflicts.
  induction l as [|m l IH]; intros bb bc.
  { simpl. split; [lia|]. split; [|by left]. intros m Hm. inversion Hm. }
  cbv zeta. rewrite foldl_cons_eq.
  destruct (pick g (bb, bc) m) as [bb' bc'] eqn:Hp.
  destruct (IH bb' bc') as (Hle & Hall & Hwho).
  assert (Hstep : bc' <= bc
            ∧ (proper_move g m -> bc' <= move_cost g m)
            ∧ ((bb', bc') = (bb, bc)
               ∨ bc' < bc ∧ proper_move g m ∧ (bb', bc') = (moved g m, move_cost g m))).
  { unfold pick in Hp. simpl in Hp. unfold proper_move.
    case_bool_decide as Hrow.
    - injection Hp as <- <-. split; [lia|]. split; [done|by left].
    - destruct (Z.ltb_spec (move_cost g m) bc).
      + injection Hp as <- <-. split; [lia|]. split; [lia|]. right. done.
      + injection Hp as <- <-. split; [lia|]. split; [lia|]. by left. }
  destruct Hstep as (Hle' & Hm' & Hwho').
  split; [lia|]. split.
  - intros m' Hin Hproper. apply elem_of_cons in Hin as [->|Hin].
    + specialize (Hm' Hproper). lia.
    + by apply Hall.
  - destruct Hwho as [Heq|(Hlt & m' & Hin & Hproper & Heq)].
    + rewrite Heq. destruct Hwho' as [Heq'|(Hlt' & Hproper' & Heq')].
      * by left.
      * right. split; [done|]. exists m. split; [by left|done].
    + right. split; [lia|]. exists m'. split; [by right|done].
Qed.

Lemma advance_0 r : advance r 0 = r.
Proof. destruct r as [t c]. unfold advance. simpl. f_equal. lia. Qed.

Lemma Intn_advance n r k :
  Rand.Intn n (advance r k)
  = ((Rand.d_int (Rand.tape r (Rand.cursor r + N.of_nat k)%N) `mod` n)%nat,
     advance r (S k)).
Proof.
  unfold Rand.Intn, Rand.next, advance. simpl. do 2 f_equal. lia.
Qed.

Lemma length_fresh_rows n r k : length (fresh_rows n r k) = k.
Proof. unfold fresh_rows. by rewrite length_map, length_seq. Qed.

Lemma fresh_rows_S n r k :
  fresh_rows n r (S k)
  = fresh_rows n r k
    ++ [Z.of_nat (Rand.d_int (Rand.tape r (Rand.cursor r + N.of_nat k)%N) `mod` n)].
Proof. unfold fresh_rows. by rewrite seq_S, map_app. Qed.

Lemma in_range_fresh_rows n r k : (0 < n)%nat -> in_range n (fresh_rows n r k).
Proof.
  intros Hn. unfold in_range, fresh_rows. apply Forall_map, Forall_forall.
  intros i _. simpl.
  pose proof (Nat.mod_upper_bound
    (Rand.d_int (Rand.tape r (Rand.cursor r + N.of_nat i)%N)) n). lia.
Qed.

Lemma randomInit_prefix g r k :
  (k <= length (Greedy.board g))%nat ->
  foldl (fun '(g, r) i =>
           let '(v, r) := Rand.Intn (Greedy.n g) r in
           (Greedy.set_board g (<[i := Z.of_nat v]> (Greedy.board g)), r))
        (g, r) (seq 0 k)
  = (Greedy.set_board g (fresh_rows (Greedy.n g) r k ++ drop k (Greedy.board g)),
     advance r k).
Proof.
  induction k as [|k IH]; intros Hk.
  - simpl. by rewrite drop_0, greedy_set_board_id, advance_0.
  - rewrite seq_S, foldl_app, IH by lia. cbn [foldl Greedy.n Greedy.set_board].
    rewrite Intn_advance. f_equal. rewrite greedy_set_board_twice. f_equal.
    rewrite fresh_rows_S, <- app_assoc.
    destruct (lookup_lt_is_Some_2 (Greedy.board g) k) as [x Hx]; [lia|].
    rewrite (drop_S _ x k Hx).
    cbn [Greedy.board Greedy.set_board Nat.add].
    rewrite insert_app_r_alt by (rewrite length_fresh_rows; lia).
    rewrite length_fresh_rows, Nat.sub_diag. done.
Qed.

(** [randomInit] overwrites every column with a fresh draw. *)
Lemma randomInit_fresh g r :
  length (Greedy.board g) = Greedy.n g ->
  Greedy.randomInit g r
  = (Greedy.set_board g (fresh_rows (Greedy.n g) r (Greedy.n g)),
     advance r (Greedy.n g)).
Proof.
  intros Hl. unfold Greedy.randomInit. rewrite randomInit_prefix by lia.
  by rewrite drop_ge, app_nil_r by lia.
Qed.

(** One pass of the main loop: commit the best move of the sweep when it
    has strictly fewer conflicts, restart at random otherwise. *)
Lemma iteration_best g r :
  length (Greedy.board g) = Greedy.n g ->
  let best :=
    foldl (pick g) (Greedy.board g, Greedy.countConflicts g) (moves (Greedy.n g)) in
  Greedy.iteration g r
  = if bool_decide (best.2 < Greedy.countConflicts g)
    then (Greedy.set_board g best.1, r) else Greedy.randomInit g r.
Proof.
  intros Hl best. unfold Greedy.iteration. rewrite sweep_pick by done.
  fold best. unfold Greedy.commit_or_restart.
  destruct (sweep_moves g (moves (Greedy.n g)) (Greedy.board g)
              (Greedy.countConflicts g) eq_refl) as [_ Hlen]. fold best in Hlen.
  rewrite Z.geb_leb. case_bool_decide as Hlt.
  - rewrite (proj2 (Z.leb_gt _ _)) by lia.
    rewrite copy_same_length by lia. done.
  - by rewrite (proj2 (Z.leb_le _ _)) by lia.
Qed.

Lemma main_loop_false k g r :
  (Greedy.main_loop k g r).1.1 = false
  <-> ∀ j, (j < k)%nat -> Greedy.countConflicts (trajectory j g r).1 ≠ 0.
Proof.
  revert g r. induction k as [|k IH]; intros g r.
  - split; [intros _ j Hj; lia|done].
  - cbn [Greedy.main_loop]. destruct (Z.eqb_spec (Greedy.countConflicts g) 0) as [Hz|Hz].
    + split; [done|]. intros Hall. exfalso. by apply (Hall 0%nat); [lia|].
    + destruct (Greedy.iteration g r) as [g' r'] eqn:Hit. rewrite IH. split.
      * intros Hall [|j] Hj; [done|]. cbn [trajectory]. rewrite Hit.
        apply Hall. lia.
      * intros Hall j Hj. specialize (Hall (S j)). cbn [trajectory] in Hall.
        rewrite Hit in Hall. apply Hall. lia.
Qed.

Lemma main_loop_true k g r :
  (Greedy.main_loop k g r).1.1 = true ->
  ∃ j, (j < k)%nat
    ∧ Greedy.countConflicts (trajectory j g r).1 = 0
    ∧ Greedy.main_loop k g r
      = (true, Greedy.found (trajectory j g r).1, (trajectory j g r).2).
Proof.
  revert g r. induction k as [|k IH]; intros g r; [done|].
  cbn [Greedy.main_loop]. destruct (Z.eqb_spec (Greedy.countConflicts g) 0) as [Hz|Hz].
  - intros _. exists 0%nat. split; [lia|]. done.
  - destruct (Greedy.iteration g r) as [g' r'] eqn:Hit. intros Ht.
    destruct (IH g' r' Ht) as (j & Hj & Hzero & Heq).
    exists (S j). cbn [trajectory]. rewrite Hit. split; [lia|done].
Qed.

Lemma greedy_inv_randomInit n g r :
  (0 < n)%nat -> greedy_inv n g -> greedy_inv n (Greedy.randomInit g r).1.
Proof.
  intros Hn (Hg & Hl & Hr). rewrite randomInit_fresh by lia. rewrite Hg.
  split; [done|]. split; [apply length_fresh_rows|by apply in_range_fresh_rows].
Qed.

Lemma greedy_inv_iteration n g r :
  (0 < n)%nat -> greedy_inv n g -> greedy_inv n (Greedy.iteration g r).1.
Proof.
  intros Hn Hinv. pose proof Hinv as (Hg & Hl & Hr).
  rewrite iteration_best by lia. cbv zeta.
  case_bool_decide as Hlt; [|by apply greedy_inv_randomInit].
  destruct (pick_best g (moves (Greedy.n g)) (Greedy.board g) (Greedy.countConflicts g))
    as (_ & _ & [Heq|(_ & [col row] & Hin & _ & Heq)]).
  - rewrite Heq in Hlt. simpl in Hlt. lia.
  - rewrite Heq. apply elem_of_moves in Hin. unfold greedy_inv, moved.
    cbn [fst snd Greedy.set_board Greedy.board Greedy.n]. split; [done|].
    split; [by rewrite length_insert|]. apply in_range_insert; [done|lia].
Qed.

Lemma greedy_inv_trajectory n j g r :
  (0 < n)%nat -> greedy_inv n g -> greedy_inv n (trajectory j g r).1.
Proof.
  intros Hn. revert g r. induction j as [|j IH]; intros g r Hinv; [done|].
  cbn [trajectory]. pose proof (greedy_inv_iteration n g r Hn Hinv) as Hit.
  destruct (Greedy.iteration g r) as [g' r']. by apply IH.
Qed.

Lemma greedy_inv_new n r :
  (0 < n)%nat -> greedy_inv n (Greedy.randomInit (Greedy.NewGreedySolver n) r).1.
Proof.
  intros Hn. apply greedy_inv_randomInit; [done|].
  split; [done|]. split; [apply length_make|by apply in_range_make].
Qed.

(** ** Boards of dimension 2 and 3 *)

Lemma in_range_cases_2 v : 0 <= v < Z.of_nat 2 -> v = 0 ∨ v = 1.
Proof. lia. Qed.

Lemma in_range_cases_3 v : 0 <= v < Z.of_nat 3 -> v = 0 ∨ v = 1 ∨ v = 2.
Proof. lia. Qed.

(** No board of dimension 2 or 3 is free of conflicts. *)
Lemma conflicts_2_3 n board :
  n = 2%nat ∨ n = 3%nat -> length board = n -> in_range n board ->
  pairwise_scan n board ≠ 0.
Proof.
  intros [-> | ->] Hl Hr.
  - destruct board as [|a [|b [|? ?]]]; try discriminate Hl.
    apply Forall_cons in Hr as [Ha Hr]. apply Forall_cons in Hr as [Hb _].
    destruct (in_range_cases_2 a Ha) as [-> | ->];
      destruct (in_range_cases_2 b Hb) as [-> | ->]; by vm_compute.
  - destruct board as [|a [|b [|c [|? ?]]]]; try discriminate Hl.
    apply Forall_cons in Hr as [Ha Hr]. apply Forall_cons in Hr as [Hb Hr].
    apply Forall_cons in Hr as [Hc _].
    destruct (in_range_cases_3 a Ha) as [-> | [-> | ->]];
      destruct (in_range_cases_3 b Hb) as [-> | [-> | ->]];
      destruct (in_range_cases_3 c Hc) as [-> | [-> | ->]]; by vm_compute.
Qed.

(** ** Greedy hill climbing: the results of [Solve] *)

Lemma greedy_Solve_unfold n r :
  Greedy.Solve (Greedy.NewGreedySolver n) r
  = Greedy.main_loop (Z.to_nat 10000)
      (Greedy.randomInit (Greedy.NewGreedySolver n) r).1
      (Greedy.randomInit (Greedy.NewGreedySolver n) r).2.
Proof.
  unfold Greedy.Solve.
  pose proof (randomInit_fresh (Greedy.NewGreedySolver n) r (length_make n)) as H.
  rewrite H. done.
Qed.

Lemma greedy_solved n r g' r' :
  (0 < n)%nat ->
  Greedy.Solve (Greedy.NewGreedySolver n) r = (true, g', r') ->
  Greedy.n g' = n ∧ Greedy.solved g' = true
  ∧ (length (Greedy.solution g') = n ∧ in_range n (Greedy.solution g'))
  ∧ pairwise_scan n (Greedy.solution g') = 0.
Proof.
  intros Hn. rewrite greedy_Solve_unfold. intros Hs.
  destruct (main_loop_true (Z.to_nat 10000) _ _ (f_equal (fun x => x.1.1) Hs))
    as (j & _ & Hzero & Heq).
  rewrite Heq in Hs. injection Hs as <- <-.
  pose proof (greedy_inv_trajectory n j _
    (Greedy.randomInit (Greedy.NewGreedySolver n) r).2 Hn (greedy_inv_new n r Hn))
    as (Hg & Hl & Hr).
  unfold Greedy.found. cbn [Greedy.solution Greedy.n Greedy.solved].
  rewrite Hg, copy_make by done. split; [done|]. split; [done|]. split; [done|].
  rewrite greedy_countConflicts_scan in Hzero. by rewrite Hg in Hzero.
Qed.

Lemma greedy_fails_2_3 n r :
  n = 2%nat ∨ n = 3%nat ->
  (Greedy.Solve (Greedy.NewGreedySolver n) r).1.1 = false.
Proof.
  intros Hn. rewrite greedy_Solve_unfold. apply main_loop_false. intros j _.
  assert (0 < n)%nat as Hpos by lia.
  pose proof (greedy_inv_trajectory n j _
    (Greedy.randomInit (Greedy.NewGreedySolver n) r).2 Hpos (greedy_inv_new n r Hpos))
    as (Hg & Hl & Hr).
  rewrite greedy_countConflicts_scan, Hg. by apply conflicts_2_3.
Qed.


(** ** The random source: range and tape *)

Lemma Intn_tape n r v r' :
  Rand.Intn n r = (v, r') -> Rand.tape r' = Rand.tape r.
Proof. by intros [= _ <-]. Qed.

Lemma Float64_tape r u r' :
  Rand.Float64 r = (u, r') -> Rand.tape r' = Rand.tape r.
Proof. by intros [= _ <-]. Qed.

Lemma board_ok_insert n board i v :
  board_ok n board -> 0 <= v < Z.of_nat n -> board_ok n (<[i := v]> board).
Proof.
  intros [Hl Hr] Hv. split; [by rewrite length_insert|by apply in_range_insert].
Qed.

Lemma board_ok_swap n board i j :
  (0 < n)%nat -> board_ok n board ->
  board_ok n (<[j := board !!! i]> (<[i := board !!! j]> board)).
Proof.
  intros Hn Hb. pose proof Hb as [_ Hr].
  apply board_ok_insert; [apply board_ok_insert; [done|]|]; by apply in_range_lookup.
Qed.

Lemma board_ok_make n : (0 < n)%nat -> board_ok n (make n).
Proof. intros Hn. split; [apply length_make|by apply in_range_make]. Qed.

Lemma Perm_ok n r :
  (0 < n)%nat ->
  board_ok n (Rand.Perm n r).1 ∧ Rand.tape (Rand.Perm n r).2 = Rand.tape r.
Proof.
  intros Hn. unfold Rand.Perm.
  apply (foldl_invariant
           (fun s : list Z * Rand.t => board_ok n s.1 ∧ Rand.tape s.2 = Rand.tape r)).
  - split; [by apply board_ok_make|done].
  - intros [m r'] i Hi [Hm Ht]. apply elem_of_seq in Hi.
    destruct (Rand.Intn (S i) r') as [j r''] eqn:Hj. cbn [fst snd] in *.
    split.
    + apply board_ok_insert; [apply board_ok_insert; [done|]|lia].
      apply in_range_lookup; [done|apply Hm].
    + apply Intn_tape in Hj. congruence.
Qed.

(** ** Simulated annealing: what a run keeps *)

Lemma sa_calculateConflictsForPosition_bounds sa board col :
  0 <= SA.calculateConflictsForPosition sa board col.
Proof.
  rewrite sa_calculateConflictsForPosition_scan, column_scan_sum.
  apply sumZ_nonneg. intros j _. case_bool_decide; [apply pair_cost_nonneg|lia].
Qed.

Lemma scan_rows_range sa neighbor col bestRow minConflicts :
  0 <= bestRow < Z.of_nat (SA.n sa) ->
  0 <= (SA.scan_rows sa neighbor col bestRow minConflicts).1 < Z.of_nat (SA.n sa).
Proof.
  intros Hb. unfold SA.scan_rows.
  apply (foldl_invariant (fun s : Z * Z => 0 <= s.1 < Z.of_nat (SA.n sa))); [done|].
  intros [br mc] row Hrow Hbr. apply elem_of_seq in Hrow. cbn [fst] in *.
  case_bool_decide; [|done]. destruct (_ <? _); cbn [fst]; lia.
Qed.

Lemma redraw_tape fuel n pos1 pos2 r pos2' r' :
  SA.redraw fuel n pos1 pos2 r = Some (pos2', r') -> Rand.tape r' = Rand.tape r.
Proof.
  revert pos2 r. induction fuel as [|fuel IH]; intros pos2 r; cbn [SA.redraw].
  - case_bool_decide; [done|]. by intros [= _ <-].
  - case_bool_decide; [|by intros [= _ <-]].
    destruct (Rand.Intn n r) as [p r1] eqn:Hp. intros Hr.
    apply IH in Hr. apply Intn_tape in Hp. congruence.
Qed.

Lemma generateSmartNeighbor_ok n fuel sa r neighbor r' :
  (0 < n)%nat -> sa_ok n sa ->
  SA.generateSmartNeighbor fuel sa r = Some (neighbor, r') ->
  board_ok n neighbor ∧ Rand.tape r' = Rand.tape r.
Proof.
  intros Hn [Hsa Hb]. unfold SA.generateSmartNeighbor.
  rewrite Hsa, copy_make by apply Hb.
  destruct (Rand.Float64 r) as [strategy r0] eqn:Hf.
  pose proof (Float64_tape _ _ _ Hf) as Ht0.
  destruct (strategy <? 0.6)%float; [|destruct (strategy <? 0.8)%float].
  - unfold SA.swap_two. rewrite Hsa.
    destruct (Rand.Intn n r0) as [pos1 r1] eqn:H1.
    destruct (Rand.Intn n r1) as [pos2 r2] eqn:H2.
    destruct (SA.redraw fuel n pos1 pos2 r2) as [[pos2' r3]|] eqn:H3; [|done].
    intros [= <- <-]. split; [by apply board_ok_swap|].
    apply redraw_tape in H3. apply Intn_tape in H1, H2. congruence.
  - unfold SA.move_conflicted. case_bool_decide.
    + rewrite Hsa.
      destruct (Rand.Intn (length (SA.findConflictedQueens sa)) r0) as [k r1] eqn:H1.
      destruct (Rand.Intn n r1) as [bestRow r2] eqn:H2.
      destruct (SA.scan_rows sa (SA.board sa) (SA.findConflictedQueens sa !!! k)
                  (Z.of_nat bestRow) (Z.of_nat n * Z.of_nat n)) as [br mc] eqn:Hs.
      intros [= <- <-]. split.
      * apply board_ok_insert; [done|].
        pose proof (scan_rows_range sa (SA.board sa) (SA.findConflictedQueens sa !!! k)
                      (Z.of_nat bestRow) (Z.of_nat n * Z.of_nat n)) as Hrange.
        rewrite Hs, Hsa in Hrange. apply Hrange.
        pose proof (Intn_lt n r1 Hn) as Hlt. rewrite H2 in Hlt. simpl in Hlt. lia.
      * apply Intn_tape in H1, H2. congruence.
    + by intros [= <- <-].
  - unfold SA.improve_random. rewrite Hsa.
    destruct (Rand.Intn n r0) as [col r1] eqn:H1.
    destruct (SA.scan_rows sa (SA.board sa) col (SA.board sa !!! col)
                (SA.calculateConflictsForPosition sa (SA.board sa) col))
      as [br mc] eqn:Hs.
    intros [= <- <-]. split.
    + apply board_ok_insert; [done|].
      pose proof (scan_rows_range sa (SA.board sa) col (SA.board sa !!! col)
                    (SA.calculateConflictsForPosition sa (SA.board sa) col)) as Hrange.
      rewrite Hs, Hsa in Hrange. apply Hrange.
      apply in_range_lookup; [done|apply Hb].
    + apply Intn_tape in H1. congruence.
Qed.

Lemma accepts_tape Exp sa deltaCost temperature r ok r' :
  SA.accepts Exp sa deltaCost temperature r = (ok, r') ->
  Rand.tape r' = Rand.tape r.
Proof.
  unfold SA.accepts. destruct (deltaCost <=? 0); [by intros [= _ <-]|].
  destruct (Rand.Float64 r) as [u r1] eqn:Hu. intros [= _ <-].
  by apply Float64_tape in Hu.
Qed.

Lemma accept_or_reject_ok Exp n s neighbor :
  run_ok n s -> board_ok n neighbor ->
  let s' := SA.accept_or_reject Exp s neighbor (pairwise_scan n neighbor) in
  run_ok n s' ∧ Rand.tape (SA.source s') = Rand.tape (SA.source s).
Proof.
  intros ([Hn Hb] & Hbb & Hc & Hbc) Hnb. unfold SA.accept_or_reject.
  destruct (SA.accepts Exp (SA.solver s) _ (SA.temperature s) (SA.source s))
    as [ok r] eqn:Hacc.
  apply accepts_tape in Hacc.
  assert (Hcopy : copy (SA.board (SA.solver s)) neighbor = neighbor).
  { apply copy_same_length. destruct Hb, Hnb. congruence. }
  destruct ok; [destruct (_ <? _)|]; cbv zeta; unfold run_ok, sa_ok;
    cbn [SA.solver SA.bestBoard SA.currentCost SA.bestCost SA.source
         SA.set_board SA.board SA.n]; rewrite ?Hcopy.
  - rewrite copy_same_length by (destruct Hbb, Hnb; congruence). done.
  - done.
  - done.
Qed.

Lemma cool_ok n iter s :
  run_ok n s ->
  run_ok n (SA.cool iter s) ∧ SA.source (SA.cool iter s) = SA.source s.
Proof.
  intros ([Hn Hb] & Hbb & Hc & Hbc). unfold SA.cool.
  destruct (_ && _); unfold run_ok, sa_ok;
    cbn [SA.solver SA.bestBoard SA.currentCost SA.bestCost SA.source
         SA.set_board SA.board SA.n]; [|done].
  rewrite copy_same_length by (destruct Hb, Hbb; congruence). done.
Qed.

Lemma sa_found_stores n sa b :
  sa_ok n sa -> board_ok n b -> pairwise_scan n b = 0 ->
  stores_solution n (SA.found sa b).
Proof.
  intros Hsa Hb Hz. unfold stores_solution, SA.found. split; [exact Hsa|].
  cbn [SA.solution SA.solved]. rewrite (proj1 Hsa), copy_make by apply Hb. done.
Qed.

Lemma anneal_ok Exp n fuel k iter s :
  (0 < n)%nat -> run_ok n s ->
  match SA.anneal Exp fuel k iter s with
  | None => True
  | Some (SA.Returned sa r) =>
      stores_solution n sa ∧ Rand.tape r = Rand.tape (SA.source s)
  | Some (SA.Exhausted s') =>
      run_ok n s' ∧ Rand.tape (SA.source s') = Rand.tape (SA.source s)
  end.
Proof.
  intros Hn. revert iter s. induction k as [|k IH]; intros iter s Hs.
  { done. }
  cbn [SA.anneal]. destruct (negb _); [done|].
  destruct (Z.eqb_spec (SA.currentCost s) 0) as [Hz|Hz].
  { split; [|done]. destruct Hs as (Hsa & _ & Hc & _).
    apply sa_found_stores; [done|apply Hsa|congruence]. }
  destruct (SA.generateSmartNeighbor fuel (SA.solver s) (SA.source s))
    as [[neighbor r]|] eqn:Hg; [|done].
  destruct (generateSmartNeighbor_ok n _ _ _ _ _ Hn (proj1 Hs) Hg) as [Hnb Ht].
  set (s1 := SA.RunState (SA.solver s) (SA.temperature s) (SA.currentCost s)
               (SA.bestCost s) (SA.bestBoard s) r).
  assert (Hs1 : run_ok n s1) by exact Hs.
  rewrite sa_calculateCostForBoard_scan, (proj1 (proj1 Hs)).
  destruct (accept_or_reject_ok Exp n s1 neighbor Hs1 Hnb) as [Hs2 Ht2].
  set (s2 := SA.accept_or_reject Exp s1 neighbor (pairwise_scan n neighbor)) in *.
  destruct (cool_ok n iter s2 Hs2) as [Hs3 Ht3].
  specialize (IH (iter + 1) (SA.cool iter s2) Hs3).
  destruct (SA.anneal Exp fuel k (iter + 1) (SA.cool iter s2)) as [[sa r'|s']|];
    [| |done].
  - destruct IH as [Hsol Ht4]. split; [done|].
    rewrite Ht4, Ht3, Ht2. exact Ht.
  - destruct IH as [Hok Ht4]. split; [done|].
    rewrite Ht4, Ht3, Ht2. exact Ht.
Qed.

Lemma smartInit_ok n sa r :
  (0 < n)%nat -> SA.n sa = n -> length (SA.board sa) = n ->
  sa_ok n (SA.smartInit sa r).1
  ∧ Rand.tape (SA.smartInit sa r).2 = Rand.tape r.
Proof.
  intros Hn Hsa Hl. unfold SA.smartInit. rewrite Hsa.
  destruct (Perm_ok n r Hn) as [[Hpl Hpr] Ht].
  destruct (Rand.Perm n r) as [perm r']. cbn [fst snd] in *.
  split; [|done]. split; [done|]. cbn [SA.set_board SA.board].
  rewrite copy_same_length by congruence. done.
Qed.

Lemma singleRun_ok Exp n fuel sa r res :
  (0 < n)%nat -> SA.n sa = n -> length (SA.board sa) = n ->
  SA.singleRun Exp fuel sa r = Some res ->
  run_result_ok n res ∧ Rand.tape res.2 = Rand.tape r.
Proof.
  intros Hn Hsa Hl. unfold SA.singleRun.
  destruct (smartInit_ok n sa r Hn Hsa Hl) as [Hok Ht].
  destruct (SA.smartInit sa r) as [sa0 r0]. cbn [fst snd] in *.
  set (start := SA.RunState sa0 _ _ _ _ r0).
  assert (Hstart : run_ok n start).
  { destruct Hok as [Hn0 Hb0]. unfold run_ok, start, SA.calculateCost.
    cbn [SA.solver SA.bestBoard SA.currentCost SA.bestCost].
    rewrite sa_calculateCostForBoard_scan, Hn0, copy_make by apply Hb0. done. }
  pose proof (anneal_ok Exp n fuel (Z.to_nat (SA.maxIterations sa0)) 0 start Hn Hstart)
    as Han.
  destruct (SA.anneal Exp fuel _ 0 start) as [[sa1 r1|s1]|]; [| |done].
  - intros [= <-]. destruct Han as [Hsol Ht1]. cbn [fst snd].
    unfold start in Ht1. cbn [SA.source] in Ht1.
    split; [|congruence]. pose proof Hsol as ([Hn1 [Hl1 _]] & _).
    split; [done|]. split; [done|]. by intros _.
  - destruct Han as [Hs1 Ht1]. pose proof Hs1 as ([Hn1 Hb1] & Hbb & _ & Hbc).
    unfold start in Ht1. cbn [SA.source] in Ht1.
    assert (Hset : sa_ok n (SA.set_board (SA.solver s1)
                     (copy (SA.board (SA.solver s1)) (SA.bestBoard s1)))).
    { split; [done|]. cbn [SA.set_board SA.board].
      rewrite copy_same_length by (destruct Hb1, Hbb; congruence). done. }
    destruct (Z.eqb_spec (SA.bestCost s1) 0) as [Hz|Hz]; intros [= <-].
    + cbn [fst snd]. split; [|congruence].
      assert (Hst : stores_solution n (SA.found (SA.set_board (SA.solver s1)
                     (copy (SA.board (SA.solver s1)) (SA.bestBoard s1)))
                     (SA.bestBoard s1))).
      { apply sa_found_stores; [done..|congruence]. }
      pose proof Hst as ([Hn2 [Hl2 _]] & _). done.
    + cbn [fst snd]. split; [|congruence].
      destruct Hset as [Hn2 [Hl2 _]]. done.
Qed.

Lemma restart_loop_ok Exp n fuel k sa r res :
  (0 < n)%nat -> SA.n sa = n -> length (SA.board sa) = n ->
  SA.restart_loop Exp fuel k sa r = Some res ->
  run_result_ok n res ∧ Rand.tape res.2 = Rand.tape r.
Proof.
  intros Hn. revert sa r. induction k as [|k IH]; intros sa r Hsa Hl.
  { intros [= <-]. done. }
  cbn [SA.restart_loop].
  destruct (SA.singleRun Exp fuel sa r) as [[[ok sa1] r1]|] eqn:Hrun; [|done].
  destruct (singleRun_ok Exp n fuel sa r _ Hn Hsa Hl Hrun) as [(Hn1 & Hl1 & Hsol) Ht1].
  cbn [fst snd] in *. destruct ok.
  - intros [= <-]. done.
  - intros Hres. destruct (IH sa1 r1 Hn1 Hl1 Hres) as [Hok Ht]. split; [done|].
    congruence.
Qed.

Lemma sa_solved Exp n fuel r sa' r' :
  (0 < n)%nat ->
  SA.Solve Exp fuel (SA.NewSimulatedAnnealingSolver n) r = Some (true, sa', r') ->
  stores_solution n sa'.
Proof.
  intros Hn Hs. unfold SA.Solve in Hs.
  destruct (restart_loop_ok Exp n fuel _ (SA.NewSimulatedAnnealingSolver n) r _
              Hn eq_refl (length_make n) Hs)
    as [(_ & _ & Hsol) _].
  by apply Hsol.
Qed.


(** ** Simulated annealing: termination *)

Lemma redraw_differs fuel n pos1 pos2 r :
  pos1 ≠ pos2 -> SA.redraw fuel n pos1 pos2 r = Some (pos2, r).
Proof. intros Hne. destruct fuel; cbn [SA.redraw]; by rewrite bool_decide_eq_false_2. Qed.











(** ** Genetic algorithm: what the operators keep *)

(** A loop over [lo, lo + cnt) that establishes [Inv (S i)] from [Inv i]
    at every index. *)
Lemma foldl_seq_invariant {S} (Inv : nat -> S -> Prop) (f : S -> nat -> S)
    lo cnt s :
  Inv lo s ->
  (∀ i s, (lo <= i < lo + cnt)%nat -> Inv i s -> Inv (Datatypes.S i) (f s i)) ->
  Inv (lo + cnt)%nat (foldl f s (seq lo cnt)).
Proof.
  intros H0 Hstep. induction cnt as [|cnt IH].
  { by rewrite Nat.add_0_r. }
  rewrite seq_S, foldl_app. cbn [foldl].
  replace (lo + Datatypes.S cnt)%nat with (Datatypes.S (lo + cnt)) by lia.
  apply Hstep; [lia|]. apply IH. intros i s' Hi. apply Hstep. lia.
Qed.

(** Writing a good element at index [i] extends a good prefix. *)
Lemma Forall_take_insert {A} (P : A -> Prop) (l : list A) i x :
  (i < length l)%nat -> Forall P (take i l) -> P x ->
  Forall P (take (S i) (<[i := x]> l)).
Proof.
  intros Hi Hl Hx.
  rewrite (take_S_r _ i x) by (by apply list_lookup_insert_eq).
  rewrite take_insert_ge by lia. apply Forall_app. by split; [|apply Forall_singleton].
Qed.

Lemma copy_segment_ok n parent1 start end_ child :
  (0 < n)%nat -> in_range n parent1 -> board_ok n child ->
  board_ok n (GA.copy_segment parent1 start end_ child).1.
Proof.
  intros Hn Hp Hc. unfold GA.copy_segment.
  apply (foldl_invariant (fun s : list Z * gset Z => board_ok n s.1)); [done|].
  intros [c u] i _ Hcu. cbn [fst] in *.
  apply board_ok_insert; [done|by apply in_range_lookup].
Qed.

Lemma fill_rest_ok n parent2 end_ used child :
  (0 < n)%nat -> in_range n parent2 -> board_ok n child ->
  board_ok n (GA.fill_rest n parent2 end_ used child).1.
Proof.
  intros Hn Hp Hc. unfold GA.fill_rest.
  apply (foldl_invariant (fun s : list Z * nat => board_ok n s.1)); [done|].
  intros [c k] i _ Hck. cbn [fst] in *. case_bool_decide; [|done]. cbn [fst].
  apply board_ok_insert; [done|by apply in_range_lookup].
Qed.

Lemma cross_at_ok n parent1 parent2 start end_ :
  (0 < n)%nat -> in_range n parent1 -> in_range n parent2 ->
  board_ok n (GA.cross_at n parent1 parent2 start end_).
Proof.
  intros Hn H1 H2. unfold GA.cross_at.
  pose proof (copy_segment_ok n parent1 start end_ (make n) Hn H1 (board_ok_make n Hn))
    as Hseg.
  destruct (GA.copy_segment parent1 start end_ (make n)) as [child used].
  pose proof (fill_rest_ok n parent2 end_ used child Hn H2 Hseg) as Hfill.
  by destruct (GA.fill_rest n parent2 end_ used child) as [child' k].
Qed.

Lemma orderCrossover_ok n ga parent1 parent2 r :
  (0 < n)%nat -> GA.n ga = n -> in_range n parent1 -> in_range n parent2 ->
  board_ok n (GA.orderCrossover ga parent1 parent2 r).1.
Proof.
  intros Hn Hga H1 H2. unfold GA.orderCrossover. rewrite Hga.
  destruct (GA.cut_points n r) as [[start end_] r']. by apply cross_at_ok.
Qed.

Lemma random_gene_ok n ga chromosome r :
  (0 < n)%nat -> GA.n ga = n -> board_ok n chromosome ->
  board_ok n (GA.random_gene ga chromosome r).1.
Proof.
  intros Hn Hga Hc. unfold GA.random_gene. rewrite Hga.
  destruct (Rand.Intn n r) as [pos r1].
  pose proof (Intn_range n r1 Hn) as Hv.
  destruct (Rand.Intn n r1) as [v r2]. by apply board_ok_insert.
Qed.

Lemma try_rows_ok n ga col chromosome bestRow minConflicts r :
  (0 < n)%nat -> GA.n ga = n -> board_ok n chromosome ->
  0 <= bestRow < Z.of_nat n ->
  let res := GA.try_rows ga col chromosome bestRow minConflicts r in
  board_ok n res.1.1.1 ∧ 0 <= res.1.1.2 < Z.of_nat n.
Proof.
  intros Hn Hga Hc Hb. unfold GA.try_rows.
  apply (foldl_invariant
           (fun s : list Z * Z * Z * Rand.t =>
              board_ok n s.1.1.1 ∧ 0 <= s.1.1.2 < Z.of_nat n)); [done|].
  intros [[[c br] mc] r'] k _ [Hck Hbr]. cbn [fst snd] in *. rewrite Hga.
  pose proof (Intn_range n r' Hn) as Hv.
  destruct (Rand.Intn n r') as [testRow r1]. cbn [fst] in Hv.
  case_bool_decide; [|done].
  destruct (_ <? _); cbn [fst snd]; (split; [|lia]).
  - apply board_ok_insert; [by apply board_ok_insert|].
    apply in_range_lookup; [done|apply Hck].
  - apply board_ok_insert; [by apply board_ok_insert|].
    apply in_range_lookup; [done|apply Hck].
Qed.

Lemma smartMutation_ok n ga chromosome r :
  (0 < n)%nat -> GA.n ga = n -> board_ok n chromosome ->
  board_ok n (GA.smartMutation ga chromosome r).1.
Proof.
  intros Hn Hga Hc. unfold GA.smartMutation.
  destruct (Rand.Float64 r) as [strategy r0].
  destruct (strategy <? 0.5)%float; [|destruct (strategy <? 0.8)%float].
  - destruct (Rand.Intn (GA.n ga) r0) as [pos1 r1].
    destruct (Rand.Intn (GA.n ga) r1) as [pos2 r2]. by apply board_ok_swap.
  - case_bool_decide; [|by apply random_gene_ok].
    match goal with |- context [Rand.Intn (length ?l) r0] => set (conflicts := l) end.
    destruct (Rand.Intn (length conflicts) r0) as [k r1].
    pose proof (try_rows_ok n ga (conflicts !!! k) chromosome
                  (chromosome !!! (conflicts !!! k))
                  (GA.calculateConflictsForPosition ga chromosome (conflicts !!! k))
                  r1 Hn Hga Hc) as Htry.
    cbv zeta in Htry.
    destruct (GA.try_rows ga _ chromosome _ _ r1) as [[[c br] mc] r2].
    cbn [fst snd] in *.
    destruct Htry as [Hc' Hbr]; [apply in_range_lookup; [done|apply Hc]|].
    by apply board_ok_insert.
  - by apply random_gene_ok.
Qed.

Lemma tournamentSelection_in n ga r :
  ga_shape n ga -> (GA.tournamentSelection ga r).1 ∈ GA.population ga.
Proof.
  intros (Hn & Hsize & Hlen). unfold GA.tournamentSelection.
  assert (Hpick : ∀ r', GA.population ga !!! (Rand.Intn (GA.populationSize ga) r').1
                        ∈ GA.population ga).
  { intros r'. apply list_elem_of_lookup_total_2. rewrite Hlen.
    apply Intn_lt. lia. }
  pose proof (Hpick r) as H0.
  destruct (Rand.Intn (GA.populationSize ga) r) as [k r0]. cbn [fst] in H0.
  apply (foldl_invariant (fun s : GA.Individual * Rand.t => s.1 ∈ GA.population ga));
    [done|].
  intros [best r'] i _ Hbest. cbn [fst] in *.
  specialize (Hpick r').
  destruct (Rand.Intn (GA.populationSize ga) r') as [k' r1]. cbn [fst] in Hpick.
  by destruct (_ <? _).
Qed.

Lemma tournamentSelection_ok n ga r :
  ga_ok n ga -> indiv_ok n (GA.tournamentSelection ga r).1.
Proof.
  intros [Hshape Hall]. rewrite Forall_forall in Hall. apply Hall.
  by apply (tournamentSelection_in n).
Qed.

Lemma breed_ok n ga r :
  (0 < n)%nat -> ga_ok n ga -> indiv_ok n (GA.breed ga r).1.
Proof.
  intros Hn Hok. pose proof Hok as [(Hga & _) _]. unfold GA.breed.
  destruct (Rand.Float64 r) as [u r0].
  destruct (u <? GA.crossoverRate ga)%float.
  - pose proof (tournamentSelection_ok n ga r0 Hok) as [_ Hp1].
    destruct (GA.tournamentSelection ga r0) as [parent1 r1].
    pose proof (tournamentSelection_ok n ga r1 Hok) as [_ Hp2].
    destruct (GA.tournamentSelection ga r1) as [parent2 r2]. cbn [fst] in *.
    pose proof (orderCrossover_ok n ga (GA.chromosome parent1) (GA.chromosome parent2)
                  r2 Hn Hga Hp1 Hp2) as Hchild.
    unfold GA.smartCrossover.
    destruct (GA.orderCrossover ga _ _ r2) as [child r3]. cbn [fst] in Hchild.
    destruct (Rand.Float64 r3) as [u' r4].
    destruct (u' <? GA.mutationRate ga)%float; [|done].
    pose proof (smartMutation_ok n ga child r4 Hn Hga Hchild) as Hm.
    by destruct (GA.smartMutation ga child r4).
  - pose proof (tournamentSelection_ok n ga r0 Hok) as Hp.
    destruct (GA.tournamentSelection ga r0) as [parent r1]. cbn [fst] in Hp.
    assert (Hchild : board_ok n (copy (make (GA.n ga)) (GA.chromosome parent))).
    { rewrite Hga, copy_make by apply Hp. exact Hp. }
    destruct (Rand.Float64 r1) as [u' r2].
    destruct (u' <? GA.mutationRate ga)%float; [|done].
    pose proof (smartMutation_ok n ga _ r2 Hn Hga Hchild) as Hm.
    by destruct (GA.smartMutation ga _ r2).
Qed.

(** ** Genetic algorithm: what a run keeps *)

Lemma initializeIndividual_spec n ga index r :
  (0 < n)%nat -> GA.n ga = n ->
  ∃ c, board_ok n c
    ∧ (GA.initializeIndividual ga index r).1
      = GA.set_population ga (<[index := GA.Indiv c 0]> (GA.population ga)).
Proof.
  intros Hn Hga. unfold GA.initializeIndividual. rewrite Hga.
  destruct (Perm_ok n r Hn) as [Hp _]. destruct (Rand.Perm n r) as [perm r'].
  cbn [fst] in *. exists (copy (make n) perm). split; [|done].
  rewrite copy_make by apply Hp. exact Hp.
Qed.

Lemma initializePopulation_ok n ga r :
  (0 < n)%nat -> ga_shape n ga -> ga_ok n (GA.initializePopulation ga r).1.
Proof.
  intros Hn (Hga & Hsize & Hlen). unfold GA.initializePopulation.
  pose proof (foldl_seq_invariant
    (fun i (s : GA.GeneticSolver * Rand.t) =>
       ga_shape n s.1 ∧ GA.populationSize s.1 = GA.populationSize ga
       ∧ Forall (indiv_ok n) (take i (GA.population s.1)))
    (fun '(ga, r) i => GA.initializeIndividual ga i r)
    0 (GA.populationSize ga) (ga, r)) as Hloop.
  destruct Hloop as (Hshape & Hsame & Hall).
  - split; [done|]. split; [done|]. apply Forall_nil_2.
  - intros i [ga' r'] Hi ((Hga' & Hsize' & Hlen') & Hsame & Hall). cbn [fst] in *.
    destruct (initializeIndividual_spec n ga' i r' Hn Hga') as (c & Hc & ->).
    unfold ga_shape.
    cbn [GA.set_population GA.n GA.populationSize GA.population].
    split; [|split; [done|]].
    + split; [done|]. split; [done|]. by rewrite length_insert.
    + apply Forall_take_insert; [lia|done..].
  - split; [done|]. rewrite take_ge in Hall; [done|].
    destruct Hshape as (_ & _ & Hl). cbn [Nat.add]. lia.
Qed.

Lemma adapt_ok n ga generationsWithoutImprovement r :
  (0 < n)%nat -> ga_ok n ga ->
  ga_ok n (GA.adapt ga generationsWithoutImprovement r).1.
Proof.
  intros Hn Hok. unfold GA.adapt. destruct (_ >? 20); [|done].
  apply (foldl_invariant (fun s : GA.GeneticSolver * Rand.t => ga_ok n s.1)); [done|].
  intros [ga' r'] i _ [(Hga' & Hsize' & Hlen') Hall]. cbn [fst] in *.
  destruct (initializeIndividual_spec n ga' i r' Hn Hga') as (c & Hc & ->).
  split; [split; [done|split; [done|]]|].
  - cbn [GA.set_population GA.population GA.populationSize].
    by rewrite length_insert.
  - cbn [GA.set_population GA.population]. by apply Forall_insert.
Qed.

Lemma eliteSize_le ga :
  (20 <= GA.populationSize ga)%nat -> (GA.eliteSize ga <= GA.populationSize ga)%nat.
Proof.
  intros Hsize. unfold GA.eliteSize.
  pose proof (Nat.Div0.div_le_upper_bound (GA.populationSize ga) 10
                (GA.populationSize ga)) as Hdiv.
  repeat case_bool_decide; lia.
Qed.

Lemma createNewGeneration_ok n ga r :
  (0 < n)%nat -> ga_ok n ga ->
  let newPopulation := (GA.createNewGeneration ga r).1 in
  length newPopulation = GA.populationSize ga ∧ Forall (indiv_ok n) newPopulation.
Proof.
  intros Hn Hok. pose proof Hok as [(Hga & Hsize & Hlen) Hall].
  pose proof (eliteSize_le ga Hsize) as Helite.
  unfold GA.createNewGeneration. cbv zeta.
  pose proof (foldl_seq_invariant
    (fun i (p : list GA.Individual) =>
       length p = GA.populationSize ga ∧ Forall (indiv_ok n) (take i p))
    (fun newPopulation i =>
       <[i := GA.Indiv (copy (make (GA.n ga)) (GA.chromosome (GA.population ga !!! i)))
                       (GA.fitness (GA.population ga !!! i))]> newPopulation)
    0 (GA.eliteSize ga) (replicate (GA.populationSize ga) inhabitant)) as Hloop1.
  destruct Hloop1 as [Hlen1 Hall1].
  { split; [apply length_replicate|apply Forall_nil_2]. }
  { intros i p Hi [Hp Hpre]. split; [by rewrite length_insert|].
    apply Forall_take_insert; [lia|done|].
    assert (Hi' : (i < length (GA.population ga))%nat) by lia.
    pose proof (Forall_lookup_total_1 _ _ i Hall Hi') as Hind.
    unfold indiv_ok. cbn [GA.chromosome]. rewrite Hga, copy_make by apply Hind.
    exact Hind. }
  set (elite := foldl _ (replicate (GA.populationSize ga) inhabitant)
                  (seq 0 (GA.eliteSize ga))) in *.
  pose proof (foldl_seq_invariant
    (fun i (s : list GA.Individual * Rand.t) =>
       length s.1 = GA.populationSize ga ∧ Forall (indiv_ok n) (take i s.1))
    (fun '(newPopulation, r) i =>
       let '(child, r) := GA.breed ga r in (<[i := child]> newPopulation, r))
    (GA.eliteSize ga) (GA.populationSize ga - GA.eliteSize ga) (elite, r)) as Hloop2.
  destruct Hloop2 as [Hlen2 Hall2].
  { done. }
  { intros i [p r'] Hi [Hp Hpre]. cbn [fst] in *.
    pose proof (breed_ok n ga r' Hn Hok) as Hchild.
    destruct (GA.breed ga r') as [child r'']. cbn [fst] in *.
    split; [by rewrite length_insert|]. apply Forall_take_insert; [lia|done..]. }
  split; [done|]. rewrite take_ge in Hall2; [done|]. lia.
Qed.

Lemma ga_found_solution n ga :
  ga_ok n ga -> Forall (evaluated n) (GA.population ga) ->
  GA.fitness (GA.population ga !!! 0%nat) = 0 ->
  ga_stores n (GA.found ga).
Proof.
  intros [(Hga & Hsize & Hlen) Hall] Heval Hz.
  assert (H0 : (0 < length (GA.population ga))%nat) by lia.
  pose proof (Forall_lookup_total_1 _ _ 0%nat Hall H0) as Hind.
  pose proof (Forall_lookup_total_1 _ _ 0%nat Heval H0) as Hev.
  unfold ga_stores, GA.found. cbn [GA.solution GA.solved].
  rewrite Hga, copy_make by apply Hind.
  split; [exact Hind|]. unfold evaluated in Hev. split; [congruence|done].
Qed.

Section Sorted.

Variable sortSlice :
  (GA.Individual -> GA.Individual -> bool) -> list GA.Individual -> list GA.Individual.

(** All that the proofs need of [sort.Slice]: it rearranges the slice. *)
Hypothesis sortSlice_perm : ∀ less l, sortSlice less l ≡ₚ l.

Lemma evaluatePopulation_ok n ga :
  ga_ok n ga ->
  ga_ok n (GA.evaluatePopulation sortSlice ga)
  ∧ Forall (evaluated n) (GA.population (GA.evaluatePopulation sortSlice ga)).
Proof.
  intros [(Hga & Hsize & Hlen) Hall]. unfold GA.evaluatePopulation.
  pose proof (foldl_seq_invariant
    (fun i (ga' : GA.GeneticSolver) =>
       ga_ok n ga' ∧ GA.populationSize ga' = GA.populationSize ga
       ∧ Forall (evaluated n) (take i (GA.population ga')))
    (fun ga i =>
       let p := GA.population ga in
       GA.set_population ga
         (<[i := GA.Indiv (GA.chromosome (p !!! i))
                          (GA.calculateFitness ga (GA.chromosome (p !!! i)))]> p))
    0 (GA.populationSize ga) ga) as Hloop.
  destruct Hloop as ([(Hga1 & Hsize1 & Hlen1) Hall1] & Hsame & Heval).
  { split; [done|]. split; [done|]. apply Forall_nil_2. }
  { intros i ga' Hi ([(Hga' & Hsize' & Hlen') Hall'] & Hsame & Heval). cbv zeta.
    unfold ga_ok, ga_shape.
    cbn [GA.set_population GA.n GA.populationSize GA.population].
    assert (Hi' : (i < length (GA.population ga'))%nat) by lia.
    pose proof (Forall_lookup_total_1 _ _ i Hall' Hi') as Hind.
    split; [split; [split; [done|split; [done|by rewrite length_insert]]|]|split; [done|]].
    - by apply Forall_insert.
    - apply Forall_take_insert; [done..|].
      unfold evaluated. cbn [GA.fitness GA.chromosome].
      by rewrite ga_calculateFitness_scan, Hga'. }
  set (ga1 := foldl _ ga (seq 0 (GA.populationSize ga))) in *.
  rewrite take_ge in Heval by (cbn [Nat.add]; lia).
  unfold ga_ok, ga_shape.
  cbn [GA.set_population GA.population GA.n GA.populationSize].
  pose proof (sortSlice_perm GA.less (GA.population ga1)) as Hperm.
  split; [split; [split; [done|split; [done|]]|]|].
  - cbn [GA.set_population GA.population GA.populationSize].
    by rewrite (Permutation_length Hperm).
  - by rewrite Hperm.
  - by rewrite Hperm.
Qed.

Lemma before_selection_ok n ga generationsWithoutImprovement bestFitnessEver r :
  (0 < n)%nat -> ga_ok n ga ->
  step_ok n (GA.before_selection sortSlice ga generationsWithoutImprovement
               bestFitnessEver r).
Proof.
  intros Hn Hok. unfold GA.before_selection.
  destruct (evaluatePopulation_ok n ga Hok) as [Hok1 Heval].
  set (ga1 := GA.evaluatePopulation sortSlice ga) in *.
  destruct (Z.eqb_spec (GA.fitness (GA.population ga1 !!! 0%nat)) 0) as [Hz|Hz].
  - split; [exact Hok1|by apply ga_found_solution].
  - destruct (GA.track _ bestFitnessEver generationsWithoutImprovement) as [b g].
    destruct (g >? 50); [exact Hok1|].
    pose proof (adapt_ok n ga1 g r Hn Hok1) as Had.
    by destruct (GA.adapt ga1 g r).
Qed.

Lemma generation_ok n ga generationsWithoutImprovement bestFitnessEver r :
  (0 < n)%nat -> ga_ok n ga ->
  step_ok n (GA.generation sortSlice ga generationsWithoutImprovement
               bestFitnessEver r).
Proof.
  intros Hn Hok. unfold GA.generation.
  pose proof (before_selection_ok n ga generationsWithoutImprovement
                bestFitnessEver r Hn Hok) as Hb.
  destruct (GA.before_selection sortSlice ga _ _ r) as [ga1 r1|ga1 r1|ga1 g b r1];
    [done..|].
  cbn [step_ok] in Hb. pose proof (createNewGeneration_ok n ga1 r1 Hn Hb) as Hnew.
  cbv zeta in Hnew. destruct (GA.createNewGeneration ga1 r1) as [newPopulation r2].
  cbn [fst step_ok] in *. destruct Hb as [(Hga & Hsize & Hlen) _].
  destruct Hnew as [Hl Hall]. done.
Qed.

Lemma evolve_ok n k ga generationsWithoutImprovement bestFitnessEver r :
  (0 < n)%nat -> ga_ok n ga ->
  step_ok n (GA.evolve sortSlice k ga generationsWithoutImprovement
               bestFitnessEver r).
Proof.
  intros Hn. revert ga generationsWithoutImprovement bestFitnessEver r.
  induction k as [|k IH]; intros ga g b r Hok; [done|].
  cbn [GA.evolve]. pose proof (generation_ok n ga g b r Hn Hok) as Hg.
  destruct (GA.generation sortSlice ga g b r) as [ga1 r1|ga1 r1|ga1 g1 b1 r1];
    [done..|].
  by apply IH.
Qed.

Lemma ga_found_ok n ga : ga_ok n ga -> ga_ok n (GA.found ga).
Proof. done. Qed.

Lemma ga_singleRun_ok n ga r :
  (0 < n)%nat -> ga_shape n ga -> ga_result_ok n (GA.singleRun sortSlice ga r).
Proof.
  intros Hn Hshape. unfold GA.singleRun.
  pose proof (initializePopulation_ok n ga r Hn Hshape) as Hinit.
  destruct (GA.initializePopulation ga r) as [ga0 r0]. cbn [fst] in Hinit.
  pose proof (evolve_ok n (Z.to_nat (GA.maxGenerations ga0)) ga0 0
                (Z.of_nat (GA.n ga0) * Z.of_nat (GA.n ga0)) r0 Hn Hinit) as Hev.
  assert (Hfinal : ∀ ga1 r1, ga_ok n ga1 ->
            ga_result_ok n
              (let ga2 := GA.evaluatePopulation sortSlice ga1 in
               if GA.fitness (GA.population ga2 !!! 0%nat) =? 0
               then (true, GA.found ga2, r1) else (false, ga2, r1))).
  { intros ga1 r1 Hok1. cbv zeta.
    destruct (evaluatePopulation_ok n ga1 Hok1) as [Hok2 Heval].
    destruct (Z.eqb_spec (GA.fitness
                (GA.population (GA.evaluatePopulation sortSlice ga1) !!! 0%nat)) 0)
      as [Hz|Hz].
    - split; [exact Hok2|]. intros _. by apply ga_found_solution.
    - split; [exact Hok2|done]. }
  destruct (GA.evolve sortSlice _ ga0 0 _ r0) as [ga1 r1|ga1 r1|ga1 g1 b1 r1].
  - destruct Hev as [Hok1 Hst]. by split.
  - by apply Hfinal.
  - by apply Hfinal.
Qed.

Lemma ga_restart_loop_ok n k ga r :
  (0 < n)%nat -> ga_shape n ga ->
  ∀ res, GA.restart_loop sortSlice k ga r = res ->
    res.1.1 = true -> GA.n res.1.2 = n ∧ ga_stores n res.1.2.
Proof.
  intros Hn. revert ga r. induction k as [|k IH]; intros ga r Hshape res <-.
  { done. }
  cbn [GA.restart_loop].
  pose proof (ga_singleRun_ok n ga r Hn Hshape) as [Hok Hst].
  destruct (GA.singleRun sortSlice ga r) as [[ok ga1] r1]. cbn [fst snd] in *.
  destruct ok; [|apply (IH ga1 r1); [apply Hok|done]].
  intros _. split; [apply Hok|by apply Hst].
Qed.

Lemma ga_new_shape n : ga_shape n (GA.NewGeneticSolver n).
Proof.
  unfold ga_shape, GA.NewGeneticSolver.
  cbn [GA.n GA.populationSize GA.population]. split; [done|].
  rewrite length_replicate. repeat case_bool_decide; split; (done || lia).
Qed.

Lemma ga_solved n r ga' r' :
  (0 < n)%nat ->
  GA.Solve sortSlice (GA.NewGeneticSolver n) r = (true, ga', r') ->
  GA.n ga' = n ∧ ga_stores n ga'.
Proof.
  intros Hn Hs. unfold GA.Solve in Hs.
  exact (ga_restart_loop_ok n _ _ r Hn (ga_new_shape n) _ Hs eq_refl).
Qed.

Lemma ga_fails_2_3 n r :
  n = 2%nat ∨ n = 3%nat ->
  (GA.Solve sortSlice (GA.NewGeneticSolver n) r).1.1 = false.
Proof.
  intros Hn. assert (0 < n)%nat as Hpos by lia.
  destruct (GA.Solve sortSlice (GA.NewGeneticSolver n) r).1.1 eqn:Hres; [|done].
  unfold GA.Solve in Hres.
  pose proof (ga_restart_loop_ok n _ _ r Hpos (ga_new_shape n) _
                eq_refl Hres) as (_ & [Hl Hr] & Hz & _).
  by destruct (conflicts_2_3 n _ Hn Hl Hr).
Qed.

End Sorted.

(** ** Order crossover *)

Lemma is_permutation_facts n l :
  is_permutation n l -> length l = n ∧ NoDup l ∧ in_range n l.
Proof.
  intros Hp. unfold is_permutation in Hp. split; [|split].
  - rewrite Hp, length_seqZ. lia.
  - rewrite Hp. apply NoDup_seqZ.
  - unfold in_range. rewrite Hp. apply Forall_forall. intros x Hx.
    apply elem_of_seqZ in Hx. lia.
Qed.

Lemma is_permutation_intro n l :
  length l = n -> NoDup l -> in_range n l -> is_permutation n l.
Proof.
  intros Hl Hnd Hr. apply submseteq_length_Permutation.
  - apply NoDup_submseteq; [done|]. intros x Hx. apply elem_of_seqZ.
    unfold in_range in Hr. rewrite Forall_forall in Hr. specialize (Hr x Hx). lia.
  - rewrite length_seqZ. lia.
Qed.

Lemma mod_wrap (n x : nat) : (0 < n)%nat -> (x < 2 * n)%nat ->
  (x `mod` n)%nat = if decide (x < n)%nat then x else (x - n)%nat.
Proof.
  intros Hn Hx. case_decide.
  - by apply Nat.mod_small.
  - symmetry. apply (Nat.mod_unique x n 1 (x - n)); lia.
Qed.

Lemma mod_add_inj (n a i j : nat) :
  (0 < n)%nat -> (i < n)%nat -> (j < n)%nat ->
  ((a + i) `mod` n = (a + j) `mod` n)%nat -> i = j.
Proof.
  intros Hn Hi Hj Heq.
  rewrite <- (Nat.Div0.add_mod_idemp_l a i), <- (Nat.Div0.add_mod_idemp_l a j) in Heq.
  pose proof (Nat.mod_upper_bound a n) as Ha.
  set (b := (a `mod` n)%nat) in *.
  rewrite (mod_wrap n (b + i)), (mod_wrap n (b + j)) in Heq by lia.
  repeat case_decide; lia.
Qed.

Lemma copy_segment_spec parent1 start end_ child0 :
  (start <= end_ < length child0)%nat ->
  let res := GA.copy_segment parent1 start end_ child0 in
  length res.1 = length child0
  ∧ (∀ i, (start <= i <= end_)%nat -> res.1 !!! i = parent1 !!! i)
  ∧ (∀ i, ¬ (start <= i <= end_)%nat -> res.1 !!! i = child0 !!! i)
  ∧ (∀ x, x ∈ res.2 <-> x ∈ segment parent1 start end_).
Proof.
  intros Hse. unfold GA.copy_segment.
  pose proof (foldl_seq_invariant
    (fun k (s : list Z * gset Z) =>
       length s.1 = length child0
       ∧ (∀ i, (start <= i < k)%nat -> s.1 !!! i = parent1 !!! i)
       ∧ (∀ i, ¬ (start <= i < k)%nat -> s.1 !!! i = child0 !!! i)
       ∧ (∀ x, x ∈ s.2 <-> ∃ i, (start <= i < k)%nat ∧ parent1 !!! i = x))
    (fun '(child, used) i =>
       (<[i := parent1 !!! i]> child, {[parent1 !!! i]} ∪ used))
    start (S end_ - start) (child0, ∅)) as Hloop.
  replace (start + (S end_ - start))%nat with (S end_) in Hloop by lia.
  destruct Hloop as (Hlen & Hin & Hout & Hused).
  - cbn [fst snd]. split; [done|]. split; [intros; lia|]. split; [done|].
    intros x. split; [set_solver|]. intros (i & Hi & _). lia.
  - intros k [child used] Hk (Hlen & Hin & Hout & Hused). cbn [fst snd] in *.
    split; [by rewrite length_insert|]. split; [|split].
    + intros i Hi. destruct (decide (i = k)) as [->|Hne].
      * apply list_lookup_total_insert_eq. lia.
      * rewrite list_lookup_total_insert_ne by done. apply Hin. lia.
    + intros i Hi. rewrite list_lookup_total_insert_ne by lia. apply Hout. lia.
    + intros x. rewrite elem_of_union, elem_of_singleton, Hused. split.
      * intros [->|(i & Hi & Hx)]; [exists k; split; [lia|done]|].
        exists i. split; [lia|done].
      * intros (i & Hi & Hx). destruct (decide (i = k)) as [->|Hne]; [by left|].
        right. exists i. split; [lia|done].
  - cbv zeta. split; [done|]. split; [intros i Hi; apply Hin; lia|].
    split; [intros i Hi; apply Hout; lia|].
    intros x. rewrite Hused. unfold segment. rewrite list_elem_of_fmap. split.
    + intros (i & Hi & Hx). exists i. split; [done|]. apply elem_of_seq. lia.
    + intros (i & Hx & Hi). apply elem_of_seq in Hi. exists i. split; [lia|done].
Qed.

Lemma rotated_to_S n parent2 end_ k :
  rotated_to n parent2 end_ (S k)
  = rotated_to n parent2 end_ k ++ [parent2 !!! ((end_ + 1 + k) `mod` n)%nat].
Proof. unfold rotated_to. by rewrite seq_S, fmap_app. Qed.

Lemma length_rotated_to n parent2 end_ k : length (rotated_to n parent2 end_ k) = k.
Proof. unfold rotated_to. by rewrite length_fmap, length_seq. Qed.

(** The fill loop writes the values it keeps one after the other,
    starting after [end] and wrapping around, and touches nothing else. *)
Lemma fill_rest_spec n parent2 end_ (used : gset Z) child1 :
  (0 < n)%nat -> length child1 = n ->
  let res := GA.fill_rest n parent2 end_ used child1 in
  let kept := filter (fun x => x ∉ used) (rotated n parent2 end_) in
  length res.1 = n
  ∧ (∀ j, (j < length kept)%nat ->
       res.1 !!! ((end_ + 1 + j) `mod` n)%nat = kept !!! j)
  ∧ (∀ pos, (∀ j, (j < length kept)%nat -> pos ≠ ((end_ + 1 + j) `mod` n)%nat) ->
       res.1 !!! pos = child1 !!! pos).
Proof.
  intros Hn Hlen1. unfold GA.fill_rest.
  pose proof (foldl_seq_invariant
    (fun k (s : list Z * nat) =>
       let kept := filter (fun x => x ∉ used) (rotated_to n parent2 end_ k) in
       s.2 = ((end_ + 1 + length kept) `mod` n)%nat
       ∧ length s.1 = n
       ∧ (∀ j, (j < length kept)%nat ->
            s.1 !!! ((end_ + 1 + j) `mod` n)%nat = kept !!! j)
       ∧ (∀ pos, (∀ j, (j < length kept)%nat -> pos ≠ ((end_ + 1 + j) `mod` n)%nat) ->
            s.1 !!! pos = child1 !!! pos))
    (fun '(child, childIndex) i =>
       let parent2Index := ((end_ + 1 + i) `mod` n)%nat in
       if bool_decide (parent2 !!! parent2Index ∉ used) then
         (<[childIndex := parent2 !!! parent2Index]> child,
          ((childIndex + 1) `mod` n)%nat)
       else (child, childIndex))
    0 n (child1, ((end_ + 1) `mod` n)%nat)) as Hloop.
  cbn [Nat.add] in Hloop. destruct Hloop as (_ & Hlen & Hwritten & Hrest).
  - cbn [fst snd]. unfold rotated_to. simpl.
    rewrite Nat.add_0_r. split; [done|]. split; [done|].
    split; [intros; lia|reflexivity].
  - intros k [child ci] Hk (Hci & Hlen & Hwritten & Hrest). cbn [fst snd] in *.
    cbv zeta. rewrite rotated_to_S, filter_app.
    set (kept := filter (fun x => x ∉ used) (rotated_to n parent2 end_ k)) in *.
    set (v := parent2 !!! ((end_ + 1 + k) `mod` n)%nat).
    assert (Hw : (length kept <= k)%nat).
    { etrans; [apply length_filter|]. by rewrite length_rotated_to. }
    rewrite filter_cons, filter_nil.
    case_bool_decide as Hv; case_decide as Hv'; try (by destruct Hv; apply Hv');
      try (by destruct Hv'; apply Hv).
    + cbn [fst snd]. rewrite length_app. cbn [length].
      split; [|split; [by rewrite length_insert|split]].
      * rewrite Hci, Nat.Div0.add_mod_idemp_l. f_equal. lia.
      * intros j Hj. destruct (decide (j = length kept)) as [->|Hne].
        -- rewrite lookup_total_app_r by lia. rewrite Nat.sub_diag, <- Hci.
           rewrite list_lookup_total_insert_eq; [done|].
           rewrite Hlen, Hci. by apply Nat.mod_upper_bound; lia.
        -- rewrite lookup_total_app_l by lia.
           rewrite list_lookup_total_insert_ne; [apply Hwritten; lia|].
           rewrite Hci. intros Heq. apply Hne.
           apply (mod_add_inj n (end_ + 1)); [lia..|done].
      * intros pos Hpos. rewrite list_lookup_total_insert_ne.
        -- apply Hrest. intros j Hj. apply Hpos. lia.
        -- rewrite Hci. intros Heq. apply (Hpos (length kept)); [lia|done].
    + cbn [fst snd]. rewrite app_nil_r. done.
  - cbv zeta. unfold rotated. done.
Qed.

Section Crossover.

Variables (n start end_ : nat) (parent1 parent2 : list Z).
Hypothesis n_pos : (0 < n)%nat.
Hypothesis cut : (start <= end_ < n)%nat.
Hypothesis perm1 : is_permutation n parent1.
Hypothesis perm2 : is_permutation n parent2.

Lemma lookup_total_inj (l : list Z) i j :
  NoDup l -> (i < length l)%nat -> (j < length l)%nat -> l !!! i = l !!! j -> i = j.
Proof.
  intros Hnd Hi Hj Heq. apply (NoDup_lookup l i j (l !!! i)); [done|..].
  - by apply list_lookup_lookup_total_lt.
  - rewrite Heq. by apply list_lookup_lookup_total_lt.
Qed.

Lemma NoDup_rotated : NoDup (rotated n parent2 end_).
Proof.
  destruct (is_permutation_facts n parent2 perm2) as (Hl & Hnd & _).
  apply NoDup_fmap_2_strong; [|apply NoDup_seq].
  intros i j Hi Hj Heq. apply elem_of_seq in Hi, Hj.
  apply (mod_add_inj n (end_ + 1)); [lia..|].
  apply (lookup_total_inj parent2); [done|rewrite Hl; apply Nat.mod_upper_bound; lia..|done].
Qed.

Lemma rotated_perm : rotated n parent2 end_ ≡ₚ parent2.
Proof.
  destruct (is_permutation_facts n parent2 perm2) as (Hl & Hnd & _).
  apply submseteq_length_Permutation.
  - apply NoDup_submseteq; [apply NoDup_rotated|]. intros x Hx.
    apply list_elem_of_fmap in Hx as (i & -> & Hi).
    apply list_elem_of_lookup_total_2. rewrite Hl. apply Nat.mod_upper_bound. lia.
  - unfold rotated. rewrite length_rotated_to. lia.
Qed.

Lemma NoDup_segment : NoDup (segment parent1 start end_).
Proof.
  destruct (is_permutation_facts n parent1 perm1) as (Hl & Hnd & _).
  apply NoDup_fmap_2_strong; [|apply NoDup_seq].
  intros i j Hi Hj Heq. apply elem_of_seq in Hi, Hj.
  apply (lookup_total_inj parent1); [done|lia..|done].
Qed.

Lemma segment_in_parent1 x : x ∈ segment parent1 start end_ -> x ∈ parent1.
Proof.
  destruct (is_permutation_facts n parent1 perm1) as (Hl & _ & _).
  intros Hx. apply list_elem_of_fmap in Hx as (i & -> & Hi).
  apply elem_of_seq in Hi. apply list_elem_of_lookup_total_2. lia.
Qed.

Lemma length_segment : length (segment parent1 start end_) = (S end_ - start)%nat.
Proof. unfold segment. by rewrite length_fmap, length_seq. Qed.

Lemma length_unused :
  length (unused n parent1 parent2 start end_) = (n - (S end_ - start))%nat.
Proof.
  pose proof (filter_app_complement (fun x => x ∈ segment parent1 start end_)
                (rotated n parent2 end_)) as Hsplit.
  apply Permutation_length in Hsplit. rewrite length_app in Hsplit.
  unfold rotated at 3 in Hsplit. rewrite length_rotated_to in Hsplit.
  assert (Hseg : filter (fun x => x ∈ segment parent1 start end_)
                   (rotated n parent2 end_) ≡ₚ segment parent1 start end_).
  { apply NoDup_Permutation.
    - apply NoDup_filter, NoDup_rotated.
    - apply NoDup_segment.
    - intros x. rewrite list_elem_of_filter. split; [tauto|]. intros Hx.
      split; [done|]. rewrite rotated_perm. unfold is_permutation in *.
      rewrite perm2, <- perm1. by apply segment_in_parent1. }
  apply Permutation_length in Hseg. rewrite length_segment in Hseg.
  unfold unused. lia.
Qed.

(** The positions outside the segment, counted cyclically from [end + 1]. *)
Lemma outside_segment pos :
  (pos < n)%nat -> ¬ (start <= pos <= end_)%nat ->
  ∃ j, (j < n - (S end_ - start))%nat ∧ pos = ((end_ + 1 + j) `mod` n)%nat.
Proof.
  intros Hpos Hout. destruct (decide (end_ < pos)%nat).
  - exists (pos - (end_ + 1))%nat. split; [lia|].
    rewrite mod_wrap by lia. case_decide; lia.
  - exists (pos + n - (end_ + 1))%nat. split; [lia|].
    rewrite mod_wrap by lia. case_decide; lia.
Qed.

Lemma inside_segment pos j :
  (start <= pos <= end_)%nat -> (j < n - (S end_ - start))%nat ->
  pos ≠ ((end_ + 1 + j) `mod` n)%nat.
Proof. intros Hpos Hj. rewrite mod_wrap by lia. case_decide; lia. Qed.

(** The child of the crossover at [[start, end]]: the segment of
    [parent1] in place, and the unused values of [parent2] around it. *)
Lemma cross_at_spec :
  let child := GA.cross_at n parent1 parent2 start end_ in
  let rest := unused n parent1 parent2 start end_ in
  length child = n
  ∧ (∀ i, (start <= i <= end_)%nat -> child !!! i = parent1 !!! i)
  ∧ (∀ j, (j < length rest)%nat ->
       child !!! ((end_ + 1 + j) `mod` n)%nat = rest !!! j).
Proof.
  unfold GA.cross_at.
  pose proof (copy_segment_spec parent1 start end_ (make n)) as Hseg.
  rewrite length_make in Hseg. specialize (Hseg cut). cbv zeta in Hseg.
  destruct (GA.copy_segment parent1 start end_ (make n)) as [child1 used].
  cbn [fst snd] in Hseg. destruct Hseg as (Hlen1 & Hin1 & _ & Hused).
  pose proof (fill_rest_spec n parent2 end_ used child1 n_pos Hlen1) as Hfill.
  cbv zeta in Hfill.
  destruct (GA.fill_rest n parent2 end_ used child1) as [child k].
  cbn [fst snd] in Hfill. destruct Hfill as (Hlen & Hwritten & Hrest).
  assert (Hkept : filter (fun x => x ∉ used) (rotated n parent2 end_)
                  = unused n parent1 parent2 start end_).
  { apply list_filter_iff. intros x. by rewrite Hused. }
  rewrite Hkept in Hwritten, Hrest. cbv zeta.
  split; [done|]. split; [|done].
  intros i Hi. rewrite Hrest; [by apply Hin1|].
  intros j Hj. rewrite length_unused in Hj. by apply inside_segment.
Qed.

Lemma NoDup_unused : NoDup (unused n parent1 parent2 start end_).
Proof. apply NoDup_filter, NoDup_rotated. Qed.

Lemma cross_at_permutation :
  is_permutation n (GA.cross_at n parent1 parent2 start end_).
Proof.
  destruct cross_at_spec as (Hlen & Hin & Hout).
  destruct (is_permutation_facts n parent1 perm1) as (Hl1 & Hnd1 & Hr1).
  destruct (is_permutation_facts n parent2 perm2) as (Hl2 & Hnd2 & Hr2).
  set (child := GA.cross_at n parent1 parent2 start end_) in *.
  set (rest := unused n parent1 parent2 start end_) in *.
  assert (Hrest_len : length rest = (n - (S end_ - start))%nat) by apply length_unused.
  apply is_permutation_intro; [done| |by apply cross_at_ok].
  apply NoDup_alt. intros i j x Hi Hj.
  pose proof (lookup_lt_Some _ _ _ Hi) as Hi'. pose proof (lookup_lt_Some _ _ _ Hj) as Hj'.
  apply list_lookup_total_correct in Hi, Hj. rewrite Hlen in Hi', Hj'.
  destruct (decide (start <= i <= end_)%nat) as [Hiin|Hiout];
    destruct (decide (start <= j <= end_)%nat) as [Hjin|Hjout].
  - rewrite Hin in Hi, Hj by done.
    apply (lookup_total_inj parent1); [done|lia..|congruence].
  - exfalso. rewrite Hin in Hi by done.
    destruct (outside_segment j Hj' Hjout) as (jj & Hjj & ->).
    rewrite Hout in Hj by lia.
    assert (Hx : x ∈ rest).
    { rewrite <- Hj. apply list_elem_of_lookup_total_2. lia. }
    apply list_elem_of_filter in Hx as [Hx _]. apply Hx.
    rewrite <- Hi. unfold segment. apply list_elem_of_fmap. exists i.
    split; [done|]. apply elem_of_seq. lia.
  - exfalso. rewrite Hin in Hj by done.
    destruct (outside_segment i Hi' Hiout) as (ii & Hii & ->).
    rewrite Hout in Hi by lia.
    assert (Hx : x ∈ rest).
    { rewrite <- Hi. apply list_elem_of_lookup_total_2. lia. }
    apply list_elem_of_filter in Hx as [Hx _]. apply Hx.
    rewrite <- Hj. unfold segment. apply list_elem_of_fmap. exists j.
    split; [done|]. apply elem_of_seq. lia.
  - destruct (outside_segment i Hi' Hiout) as (ii & Hii & ->).
    destruct (outside_segment j Hj' Hjout) as (jj & Hjj & ->).
    rewrite Hout in Hi, Hj by lia. f_equal. f_equal.
    apply (lookup_total_inj rest); [apply NoDup_unused|lia..|congruence].
Qed.

End Crossover.

Lemma cut_points_ordered n r :
  (0 < n)%nat ->
  ((GA.cut_points n r).1.1 <= (GA.cut_points n r).1.2 < n)%nat.
Proof.
  intros Hn. unfold GA.cut_points.
  pose proof (Intn_lt n r Hn) as H1.
  destruct (Rand.Intn n r) as [a r1]. pose proof (Intn_lt n r1 Hn) as H2.
  destruct (Rand.Intn n r1) as [b r2]. cbn [fst] in *.
  case_bool_decide; cbn [fst snd]; lia.
Qed.

(** C5. For two parents that are permutations of [[0, N)],
    [GeneticSolver.orderCrossover] returns a child of length [N] that is
    a permutation of [[0, N)]: the segment [[start, end]] is copied from
    [parent1] at the same positions, and the remaining positions are
    filled from [parent2]'s cyclic order starting just after [end] with
    the values that the segment does not hold. *)
Theorem orderCrossover_permutation (ga : GA.GeneticSolver)
    (parent1 parent2 : list Z) (r : Rand.t) :
  (0 < GA.n ga)%nat ->
  is_permutation (GA.n ga) parent1 ->
  is_permutation (GA.n ga) parent2 ->
  let cut := GA.cut_points (GA.n ga) r in
  (cut.1.1 <= cut.1.2 < GA.n ga)%nat
  ∧ ox_child (GA.n ga) parent1 parent2 cut.1.1 cut.1.2
             (GA.orderCrossover ga parent1 parent2 r).1.
Proof.
  intros Hn H1 H2 cut. pose proof (cut_points_ordered (GA.n ga) r Hn) as Hcut.
  fold cut in Hcut. split; [done|]. unfold GA.orderCrossover. fold cut.
  destruct cut as [[start end_] r']. cbn [fst snd] in *.
  destruct (cross_at_spec (GA.n ga) start end_ parent1 parent2 Hn Hcut H1 H2)
    as (Hlen & Hin & Hout).
  pose proof (length_unused (GA.n ga) start end_ parent1 parent2 Hn Hcut H1 H2) as Hrest.
  unfold ox_child. cbv zeta. split; [done|].
  split; [by apply cross_at_permutation|]. split; [done|]. split; [done|].
  split; [done|]. intros pos Hpos Hnot. rewrite Hrest.
  by apply outside_segment.
Qed.

Lemma orderCrossover_permutation_witness :
  let ga := GA.NewGeneticSolver 5 in
  let r := Rand.Source (list_tape [3; 1]%nat) 0 in
  ((0 < GA.n ga)%nat
   ∧ is_permutation (GA.n ga) [4; 0; 3; 1; 2]
   ∧ is_permutation (GA.n ga) [4; 1; 2; 3; 0])
  ∧ (GA.orderCrossover ga [4; 0; 3; 1; 2] [4; 1; 2; 3; 0] r).1 = [2; 0; 3; 1; 4]
  ∧ ox_child 5 [4; 0; 3; 1; 2] [4; 1; 2; 3; 0] 1 3
             (GA.orderCrossover ga [4; 0; 3; 1; 2] [4; 1; 2; 3; 0] r).1.
Proof.
  assert (H1 : is_permutation 5 [4; 0; 3; 1; 2]).
  { apply is_permutation_intro; [done| |].
    - apply (bool_decide_unpack _). by vm_compute.
    - unfold in_range. repeat constructor; lia. }
  assert (H2 : is_permutation 5 [4; 1; 2; 3; 0]).
  { apply is_permutation_intro; [done| |].
    - apply (bool_decide_unpack _). by vm_compute.
    - unfold in_range. repeat constructor; lia. }
  cbv zeta. split; [split; [cbn; lia|by split]|]. split; [by vm_compute|].
  apply (orderCrossover_permutation (GA.NewGeneticSolver 5) [4; 0; 3; 1; 2]
           [4; 1; 2; 3; 0] (Rand.Source (list_tape [3; 1]%nat) 0));
    [cbn; lia|done..].
Defined.

(** ** The claims about the objective function *)

(** C2. On a board of length [N], the three full conflict counters
    ([GreedySolver.countConflicts],
    [SimulatedAnnealingSolver.calculateCostForBoard] and
    [GeneticSolver.calculateFitness]) return the same non-negative
    number: the number of pairs of columns [i < j] in the same row plus
    the number of pairs [i < j] on the same diagonal; it is zero exactly
    when no two queens share a row or a diagonal.  (The rows need not lie
    in [[0, N)] for this.) *)
Theorem conflict_counters_count_pairs (n : nat) (b : list Z) :
  length b = n ->
  let c := count_pairs n (same_row b) + count_pairs n (same_diagonal b) in
  (∀ g, Greedy.n g = n -> Greedy.board g = b -> Greedy.countConflicts g = c)
  ∧ (∀ sa, SA.n sa = n -> SA.calculateCostForBoard sa b = c)
  ∧ (∀ ga, GA.n ga = n -> GA.calculateFitness ga b = c)
  ∧ 0 <= c
  ∧ (c = 0 <-> zero_conflict n b).
Proof.
  intros _ c. unfold c. rewrite <- pairwise_scan_count.
  split; [|split; [|split; [|split]]].
  - intros g <- <-. apply greedy_countConflicts_scan.
  - intros sa <-. apply sa_calculateCostForBoard_scan.
  - intros ga <-. apply ga_calculateFitness_scan.
  - apply pairwise_scan_nonneg.
  - apply pairwise_scan_zero.
Qed.

Lemma conflict_counters_count_pairs_witness :
  length [0; 2; 1; 1] = 4%nat
  ∧ SA.calculateCostForBoard (SA.NewSimulatedAnnealingSolver 4) [0; 2; 1; 1]
    = count_pairs 4 (same_row [0; 2; 1; 1])
      + count_pairs 4 (same_diagonal [0; 2; 1; 1])
  ∧ count_pairs 4 (same_row [0; 2; 1; 1]) = 1
  ∧ count_pairs 4 (same_diagonal [0; 2; 1; 1]) = 1.
Proof.
  split; [reflexivity|]. split; [|by vm_compute].
  apply (conflict_counters_count_pairs 4 [0; 2; 1; 1]); reflexivity.
Defined.

(** C8. On a board of length [N], the column-scoped counts
    [calculateConflictsForPosition(b, c)] of all columns [c] add up to
    twice the full count [calculateCostForBoard(b)]: every pair is seen
    once from each of its two columns, and a pair of distinct columns is
    never both a row conflict and a diagonal conflict. *)
Theorem column_counts_sum_to_twice_cost (sa : SA.SimulatedAnnealingSolver)
    (b : list Z) :
  length b = SA.n sa ->
  sumZ (SA.calculateConflictsForPosition sa b) (seq 0 (SA.n sa))
  = 2 * SA.calculateCostForBoard sa b
  ∧ (∀ i j : nat, i ≠ j -> ¬ (same_row b (i, j) ∧ same_diagonal b (i, j))).
Proof.
  intros _. split.
  - rewrite sa_calculateCostForBoard_scan, <- column_scan_total.
    apply sumZ_ext. intros c _. apply sa_calculateConflictsForPosition_scan.
  - intros i j Hij [Hrow Hdiag]. unfold same_row, same_diagonal in *.
    cbn [fst snd] in *. lia.
Qed.

Lemma column_counts_sum_to_twice_cost_witness :
  length [0; 2; 1; 1] = SA.n (SA.NewSimulatedAnnealingSolver 4)
  ∧ sumZ (SA.calculateConflictsForPosition (SA.NewSimulatedAnnealingSolver 4)
            [0; 2; 1; 1]) (seq 0 4) = 4
  ∧ SA.calculateCostForBoard (SA.NewSimulatedAnnealingSolver 4) [0; 2; 1; 1] = 2.
Proof.
  split; [reflexivity|].
  pose proof (column_counts_sum_to_twice_cost (SA.NewSimulatedAnnealingSolver 4)
                [0; 2; 1; 1] eq_refl) as [Hsum _].
  assert (Hcost : SA.calculateCostForBoard (SA.NewSimulatedAnnealingSolver 4)
                    [0; 2; 1; 1] = 2) by (by vm_compute).
  split; [|exact Hcost]. rewrite Hcost in Hsum. exact Hsum.
Defined.

(** ** The claims about [Solve] *)

Lemma run_true_holds_solution h Exp sortSlice fuel n r s :
  (∀ less l, sortSlice less l ≡ₚ l) ->
  (1 <= n)%nat ->
  run h Exp sortSlice fuel n r = Some (true, s) ->
  holds_solution n s.
Proof.
  intros Hsort Hn Hrun. destruct h; unfold run in Hrun.
  - destruct (Greedy.Solve (Greedy.NewGreedySolver n) r) as [[ok g] r'] eqn:Hs.
    injection Hrun as -> <-. by apply (greedy_solved n r g r').
  - destruct (SA.Solve Exp fuel (SA.NewSimulatedAnnealingSolver n) r)
      as [[[ok sa] r']|] eqn:Hs; [|done].
    injection Hrun as -> <-.
    destruct (sa_solved Exp n fuel r sa r') as ([Hdim _] & Hb & Hz & Hsolved);
      [lia|done|]. done.
  - destruct (GA.Solve sortSlice (GA.NewGeneticSolver n) r) as [[ok ga] r'] eqn:Hs.
    injection Hrun as -> <-.
    destruct (ga_solved sortSlice Hsort n r ga r') as (Hdim & Hb & Hz & Hsolved);
      [lia|done|]. done.
Qed.


Lemma merge_sortSlice_perm less l : merge_sortSlice less l ≡ₚ l.
Proof. unfold merge_sortSlice. apply merge_sort_Permutation. Qed.




(** ** Rendering *)

Lemma string_app_assoc (s1 s2 s3 : string) :
  (s1 +:+ s2) +:+ s3 = s1 +:+ (s2 +:+ s3).
Proof.
  induction s1 as [|a s1 IH]; [done|].
  change (String a ((s1 +:+ s2) +:+ s3) = String a (s1 +:+ s2 +:+ s3)).
  by rewrite IH.
Qed.

Lemma string_app_nil_r (s : string) : s +:+ "" = s.
Proof.
  induction s as [|a s IH]; [done|].
  change (String a (s +:+ "") = String a s). by rewrite IH.
Qed.

Lemma flatten_app l1 l2 : flatten (l1 ++ l2) = flatten l1 +:+ flatten l2.
Proof.
  induction l1 as [|x l1 IH]; [done|].
  change (flatten ((x :: l1) ++ l2)) with (x +:+ flatten (l1 ++ l2)).
  change (flatten (x :: l1)) with (x +:+ flatten l1).
  by rewrite IH, string_app_assoc.
Qed.

(** A loop that only prints writes the concatenation of what it prints. *)
Lemma foldl_print {A} (g : string -> A -> string) (f : A -> string) l stdout :
  (∀ out x, x ∈ l -> g out x = out +:+ f x) ->
  foldl g stdout l = stdout +:+ flatten (f <$> l).
Proof.
  revert stdout. induction l as [|x l IH]; intros stdout Hg.
  - simpl. by rewrite string_app_nil_r.
  - rewrite foldl_cons_eq, IH by (intros out y Hy; apply Hg; by right).
    rewrite Hg by left. rewrite fmap_cons.
    change (flatten (f x :: (f <$> l))) with (f x +:+ flatten (f <$> l)).
    by rewrite string_app_assoc.
Qed.

Lemma print_board_render n solution stdout :
  print_board n solution stdout = stdout +:+ render (grid n solution).
Proof.
  unfold print_board, render, grid. rewrite <- list_fmap_compose.
  apply foldl_print. intros out line _. unfold Println. cbn [compose].
  rewrite (foldl_print _ (fun pos => cell solution line pos)).
  - by rewrite string_app_assoc.
  - intros out' pos _. unfold cell, Print. by case_bool_decide.
Qed.

Lemma PrintSolution_render s stdout :
  solved s = true ->
  PrintSolution s stdout
  = (s, stdout +:+ header s +:+ render (grid (dimension s) (GetSolution s))
        +:+ newline).
Proof.
  intros Hsolved. destruct s as [g|sa|ga]; cbn [solved] in Hsolved.
  - unfold PrintSolution, Greedy.PrintSolution. rewrite Hsolved. cbn [negb].
    rewrite print_board_render. unfold Println, Print. cbn [header dimension GetSolution].
    unfold Greedy.GetSolution. by rewrite !string_app_assoc.
  - unfold PrintSolution, SA.PrintSolution. rewrite Hsolved. cbn [negb].
    rewrite print_board_render. unfold Println, Print. cbn [header dimension GetSolution].
    unfold SA.GetSolution. by rewrite !string_app_assoc.
  - unfold PrintSolution, GA.PrintSolution. rewrite Hsolved. cbn [negb].
    rewrite print_board_render. unfold Println, Print. cbn [header dimension GetSolution].
    unfold GA.GetSolution. by rewrite !string_app_assoc.
Qed.

Lemma grid_lookup n solution line pos :
  (line < n)%nat -> (pos < n)%nat ->
  (grid n solution !!! line) !!! pos = cell solution line pos.
Proof.
  intros Hl Hp. unfold grid.
  rewrite (list_lookup_total_alt (_ <$> seq 0 n) line).
  rewrite list_lookup_fmap, lookup_seq_lt by done. simpl.
  rewrite list_lookup_total_alt, list_lookup_fmap, lookup_seq_lt by done. done.
Qed.

(** A line holds one marker when its row lies on the board. *)
Lemma markers_line solution line k :
  0 <= solution !!! line ->
  length (filter (fun c => c = "Q ") ((fun pos => cell solution line pos) <$> seq 0 k))
  = if decide (solution !!! line < Z.of_nat k) then 1%nat else 0%nat.
Proof.
  intros Hq. induction k as [|k IH].
  { simpl. case_decide; [lia|done]. }
  rewrite seq_S, fmap_app, filter_app, length_app, IH. cbn [Nat.add fmap list_fmap].
  rewrite filter_cons, filter_nil. unfold cell at 1.
  case_bool_decide as Hk; repeat case_decide; simpl; try lia; try done.
Qed.

Lemma markers_grid_to n solution k :
  (k <= n)%nat -> in_range n solution -> length solution = n ->
  length (filter (fun c => c = "Q ")
            (mjoin ((fun line => (fun pos => cell solution line pos) <$> seq 0 n)
                    <$> seq 0 k)))
  = k.
Proof.
  intros Hk Hr Hl. induction k as [|k IH]; [done|].
  rewrite seq_S, fmap_app, join_app, filter_app, length_app, IH by lia.
  cbn [Nat.add fmap list_fmap mjoin list_join]. rewrite app_nil_r.
  assert (0 < n)%nat as Hn by lia.
  pose proof (in_range_lookup n solution k Hn Hr) as Hq.
  rewrite markers_line by lia. rewrite decide_True by lia. lia.
Qed.

Lemma markers_grid n solution :
  in_range n solution -> length solution = n -> markers (grid n solution) = n.
Proof. intros Hr Hl. unfold markers, grid. by apply markers_grid_to. Qed.

(** C10, as the code has it.  After a successful [Solve], [PrintSolution]
    prints a grid of [N] lines of [N] cells with exactly [N] queen
    markers: the line of index [col] holds the marker of column [col], in
    its cell of index [solution[col]], and blanks in its other cells.
    The solver is not modified. *)
Theorem PrintSolution_prints_a_line_per_column (h : heuristic)
    (Exp : float -> float)
    (sortSlice : (GA.Individual -> GA.Individual -> bool) ->
                 list GA.Individual -> list GA.Individual)
    (fuel n : nat) (r : Rand.t) (s : solver) :
  (∀ less l, sortSlice less l ≡ₚ l) ->
  (1 <= n)%nat ->
  run h Exp sortSlice fuel n r = Some (true, s) ->
  prints_one_line_per_column n s.
Proof.
  intros Hsort Hn Hrun.
  destruct (run_true_holds_solution h Exp sortSlice fuel n r s Hsort Hn Hrun)
    as (Hdim & Hsolved & [Hl Hr] & _).
  unfold prints_one_line_per_column. cbv zeta.
  split; [|split; [|split; [|split]]].
  - intros stdout. rewrite PrintSolution_render by done. by rewrite Hdim.
  - unfold grid. by rewrite length_fmap, length_seq.
  - intros line Hline. unfold grid.
    rewrite list_lookup_total_alt, list_lookup_fmap, lookup_seq_lt by done.
    simpl. by rewrite length_fmap, length_seq.
  - intros col pos Hcol Hpos. by rewrite grid_lookup.
  - by apply markers_grid.
Qed.

Lemma PrintSolution_prints_a_line_per_column_witness :
  (∀ less l, merge_sortSlice less l ≡ₚ l)
  ∧ (1 <= 4)%nat
  ∧ ∃ s, run GreedySearch (fun x => x) merge_sortSlice 0 4 (Rand.Source tape_1302 0)
         = Some (true, s)
       ∧ prints_one_line_per_column 4 s.
Proof.
  split; [exact merge_sortSlice_perm|]. split; [lia|].
  assert (Hrun : ∃ s, run GreedySearch (fun x => x) merge_sortSlice 0 4
                        (Rand.Source tape_1302 0) = Some (true, s)).
  { vm_compute. eexists. reflexivity. }
  destruct Hrun as [s Hrun]. exists s. split; [exact Hrun|].
  apply (PrintSolution_prints_a_line_per_column GreedySearch (fun x => x)
           merge_sortSlice 0 4 (Rand.Source tape_1302 0) s merge_sortSlice_perm);
    [lia|exact Hrun].
Defined.

(** C10 as stated fails: for the solution [1; 3; 0; 2] the marker of
    column 0 is not in line 1, and the text is not the claimed grid. *)
Lemma printed_grid_is_transposed :
  ∃ s, run GreedySearch (fun x => x) merge_sortSlice 0 4 (Rand.Source tape_1302 0)
       = Some (true, s)
     ∧ GetSolution s = [1; 3; 0; 2]
     ∧ (grid 4 (GetSolution s) !!! 1%nat) !!! 0%nat = ". "
     ∧ (PrintSolution s "").2
       ≠ header s +:+ render (claimed_grid 4 (GetSolution s)) +:+ newline.
Proof.
  destruct (run GreedySearch (fun x => x) merge_sortSlice 0 4 (Rand.Source tape_1302 0))
    as [[ok s]|] eqn:Hrun; [|by vm_compute in Hrun].
  vm_compute in Hrun. injection Hrun as <- <-.
  eexists. split; [reflexivity|]. split; [reflexivity|]. split; [by vm_compute|].
  by vm_compute.
Qed.

(** ** The acceptance rule of simulated annealing *)

Lemma accept_or_reject_metropolis Exp s neighbor :
  metropolis_step Exp s neighbor
    (SA.accept_or_reject Exp s neighbor
       (SA.calculateCostForBoard (SA.solver s) neighbor)).
Proof.
  unfold metropolis_step, SA.accept_or_reject, SA.accepts, SA.acceptanceProbability.
  cbv zeta.
  set (neighborCost := SA.calculateCostForBoard (SA.solver s) neighbor).
  set (deltaCost := neighborCost - SA.currentCost s).
  split; [done|].
  destruct (Z.leb_spec deltaCost 0) as [Hle|Hgt].
  - rewrite bool_decide_eq_true_2 by done.
    destruct (Z.ltb_spec neighborCost (SA.bestCost s)) as [Hlt|Hge];
      cbn [SA.solver SA.currentCost SA.bestCost SA.bestBoard SA.source
           SA.temperature SA.set_board SA.board].
    + split; [intros _; split; [done|split; [done|split; [done|intros; lia]]]|].
      split; [intros Hn; destruct Hn; by left|]. split; [done|]. split; [done|].
      intros Hl. by apply copy_same_length.
    + split; [intros _; split; [done|split; [done|split; [intros; lia|done]]]|].
      split; [intros Hn; destruct Hn; by left|]. split; [done|]. split; [done|].
      intros Hl. by apply copy_same_length.
  - rewrite bool_decide_eq_false_2 by lia.
    destruct (Rand.Float64 (SA.source s)) as [u r1]. cbn [fst snd].
    destruct (u <? Exp (- float64 deltaCost / SA.temperature s))%float eqn:Hu.
    + destruct (Z.ltb_spec neighborCost (SA.bestCost s)) as [Hlt|Hge];
        cbn [SA.solver SA.currentCost SA.bestCost SA.bestBoard SA.source
             SA.temperature SA.set_board SA.board].
      * split; [intros _; split; [done|split; [done|split; [done|intros; lia]]]|].
        split; [intros Hn; destruct Hn; by right|]. split; [done|]. split; [done|].
        intros Hl. by apply copy_same_length.
      * split; [intros _; split; [done|split; [done|split; [intros; lia|done]]]|].
        split; [intros Hn; destruct Hn; by right|]. split; [done|]. split; [done|].
        intros Hl. by apply copy_same_length.
    + cbn [SA.solver SA.currentCost SA.bestCost SA.bestBoard SA.source
           SA.temperature SA.set_board SA.board].
      split; [intros [?|?]; [lia|done]|]. split; [done|]. split; [done|].
      split; [done|]. intros Hl. by apply copy_same_length.
Qed.

(** The rule leaves no choice: it fixes every working variable. *)
Lemma metropolis_step_unique Exp s neighbor s1 s2 :
  metropolis_step Exp s neighbor s1 -> metropolis_step Exp s neighbor s2 -> s1 = s2.
Proof.
  unfold metropolis_step. cbv zeta.
  set (neighborCost := SA.calculateCostForBoard (SA.solver s) neighbor).
  set (deltaCost := neighborCost - SA.currentCost s).
  set (accepted := deltaCost <= 0 ∨ _).
  intros (_ & Hacc1 & Hrej1 & Hsrc1 & Htemp1 & _)
         (_ & Hacc2 & Hrej2 & Hsrc2 & Htemp2 & _).
  assert (Hdec : accepted ∨ ¬ accepted).
  { unfold accepted. destruct (decide (deltaCost <= 0)) as [|Hgt]; [by left; left|].
    destruct ((Rand.Float64 (SA.source s)).1
              <? Exp (- float64 deltaCost / SA.temperature s))%float;
      [by left; right|].
    right. intros [?|?]; [lia|done]. }
  destruct s1 as [sa1 t1 c1 b1 bb1 r1], s2 as [sa2 t2 c2 b2 bb2 r2].
  cbn [SA.solver SA.temperature SA.currentCost SA.bestCost SA.bestBoard
       SA.source] in *.
  assert (t1 = t2) as -> by congruence. assert (r1 = r2) as -> by congruence.
  destruct Hdec as [Hyes|Hno].
  - destruct (Hacc1 Hyes) as (-> & -> & Hbetter1 & Hsame1).
    destruct (Hacc2 Hyes) as (-> & -> & Hbetter2 & Hsame2).
    destruct (decide (neighborCost < SA.bestCost s)) as [Hlt|Hge].
    + destruct (Hbetter1 Hlt) as [-> ->]. by destruct (Hbetter2 Hlt) as [-> ->].
    + destruct (Hsame1 Hge) as [-> ->]. by destruct (Hsame2 Hge) as [-> ->].
  - destruct (Hrej1 Hno) as (-> & -> & -> & ->).
    by destruct (Hrej2 Hno) as (-> & -> & -> & ->).
Qed.

(** C4. In an iteration of the annealing loop (temperature above the
    minimum, current cost not zero, neighbour generated), the neighbour
    replaces the current board if and only if
    [deltaCost = neighborCost - currentCost] is at most zero or
    [exp(-deltaCost / temperature)] is strictly greater than a fresh draw
    of [rand.Float64()]; on acceptance the current cost becomes the
    neighbour's, and the best board and cost are updated when that cost
    is strictly below the best cost.  The rule fixes the state [s'] after
    the lines 69 to 81, and the loop goes on from [s'] with the cooling
    step: a loop that is allowed one iteration ends in the state
    [cool iter s'], and a loop that is allowed more makes its other
    iterations from there. *)
Theorem annealing_iteration_accepts_by_metropolis (Exp : float -> float)
    (fuel : nat) (iter : Z) (s : SA.run_state) (neighbor : list Z) (r : Rand.t) :
  (SA.minTemp (SA.solver s) <? SA.temperature s)%float = true ->
  SA.currentCost s ≠ 0 ->
  SA.generateSmartNeighbor fuel (SA.solver s) (SA.source s) = Some (neighbor, r) ->
  ∃ s' : SA.run_state,
    metropolis_step Exp (at_acceptance s r) neighbor s'
    ∧ (∀ s'' : SA.run_state,
         metropolis_step Exp (at_acceptance s r) neighbor s'' -> s'' = s')
    ∧ SA.anneal Exp fuel 1 iter s = Some (SA.Exhausted (SA.cool iter s'))
    ∧ ∀ k : nat,
        SA.anneal Exp fuel (S k) iter s
        = SA.anneal Exp fuel k (iter + 1) (SA.cool iter s').
Proof.
  intros Htemp Hcost Hgen.
  pose proof (accept_or_reject_metropolis Exp (at_acceptance s r) neighbor) as Hstep.
  exists (SA.accept_or_reject Exp (at_acceptance s r) neighbor
            (SA.calculateCostForBoard (SA.solver s) neighbor)).
  split; [exact Hstep|]. split.
  { intros s'' Hs''. exact (metropolis_step_unique _ _ _ _ _ Hs'' Hstep). }
  assert (Hloop : ∀ k : nat,
            SA.anneal Exp fuel (S k) iter s
            = SA.anneal Exp fuel k (iter + 1)
                (SA.cool iter
                   (SA.accept_or_reject Exp (at_acceptance s r) neighbor
                      (SA.calculateCostForBoard (SA.solver s) neighbor)))).
  { intros k. cbn [SA.anneal]. rewrite Htemp, Hgen. cbn [negb].
    by rewrite (proj2 (Z.eqb_neq _ _) Hcost). }
  split; [by rewrite Hloop|exact Hloop].
Qed.

Lemma annealing_iteration_accepts_by_metropolis_witness :
  let Exp := fun x : float => (1 + x)%float in
  let neighbor := [0; 1; 3; 2] in
  let r := Rand.Source counting_tape 3 in
  ((SA.minTemp (SA.solver uphill_state) <? SA.temperature uphill_state)%float = true
   ∧ SA.currentCost uphill_state ≠ 0
   ∧ SA.generateSmartNeighbor 0 (SA.solver uphill_state) (SA.source uphill_state)
     = Some (neighbor, r))
  (* the neighbour is worse, and the draw 0.25 is below 1 - 1/16 *)
  ∧ SA.calculateCostForBoard (SA.solver uphill_state) neighbor
    - SA.currentCost uphill_state = 1
  ∧ ((Rand.Float64 r).1 <? Exp (- float64 1 / SA.temperature uphill_state))%float
    = true
  ∧ ∃ s' : SA.run_state,
      metropolis_step Exp (at_acceptance uphill_state r) neighbor s'
      ∧ (∀ s'' : SA.run_state,
           metropolis_step Exp (at_acceptance uphill_state r) neighbor s'' -> s'' = s')
      ∧ SA.anneal Exp 0 1 0 uphill_state = Some (SA.Exhausted (SA.cool 0 s'))
      ∧ (∀ k : nat,
           SA.anneal Exp 0 (S k) 0 uphill_state
           = SA.anneal Exp 0 k (0 + 1) (SA.cool 0 s'))
      (* so that the worse neighbour is accepted *)
      ∧ SA.board (SA.solver s') = neighbor
      ∧ SA.currentCost s' = 2.
Proof.
  cbv zeta.
  assert (Hgen : SA.generateSmartNeighbor 0 (SA.solver uphill_state)
                   (SA.source uphill_state)
                 = Some ([0; 1; 3; 2], Rand.Source counting_tape 3))
    by (by vm_compute).
  split; [split; [by vm_compute|split; [by vm_compute|exact Hgen]]|].
  split; [by vm_compute|]. split; [by vm_compute|].
  destruct (annealing_iteration_accepts_by_metropolis (fun x => (1 + x)%float) 0 0
              uphill_state [0; 1; 3; 2] (Rand.Source counting_tape 3))
    as (s' & Hstep & Huniq & Hone & Hmore);
    [by vm_compute|by vm_compute|exact Hgen|].
  exists s'. split; [exact Hstep|]. split; [exact Huniq|].
  split; [exact Hone|]. split; [exact Hmore|].
  destruct Hstep as (_ & Haccepted & _).
  destruct Haccepted as (Hsolver & Hcost & _); [right; by vm_compute|].
  rewrite Hsolver, Hcost. split; by vm_compute.
Defined.

(** ** Strategy 2 of the neighbour generation *)

Lemma foldl_append_filter {A} (P : A -> bool) l acc :
  foldl (fun acc x => if P x then acc ++ [x] else acc) acc l
  = acc ++ filter (fun x => P x = true) l.
Proof.
  revert acc. induction l as [|x l IH]; intros acc.
  { by rewrite app_nil_r. }
  rewrite foldl_cons_eq, IH, filter_cons. destruct (P x) eqn:HP.
  - rewrite decide_True by done. by rewrite <- app_assoc.
  - rewrite decide_False by done. done.
Qed.

Lemma findConflictedQueens_filter sa :
  SA.findConflictedQueens sa
  = filter (fun i => (SA.calculateConflictsForPosition sa (SA.board sa) i >? 0) = true)
           (seq 0 (SA.n sa)).
Proof. unfold SA.findConflictedQueens. by rewrite foldl_append_filter. Qed.

Lemma elem_of_findConflictedQueens sa col :
  col ∈ SA.findConflictedQueens sa
  <-> (col < SA.n sa)%nat ∧ 0 < SA.calculateConflictsForPosition sa (SA.board sa) col.
Proof.
  rewrite findConflictedQueens_filter, list_elem_of_filter, elem_of_seq.
  cbv beta. rewrite Z.gtb_ltb, Z.ltb_lt. split; intros [? ?]; split; lia.
Qed.

Lemma sumZ_le_length {A} (f : A -> Z) l :
  (∀ x, x ∈ l -> f x <= 1) -> sumZ f l <= Z.of_nat (length l).
Proof.
  induction l as [|x l IH]; intros Hf; [done|].
  cbn [sumZ foldr length]. fold (sumZ f l).
  assert (f x <= 1) by (apply Hf; left).
  assert (sumZ f l <= Z.of_nat (length l)) by (apply IH; intros y Hy; apply Hf; by right).
  lia.
Qed.

Lemma column_scan_le n board col : column_scan n board col <= Z.of_nat n.
Proof.
  rewrite column_scan_sum. etrans; [apply sumZ_le_length|by rewrite length_seq].
  intros j _. case_bool_decide; [|lia]. by apply pair_cost_le_1.
Qed.

Lemma column_scan_1 board col : column_scan 1 board col <= 0 ∨ col ≠ 0%nat.
Proof.
  destruct col as [|col]; [left|by right].
  rewrite column_scan_sum. cbn [seq sumZ foldr].
  rewrite bool_decide_eq_false_2 by (intros H; by apply H). lia.
Qed.

(** The row scan keeps the first row, other than the current one, whose
    local count is below the running minimum. *)
Lemma scan_rows_best sa neighbor col bestRow minConflicts :
  length neighbor = SA.n sa ->
  let res := SA.scan_rows sa neighbor col bestRow minConflicts in
  res.2 <= minConflicts
  ∧ (∀ row : nat, (row < SA.n sa)%nat -> Z.of_nat row ≠ neighbor !!! col ->
       res.2 <= local_conflicts sa neighbor col row)
  ∧ (res = (bestRow, minConflicts)
     ∨ res.2 < minConflicts
       ∧ ∃ row : nat, (row < SA.n sa)%nat ∧ Z.of_nat row ≠ neighbor !!! col
           ∧ res = (Z.of_nat row, local_conflicts sa neighbor col row)).
Proof.
  intros Hl. unfold SA.scan_rows.
  pose proof (foldl_seq_invariant
    (fun k (res : Z * Z) =>
       res.2 <= minConflicts
       ∧ (∀ row : nat, (row < k)%nat -> Z.of_nat row ≠ neighbor !!! col ->
            res.2 <= local_conflicts sa neighbor col row)
       ∧ (res = (bestRow, minConflicts)
          ∨ res.2 < minConflicts
            ∧ ∃ row : nat, (row < k)%nat ∧ Z.of_nat row ≠ neighbor !!! col
                ∧ res = (Z.of_nat row, local_conflicts sa neighbor col row)))
    (fun '(bestRow, minConflicts) row =>
       if bool_decide (Z.of_nat row ≠ neighbor !!! col) then
         let tempBoard := copy (make (SA.n sa)) neighbor in
         let tempBoard := <[col := Z.of_nat row]> tempBoard in
         let conflicts := SA.calculateConflictsForPosition sa tempBoard col in
         if conflicts <? minConflicts then (Z.of_nat row, conflicts)
         else (bestRow, minConflicts)
       else (bestRow, minConflicts))
    0 (SA.n sa) (bestRow, minConflicts)) as Hloop.
  cbn [Nat.add] in Hloop. apply Hloop; clear Hloop.
  - cbn [fst snd]. split; [lia|]. split; [intros; lia|by left].
  - intros k [br mc] Hk (Hle & Hall & Hwho). cbn [fst snd] in *.
    rewrite copy_make by done. fold (local_conflicts sa neighbor col k).
    case_bool_decide as Hrow.
    + destruct (Z.ltb_spec (local_conflicts sa neighbor col k) mc) as [Hlt|Hge];
        cbn [fst snd].
      * split; [lia|]. split.
        -- intros row Hr Hne. destruct (decide (row = k)) as [->|Hnk]; [lia|].
           etrans; [|apply Hall; [lia|done]]. lia.
        -- right. split; [lia|]. exists k. split; [lia|done].
      * split; [done|]. split.
        -- intros row Hr Hne. destruct (decide (row = k)) as [->|Hnk]; [lia|].
           apply Hall; [lia|done].
        -- destruct Hwho as [Heq|(Hlt & row & Hr & Hne & Heq)]; [by left|].
           right. split; [done|]. exists row. split; [lia|done].
    + split; [done|]. split.
      * intros row Hr Hne. destruct (decide (row = k)) as [->|Hnk]; [done|].
        apply Hall; [lia|done].
      * destruct Hwho as [Heq|(Hlt & row & Hr & Hne & Heq)]; [by left|].
        right. split; [done|]. exists row. split; [lia|done].
Qed.

(** C7, as the code has it.  When the strategy draw lies in [[0.6, 0.8)]
    and some column is in conflict, the neighbour differs from the
    current board only in one conflicted column, chosen by a draw, and
    the row adopted for it has the least local conflict count among the
    rows other than the column's current row. *)
Theorem conflicted_queen_moves_to_best_other_row (fuel : nat)
    (sa : SA.SimulatedAnnealingSolver) (r : Rand.t) :
  length (SA.board sa) = SA.n sa ->
  ((Rand.Float64 r).1 <? 0.6)%float = false ->
  ((Rand.Float64 r).1 <? 0.8)%float = true ->
  (0 < length (SA.findConflictedQueens sa))%nat ->
  moves_conflicted_queen fuel sa r (Rand.Float64 r).2.
Proof.
  intros Hl Hlo Hhi Hsome. unfold moves_conflicted_queen. cbv zeta.
  unfold SA.generateSmartNeighbor. rewrite copy_make by done.
  destruct (Rand.Float64 r) as [strategy r0]. cbn [fst snd] in *.
  rewrite Hlo, Hhi. unfold SA.move_conflicted.
  rewrite bool_decide_eq_true_2 by done.
  set (conflicted := SA.findConflictedQueens sa) in *.
  pose proof (Intn_lt (length conflicted) r0 Hsome) as Hk.
  destruct (Rand.Intn (length conflicted) r0) as [k r1]. cbn [fst] in *.
  set (col := conflicted !!! k).
  assert (Hcol : col ∈ conflicted) by (by apply list_elem_of_lookup_total_2).
  apply elem_of_findConflictedQueens in Hcol as [Hcoln Hcolc].
  assert (Hn2 : (2 <= SA.n sa)%nat).
  { rewrite sa_calculateConflictsForPosition_scan in Hcolc.
    destruct (SA.n sa) as [|[|n]] eqn:Hn; [lia| |lia].
    destruct (column_scan_1 (SA.board sa) col); lia. }
  destruct (Rand.Intn (SA.n sa) r1) as [bestRow r2].
  pose proof (scan_rows_best sa (SA.board sa) col (Z.of_nat bestRow)
                (Z.of_nat (SA.n sa) * Z.of_nat (SA.n sa)) Hl) as Hbest.
  cbv zeta in Hbest.
  destruct (SA.scan_rows sa (SA.board sa) col (Z.of_nat bestRow)
              (Z.of_nat (SA.n sa) * Z.of_nat (SA.n sa))) as [br mc].
  cbn [fst snd] in Hbest. destruct Hbest as (_ & Hall & Hwho).
  assert (Hother : ∃ row0 : nat, (row0 < SA.n sa)%nat
                     ∧ Z.of_nat row0 ≠ SA.board sa !!! col).
  { destruct (decide (SA.board sa !!! col = 0)) as [Hz|Hz].
    - exists 1%nat. split; lia.
    - exists 0%nat. split; [lia|]. cbn. intros Heq. by apply Hz. }
  destruct Hother as (row0 & Hrow0 & Hne0).
  pose proof (Hall row0 Hrow0 Hne0) as Hle0.
  assert (Hbound : local_conflicts sa (SA.board sa) col row0 <= Z.of_nat (SA.n sa)).
  { unfold local_conflicts. rewrite sa_calculateConflictsForPosition_scan.
    apply column_scan_le. }
  destruct Hwho as [Heq|(_ & row & Hrow & Hne & Heq)].
  { injection Heq as _ ->. nia. }
  injection Heq as -> ->. exists row, r2. split; [done|]. split; [done|].
  split; [done|]. split; [done|]. split; [done|]. exact Hall.
Qed.

Lemma conflicted_queen_moves_to_best_other_row_witness :
  (length (SA.board diagonal_pair) = SA.n diagonal_pair
   ∧ ((Rand.Float64 (Rand.Source strategy_2_tape 0)).1 <? 0.6)%float = false
   ∧ ((Rand.Float64 (Rand.Source strategy_2_tape 0)).1 <? 0.8)%float = true
   ∧ (0 < length (SA.findConflictedQueens diagonal_pair))%nat)
  ∧ moves_conflicted_queen 0 diagonal_pair (Rand.Source strategy_2_tape 0)
      (Rand.Float64 (Rand.Source strategy_2_tape 0)).2.
Proof.
  split; [split; [reflexivity|split; [by vm_compute|split; [by vm_compute|]]]|].
  - vm_compute. lia.
  - apply (conflicted_queen_moves_to_best_other_row 0 diagonal_pair
             (Rand.Source strategy_2_tape 0));
      [reflexivity|by vm_compute|by vm_compute|vm_compute; lia].
Defined.

(** C7 as stated fails: on the board [0; 2; 1] the queen of the
    conflicted column 1 has one conflict in its row 2 and would have two
    in either other row; strategy 2 moves it to row 0, which does not
    minimise the local count over all rows. *)
Lemma conflicted_queen_can_move_to_a_worse_row :
  ∃ r' : Rand.t,
    SA.generateSmartNeighbor 0 diagonal_pair (Rand.Source strategy_2_tape 0)
    = Some ([0; 0; 1], r')
    ∧ 1%nat ∈ SA.findConflictedQueens diagonal_pair
    ∧ SA.calculateConflictsForPosition diagonal_pair [0; 0; 1] 1 = 2
    ∧ SA.calculateConflictsForPosition diagonal_pair [0; 2; 1] 1 = 1
    ∧ ¬ ∀ row : nat, (row < 3)%nat ->
          SA.calculateConflictsForPosition diagonal_pair [0; 0; 1] 1
          <= local_conflicts diagonal_pair (SA.board diagonal_pair) 1 row.
Proof.
  eexists. split; [by vm_compute|]. split; [|split; [by vm_compute|split; [by vm_compute|]]].
  - apply elem_of_findConflictedQueens. split; [cbn; lia|by vm_compute].
  - intros Hall. specialize (Hall 2%nat ltac:(lia)).
    assert (H1 : SA.calculateConflictsForPosition diagonal_pair [0; 0; 1] 1 = 2)
      by (by vm_compute).
    assert (H2 : local_conflicts diagonal_pair (SA.board diagonal_pair) 1 2 = 1)
      by (by vm_compute).
    rewrite H1, H2 in Hall. lia.
Qed.

(** ** The cached fitness during stagnation *)


(** C6 fails on the code.  After 21 generations without improvement the
    last fifth of the population is replaced by fresh individuals whose
    cached fitness is 0, and the tournaments of the same generation read
    that value: here the winner has cached fitness 0 while its chromosome
    has one conflict. *)
Theorem stale_fitness_is_read_by_tournament :
  match stagnant_selection with
  | Some (generationsWithoutImprovement, ga, winner) =>
      generationsWithoutImprovement = 21
      ∧ winner = GA.population ga !!! 79%nat
      ∧ GA.fitness winner = 0
      ∧ GA.calculateFitness ga (GA.chromosome winner) = 1
  | None => False
  end.
Proof. by vm_compute. Qed.

(** ** The exhaustive search *)

Lemma isSafe_spec e row col :
  Exhaustive.isSafe e row col = true
  <-> ∀ i : nat, (i < row)%nat ->
        Exhaustive.board e !!! i ≠ Z.of_nat col
        ∧ Z.abs (Exhaustive.board e !!! i - Z.of_nat col)
          ≠ Z.abs (Z.of_nat i - Z.of_nat row).
Proof.
  unfold Exhaustive.isSafe.
  assert (Hgen : ∀ l : list nat,
    foldr (fun i continue =>
             if bool_decide (Exhaustive.board e !!! i = Z.of_nat col) then false
             else if bool_decide (abs (Exhaustive.board e !!! i - Z.of_nat col)
                                  = abs (Z.of_nat i - Z.of_nat row))
             then false else continue) true l = true
    <-> ∀ i, i ∈ l ->
          Exhaustive.board e !!! i ≠ Z.of_nat col
          ∧ Z.abs (Exhaustive.board e !!! i - Z.of_nat col)
            ≠ Z.abs (Z.of_nat i - Z.of_nat row)).
  { induction l as [|x l IH]; simpl.
    - split; [intros _ i Hi | done]. by apply elem_of_nil in Hi.
    - rewrite !abs_Zabs. repeat case_bool_decide.
      + split; [done | intros Hall]. destruct (Hall x); [left | done].
      + split; [done | intros Hall]. destruct (Hall x); [left | done].
      + rewrite IH. split.
        * intros Hall i Hi.
          apply elem_of_cons in Hi as [->|Hi]; [done | by apply Hall].
        * intros Hall i Hi. apply Hall. by right. }
  rewrite Hgen. split; intros H i Hi; apply H.
  - apply elem_of_seq. lia.
  - apply elem_of_seq in Hi. lia.
Qed.

Lemma lex_le_antisym s s' : lex_le s s' -> lex_le s' s -> s = s'.
Proof.
  intros [Heq|(k & Hk & Hlt)] [Heq'|(k' & Hk' & Hlt')]; try done.
  - destruct (lt_eq_lt_dec k k') as [[Hc|Hc]|Hc].
    + rewrite (Hk' k Hc) in Hlt. lia.
    + subst. lia.
    + rewrite (Hk k' Hc) in Hlt'. lia.
Qed.

Lemma is_solution_lookup n s i :
  is_solution n s -> (i < n)%nat -> 0 <= s !!! i < Z.of_nat n.
Proof.
  intros [[Hlen Hr] _] Hi. apply (in_range_lookup n s i); [lia | done].
Qed.

Lemma same_prefix_full n b s :
  length b = n -> length s = n -> same_prefix n b s -> s = b.
Proof.
  intros Hb Hs H. apply list_eq_same_length with n; try done.
  intros i x y Hi Hx Hy.
  pose proof (H i Hi) as Heq.
  rewrite (list_lookup_total_correct _ _ _ Hx) in Heq.
  rewrite (list_lookup_total_correct _ _ _ Hy) in Heq. done.
Qed.

Lemma exhaustive_found_spec n e :
  Exhaustive.n e = n -> length (Exhaustive.board e) = n ->
  placed n n (Exhaustive.board e) ->
  search_spec n n e (Exhaustive.found e).
Proof.
  intros Hn Hlen [Hr Hz]. unfold search_spec, is_solution, board_ok. simpl.
  rewrite Hn, (copy_make n) by done.
  split_and!; try done.
  - apply Forall_forall. intros v Hv.
    apply list_elem_of_lookup in Hv as [i Hi].
    pose proof (lookup_lt_Some _ _ _ Hi) as Hlt.
    rewrite <- (list_lookup_total_correct _ _ _ Hi). apply Hr. lia.
  - intros s [[Hs _] _] Hp. left. symmetry. by apply (same_prefix_full n).
Qed.

Section Search.

Variables (n row depth : nat) (e : Exhaustive.ExhaustiveSearchSolver).

Hypothesis Hrow : (row < n)%nat.
Hypothesis Hplaced : placed n row (Exhaustive.board e).

Hypothesis solveNext_spec :
  ∀ e1, Exhaustive.n e1 = n -> length (Exhaustive.board e1) = n ->
    Exhaustive.solutionFound e1 = false ->
    placed n (S row) (Exhaustive.board e1) ->
    ∃ e', Exhaustive.solveRecursive depth e1 (S row) = Some e'
          ∧ search_spec n (S row) e1 e'.

Lemma unsafe_column ecur col s :
  same_prefix row (Exhaustive.board e) (Exhaustive.board ecur) ->
  Exhaustive.isSafe ecur row col = false ->
  is_solution n s -> same_prefix row (Exhaustive.board e) s ->
  s !!! row ≠ Z.of_nat col.
Proof.
  intros Hcur Hsafe [_ Hz] Hs Heq.
  assert (Exhaustive.isSafe ecur row col = true); [|congruence].
  apply isSafe_spec. intros i Hi.
  rewrite (Hcur i Hi), <- (Hs i Hi), <- Heq.
  apply Hz; lia.
Qed.

Lemma placed_next ecur col :
  length (Exhaustive.board ecur) = n ->
  same_prefix row (Exhaustive.board e) (Exhaustive.board ecur) ->
  (col < n)%nat ->
  Exhaustive.isSafe ecur row col = true ->
  placed n (S row) (<[row := Z.of_nat col]> (Exhaustive.board ecur)).
Proof.
  intros Hlen Hcur Hcol Hsafe. destruct Hplaced as [Hr Hz].
  pose proof (proj1 (isSafe_spec _ _ _) Hsafe) as Hs.
  assert (Hget : ∀ i, (i < row)%nat ->
            <[row := Z.of_nat col]> (Exhaustive.board ecur) !!! i
            = Exhaustive.board e !!! i).
  { intros i Hi. rewrite list_lookup_total_insert_ne by lia. by apply Hcur. }
  assert (Hat : <[row := Z.of_nat col]> (Exhaustive.board ecur) !!! row
                = Z.of_nat col).
  { apply list_lookup_total_insert_eq. lia. }
  split.
  - intros i Hi. destruct (decide (i = row)) as [->|Hne].
    + rewrite Hat. lia.
    + rewrite Hget by lia. apply Hr. lia.
  - intros i j Hi Hj Hij.
    destruct (decide (i = row)) as [->|Hi'], (decide (j = row)) as [->|Hj'];
      try done.
    + rewrite Hat, Hget by lia. rewrite <- (Hcur j) by lia.
      destruct (Hs j) as [H1 H2]; [lia|]. split; [congruence | lia].
    + rewrite Hat, Hget by lia. rewrite <- (Hcur i) by lia.
      destruct (Hs i) as [H1 H2]; [lia|]. done.
    + rewrite !Hget by lia. apply Hz; lia.
Qed.

Lemma try_columns_spec k c0 ecur :
  (c0 + k = n)%nat ->
  Exhaustive.n ecur = n -> length (Exhaustive.board ecur) = n ->
  same_prefix row (Exhaustive.board e) (Exhaustive.board ecur) ->
  Exhaustive.solutionFound ecur = false ->
  Exhaustive.solution ecur = Exhaustive.solution e ->
  (∀ s, is_solution n s -> same_prefix row (Exhaustive.board e) s ->
        Z.of_nat c0 <= s !!! row) ->
  ∃ e', Exhaustive.try_columns
          (fun e => Exhaustive.solveRecursive depth e (S row)) row (seq c0 k) ecur
        = Some e'
        ∧ search_spec n row e e'.
Proof.
  revert c0 ecur. induction k as [|k IH]; intros c0 ecur Hk Hn Hlen Hcur Hnf Hsol Hlow.
  - exists ecur. split; [done|]. unfold search_spec. rewrite Hnf.
    split_and!; try done.
    intros s Hs Hp. pose proof (Hlow s Hs Hp).
    pose proof (is_solution_lookup n s row Hs Hrow). lia.
  - cbn [seq Exhaustive.try_columns].
    destruct (Exhaustive.isSafe ecur row c0) eqn:Hsafe.
    + set (e1 := Exhaustive.set_board ecur _).
      destruct (solveNext_spec e1) as (e2 & -> & Hn2 & Hlen2 & Hp2 & Hres);
        [done | by subst e1; simpl; rewrite length_insert | done
        | apply placed_next; [done..|lia|done] |].
      assert (Hpre : same_prefix row (Exhaustive.board e) (Exhaustive.board e2)).
      { intros i Hi. rewrite Hp2 by lia. simpl.
        rewrite list_lookup_total_insert_ne by lia. by apply Hcur. }
      assert (Hat : Exhaustive.board e1 !!! row = Z.of_nat c0).
      { simpl. apply list_lookup_total_insert_eq. lia. }
      assert (Hext : ∀ s, same_prefix row (Exhaustive.board e) s ->
                 s !!! row = Z.of_nat c0 ->
                 same_prefix (S row) (Exhaustive.board e1) s).
      { intros s Hs Hc i Hi. destruct (decide (i = row)) as [->|Hne].
        - by rewrite Hat.
        - simpl. rewrite list_lookup_total_insert_ne by lia.
          rewrite Hcur by lia. apply Hs. lia. }
      destruct (Exhaustive.solutionFound e2) eqn:Hf2.
      * exists e2. split; [done|]. unfold search_spec. rewrite Hf2.
        destruct Hres as (Hs2 & Hp2' & Hleast).
        assert (Hsame : same_prefix row (Exhaustive.board e) (Exhaustive.solution e2)).
        { intros i Hi. rewrite Hp2' by lia. simpl.
          rewrite list_lookup_total_insert_ne by lia. by apply Hcur. }
        split_and!; try done.
        intros s Hs Hp.
        destruct (decide (s !!! row = Z.of_nat c0)) as [Heq|Hne].
        -- apply Hleast; [done | by apply Hext].
        -- right. exists row. split.
           ++ intros i Hi. by rewrite Hsame, Hp.
           ++ rewrite (Hp2' row) by lia. rewrite Hat.
              pose proof (Hlow s Hs Hp). lia.
      * destruct Hres as (Hsol2 & Hnone).
        apply (IH (S c0) e2); try done; [lia | by rewrite Hsol2 |].
        intros s Hs Hp. pose proof (Hlow s Hs Hp).
        destruct (decide (s !!! row = Z.of_nat c0)) as [Heq|Hne]; [|lia].
        destruct (Hnone s Hs). by apply Hext.
    + apply (IH (S c0) ecur); try done; [lia|].
      intros s Hs Hp. pose proof (Hlow s Hs Hp).
      pose proof (unsafe_column ecur c0 s Hcur Hsafe Hs Hp). lia.
Qed.

End Search.

Lemma solveRecursive_spec depth : ∀ n row e,
  Exhaustive.n e = n -> length (Exhaustive.board e) = n ->
  Exhaustive.solutionFound e = false ->
  (row <= n)%nat -> (n - row <= depth)%nat ->
  placed n row (Exhaustive.board e) ->
  ∃ e', Exhaustive.solveRecursive depth e row = Some e' ∧ search_spec n row e e'.
Proof.
  induction depth as [|depth IH]; intros n row e Hn Hlen Hnf Hrow Hd Hpl.
  - assert (row = n) as -> by lia. simpl. rewrite Hnf, Hn.
    rewrite bool_decide_eq_true_2 by done.
    eexists; split; [done|]. by apply exhaustive_found_spec.
  - simpl. rewrite Hnf, Hn. case_bool_decide as Hc.
    + subst row. eexists; split; [done|]. by apply exhaustive_found_spec.
    + apply (try_columns_spec n row depth e); try done; try lia.
      * intros e1 H1 H2 H3 H4. apply IH; try done; lia.
      * intros s Hs _. apply (is_solution_lookup n s row Hs). lia.
Qed.

Lemma placed_0 n b : placed n 0 b.
Proof. split; [intros i Hi | intros i j Hi]; lia. Qed.

(** [Solve] on any solver with a board of length [n]. *)
Lemma exhaustive_Solve_spec e :
  length (Exhaustive.board e) = Exhaustive.n e ->
  ∃ e', Exhaustive.Solve e = Some (Exhaustive.solutionFound e', e')
        ∧ search_spec (Exhaustive.n e) 0 e e'.
Proof.
  intros Hlen. unfold Exhaustive.Solve.
  destruct (solveRecursive_spec (Exhaustive.n e) (Exhaustive.n e) 0%nat
              (Exhaustive.set_solutionFound e false))
    as (e' & Heq & Hspec); try done; try lia; [apply placed_0|].
  exists e'. simpl in *. by rewrite Heq.
Qed.

Lemma is_solution_NoDup n s : is_solution n s -> NoDup s.
Proof.
  intros [[Hl Hr] Hz]. apply NoDup_alt. intros i j x Hi Hj.
  destruct (decide (i = j)) as [|Hne]; [done|].
  pose proof (lookup_lt_Some _ _ _ Hi). pose proof (lookup_lt_Some _ _ _ Hj).
  destruct (Hz i j) as [Hrow _]; [lia..|done|].
  rewrite (list_lookup_total_correct _ _ _ Hi) in Hrow.
  by rewrite (list_lookup_total_correct _ _ _ Hj) in Hrow.
Qed.

Lemma is_solution_permutation n s : is_solution n s -> is_permutation n s.
Proof.
  intros Hs. pose proof (is_solution_NoDup n s Hs). destruct Hs as [[Hl Hr] _].
  by apply is_permutation_intro.
Qed.

(** Every column holds the queen of exactly one row. *)
Lemma is_solution_onto n s pos :
  is_solution n s -> (pos < n)%nat ->
  ∃ line : nat, (line < n)%nat ∧ s !!! line = Z.of_nat pos.
Proof.
  intros Hs Hpos. pose proof (is_solution_permutation n s Hs) as Hp.
  destruct Hs as [[Hl _] _].
  assert (Hin : Z.of_nat pos ∈ s).
  { unfold is_permutation in Hp. rewrite Hp. apply elem_of_seqZ. lia. }
  apply list_elem_of_lookup in Hin as [line Hline].
  exists line. split; [apply lookup_lt_Some in Hline; lia|].
  by apply list_lookup_total_correct.
Qed.

(** X1 ([exhaustive.go], [Solve]).  The exhaustive search always returns.
    Its result is the flag [solutionFound], and when it is [true] the
    board read by [GetSolution] is a permutation of [0 .. n-1] of which
    no two entries are on one diagonal. *)
Theorem exhaustive_search_is_sound (n : nat) :
  ∃ e', Exhaustive.Solve (Exhaustive.NewExhaustiveSearchSolver n)
        = Some (Exhaustive.solutionFound e', e')
      ∧ Exhaustive.n e' = n
      ∧ (Exhaustive.solutionFound e' = true ->
           length (Exhaustive.GetSolution e') = n
           ∧ is_permutation n (Exhaustive.GetSolution e')
           ∧ zero_conflict n (Exhaustive.GetSolution e')).
Proof.
  destruct (exhaustive_Solve_spec (Exhaustive.NewExhaustiveSearchSolver n))
    as (e' & Hs & Hn & _ & _ & Hres); [apply length_make|].
  exists e'. split; [done|]. split; [done|]. intros Hf. rewrite Hf in Hres.
  destruct Hres as (Hsol & _). pose proof Hsol as [[Hl Hr] Hz].
  split; [done|]. split; [by apply is_solution_permutation | done].
Qed.

(** X2 ([exhaustive.go], [Solve] and [solveRecursive]).  The exhaustive
    search is complete: it returns [true] exactly when the board of
    dimension [n] admits a placement of [n] queens that do not attack
    each other.  When it returns [false], [GetSolution] is still the
    empty slice of the constructor. *)
Theorem exhaustive_search_is_complete (n : nat) :
  ∃ e', Exhaustive.Solve (Exhaustive.NewExhaustiveSearchSolver n)
        = Some (Exhaustive.solutionFound e', e')
      ∧ (Exhaustive.solutionFound e' = true <-> ∃ s, is_solution n s)
      ∧ (Exhaustive.solutionFound e' = false -> Exhaustive.GetSolution e' = []).
Proof.
  destruct (exhaustive_Solve_spec (Exhaustive.NewExhaustiveSearchSolver n))
    as (e' & Hs & Hn & _ & _ & Hres); [apply length_make|].
  exists e'. split; [done|].
  destruct (Exhaustive.solutionFound e').
  - split; [|done]. split; [|done]. intros _. eexists. apply Hres.
  - destruct Hres as [Hsol Hnone]. split; [|done].
    split; [done|]. intros [s Hs']. destruct (Hnone s Hs'). intros i Hi. lia.
Qed.

(** X3 ([exhaustive.go], [solveRecursive]).  The search tries the columns
    of every row in increasing order and stops at the first complete
    placement, so the solution it stores is the least one in the
    lexicographic order: no solution of the problem comes before it. *)
Theorem exhaustive_search_returns_first_solution (n : nat) (s : list Z) :
  is_solution n s ->
  ∃ e', Exhaustive.Solve (Exhaustive.NewExhaustiveSearchSolver n)
        = Some (true, e')
      ∧ is_solution n (Exhaustive.GetSolution e')
      ∧ lex_le (Exhaustive.GetSolution e') s.
Proof.
  intros Hs.
  destruct (exhaustive_Solve_spec (Exhaustive.NewExhaustiveSearchSolver n))
    as (e' & Heq & Hn & _ & _ & Hres); [apply length_make|].
  exists e'. cbn [Exhaustive.n Exhaustive.NewExhaustiveSearchSolver] in *.
  destruct (Exhaustive.solutionFound e').
  - split; [done|]. destruct Hres as (Hsol & _ & Hleast).
    split; [done|]. apply Hleast; [done|]. intros i Hi. lia.
  - destruct Hres as [_ Hnone]. destruct (Hnone s Hs). intros i Hi. lia.
Qed.

Lemma is_solution_2031 : is_solution 4 [2; 0; 3; 1].
Proof.
  split; [split; [done|]|].
  - unfold in_range. repeat constructor; lia.
  - intros i j Hi Hj Hij.
    destruct i as [|[|[|[|i]]]]; [| | | |lia];
      (destruct j as [|[|[|[|j]]]]; [| | | |lia]);
      try done; split; by vm_compute.
Qed.

Lemma exhaustive_search_returns_first_solution_witness :
  ∃ e', Exhaustive.Solve (Exhaustive.NewExhaustiveSearchSolver 4)
        = Some (true, e')
      ∧ is_solution 4 (Exhaustive.GetSolution e')
      ∧ lex_le (Exhaustive.GetSolution e') [2; 0; 3; 1].
Proof.
  apply (exhaustive_search_returns_first_solution 4 [2; 0; 3; 1]).
  exact is_solution_2031.
Defined.

(** X4 ([exhaustive.go], [Solve], [isSafe]).  [Solve] does not depend on
    what an earlier search left in the solver: [solutionFound] is reset,
    and the rows of the board are written before they are read.  Two
    solvers of one dimension, whatever their boards hold, return the
    same result and store the same solution. *)
Theorem exhaustive_search_is_repeatable (e1 e2 : Exhaustive.ExhaustiveSearchSolver) :
  Exhaustive.n e1 = Exhaustive.n e2 ->
  length (Exhaustive.board e1) = Exhaustive.n e1 ->
  length (Exhaustive.board e2) = Exhaustive.n e2 ->
  ∃ e1' e2',
    Exhaustive.Solve e1 = Some (Exhaustive.solutionFound e1', e1')
    ∧ Exhaustive.Solve e2 = Some (Exhaustive.solutionFound e2', e2')
    ∧ Exhaustive.solutionFound e1' = Exhaustive.solutionFound e2'
    ∧ (Exhaustive.solutionFound e1' = true ->
         Exhaustive.GetSolution e1' = Exhaustive.GetSolution e2').
Proof.
  intros Hn H1 H2.
  destruct (exhaustive_Solve_spec e1 H1) as (e1' & Hs1 & _ & _ & _ & Hr1).
  destruct (exhaustive_Solve_spec e2 H2) as (e2' & Hs2 & _ & _ & _ & Hr2).
  rewrite <- Hn in Hr2.
  assert (Hany : ∀ b s : list Z, same_prefix 0 b s) by (intros b s i Hi; lia).
  exists e1', e2'. split; [done|]. split; [done|].
  destruct (Exhaustive.solutionFound e1'), (Exhaustive.solutionFound e2').
  - split; [done|]. intros _.
    destruct Hr1 as (Hsol1 & _ & Hleast1), Hr2 as (Hsol2 & _ & Hleast2).
    apply lex_le_antisym; [by apply Hleast1 | by apply Hleast2].
  - destruct Hr1 as (Hsol1 & _), Hr2 as (_ & Hnone). by destruct (Hnone _ Hsol1).
  - destruct Hr2 as (Hsol2 & _), Hr1 as (_ & Hnone). by destruct (Hnone _ Hsol2).
  - done.
Qed.

Lemma exhaustive_search_is_repeatable_witness :
  ∃ e1' e2',
    Exhaustive.Solve (Exhaustive.NewExhaustiveSearchSolver 4)
    = Some (Exhaustive.solutionFound e1', e1')
    ∧ Exhaustive.Solve
        (Exhaustive.Build 4 [3; 3; 3; 3] [1; 3; 0; 2] true)
      = Some (Exhaustive.solutionFound e2', e2')
    ∧ Exhaustive.solutionFound e1' = Exhaustive.solutionFound e2'
    ∧ (Exhaustive.solutionFound e1' = true ->
         Exhaustive.GetSolution e1' = Exhaustive.GetSolution e2').
Proof.
  apply (exhaustive_search_is_repeatable
           (Exhaustive.NewExhaustiveSearchSolver 4)
           (Exhaustive.Build 4 [3; 3; 3; 3] [1; 3; 0; 2] true));
    reflexivity.
Defined.

(** X5 ([exhaustive.go], [isSafe]).  [isSafe(row, col)] holds exactly when
    none of the queens of the rows before [row] is in column [col] or on
    a diagonal of the square [(row, col)].  It reads no entry of the
    board from [row] on, so what a search that was given up left there
    does not matter. *)
Theorem isSafe_tests_the_earlier_rows
    (e : Exhaustive.ExhaustiveSearchSolver) (row col : nat) :
  (Exhaustive.isSafe e row col = true
   <-> ∀ i : nat, (i < row)%nat ->
         Exhaustive.board e !!! i ≠ Z.of_nat col
         ∧ Z.abs (Exhaustive.board e !!! i - Z.of_nat col)
           ≠ Z.abs (Z.of_nat i - Z.of_nat row))
  ∧ ∀ e' : Exhaustive.ExhaustiveSearchSolver,
      same_prefix row (Exhaustive.board e) (Exhaustive.board e') ->
      Exhaustive.isSafe e' row col = Exhaustive.isSafe e row col.
Proof.
  split; [apply isSafe_spec|]. intros e' Hsame.
  apply eq_true_iff_eq. rewrite !isSafe_spec.
  split; intros Hall i Hi.
  - rewrite <- Hsame by done. by apply Hall.
  - rewrite Hsame by done. by apply Hall.
Qed.

(** X6 ([exhaustive.go], [PrintSolution]).  After a successful search
    [PrintSolution] prints a header, the board and an empty line, and
    leaves the solver as it is.  The board is the picture of the
    placement, row by row: line [row] has its marker at the cell
    [solution[row]], every line holds one marker and so does every cell
    position. *)
Theorem exhaustive_PrintSolution_draws_the_board (n : nat)
    (e' : Exhaustive.ExhaustiveSearchSolver) (stdout : string) :
  Exhaustive.Solve (Exhaustive.NewExhaustiveSearchSolver n) = Some (true, e') ->
  let rows := grid n (Exhaustive.GetSolution e') in
  Exhaustive.PrintSolution e' stdout
  = (e', stdout +:+ "Exhaustive Search Solution for N=" +:+ pretty n +:+ ":"
         +:+ newline +:+ render rows +:+ newline)
  ∧ chessboard n rows
  ∧ ∀ row : nat, (row < n)%nat ->
      ∃ col : nat, Exhaustive.GetSolution e' !!! row = Z.of_nat col
                   ∧ (rows !!! row) !!! col = "Q ".
Proof.
  intros Hsolve rows.
  destruct (exhaustive_Solve_spec (Exhaustive.NewExhaustiveSearchSolver n))
    as (e1 & Heq & Hn & _ & _ & Hres); [apply length_make|].
  rewrite Hsolve in Heq. injection Heq as Hf <-.
  cbn [Exhaustive.n Exhaustive.NewExhaustiveSearchSolver] in *.
  rewrite <- Hf in Hres. destruct Hres as (Hsol & _).
  assert (Hcol : ∀ row, (row < n)%nat ->
            ∃ col : nat, (col < n)%nat
              ∧ Exhaustive.solution e' !!! row = Z.of_nat col).
  { intros row Hrow. pose proof (is_solution_lookup n _ row Hsol Hrow) as Hr.
    exists (Z.to_nat (Exhaustive.solution e' !!! row)). split; lia. }
  split; [|split].
  - unfold Exhaustive.PrintSolution. rewrite <- Hf. cbn [negb].
    rewrite print_board_render, Hn. unfold Println, Print.
    by rewrite !string_app_assoc.
  - unfold chessboard, rows, Exhaustive.GetSolution. split_and!.
    + unfold grid. by rewrite length_fmap, length_seq.
    + intros line Hline. unfold grid.
      rewrite list_lookup_total_alt, list_lookup_fmap, lookup_seq_lt by done.
      simpl. by rewrite length_fmap, length_seq.
    + intros line Hline. destruct (Hcol line Hline) as (pos & Hpos & Heq).
      exists pos. split; [done|]. intros pos' Hpos'.
      rewrite grid_lookup by done. unfold cell. rewrite Heq.
      case_bool_decide; case_decide; try done; lia.
    + intros pos Hpos.
      destruct (is_solution_onto n _ pos Hsol Hpos) as (line & Hline & Heq).
      exists line. split; [done|]. intros line' Hline'.
      rewrite grid_lookup by done. unfold cell.
      case_bool_decide as Hc; case_decide as Hd; try done.
      * destruct Hd. apply (lookup_total_inj (Exhaustive.solution e'));
          [by apply (is_solution_NoDup n) | destruct Hsol as [[-> _] _]; lia..
          | congruence].
      * subst line'. done.
  - intros row Hrow. destruct (Hcol row Hrow) as (col & Hc & Heq).
    exists col. split; [done|]. unfold rows, Exhaustive.GetSolution.
    rewrite grid_lookup by done. unfold cell. by rewrite bool_decide_eq_true_2.
Qed.

Lemma exhaustive_PrintSolution_draws_the_board_witness :
  ∃ e', Exhaustive.Solve (Exhaustive.NewExhaustiveSearchSolver 4) = Some (true, e')
    ∧ let rows := grid 4 (Exhaustive.GetSolution e') in
      Exhaustive.PrintSolution e' ""
      = (e', "" +:+ "Exhaustive Search Solution for N=" +:+ pretty 4%nat +:+ ":"
             +:+ newline +:+ render rows +:+ newline)
      ∧ chessboard 4 rows
      ∧ ∀ row : nat, (row < 4)%nat ->
          ∃ col : nat, Exhaustive.GetSolution e' !!! row = Z.of_nat col
                       ∧ (rows !!! row) !!! col = "Q ".
Proof.
  eexists. split; [by vm_compute|].
  apply (exhaustive_PrintSolution_draws_the_board 4). by vm_compute.
Defined.

(** ** Genetic algorithm: evaluation, elitism and selection *)

Lemma calculateFitness_n ga ga' c :
  GA.n ga' = GA.n ga -> GA.calculateFitness ga' c = GA.calculateFitness ga c.
Proof. intros Hn. unfold GA.calculateFitness. by rewrite Hn. Qed.

(** The evaluation loop recomputes the fitness of every individual, in
    place. *)
Lemma evaluate_loop ga k :
  (k <= length (GA.population ga))%nat ->
  foldl (fun ga i =>
           let p := GA.population ga in
           GA.set_population ga
             (<[i := GA.Indiv (GA.chromosome (p !!! i))
                              (GA.calculateFitness ga (GA.chromosome (p !!! i)))]> p))
        ga (seq 0 k)
  = GA.set_population ga
      ((reevaluate ga <$> take k (GA.population ga)) ++ drop k (GA.population ga)).
Proof.
  induction k as [|k IH]; intros Hk.
  { simpl. by destruct ga. }
  rewrite seq_S, foldl_app, IH by lia. cbn [foldl Nat.add]. cbv zeta.
  cbn [GA.set_population GA.population]. unfold GA.set_population at 1.
  cbn [GA.n GA.populationSize GA.maxGenerations GA.mutationRate GA.crossoverRate
       GA.solution GA.solved GA.restarts]. unfold GA.set_population. f_equal.
  assert (Hlt : (k < length (GA.population ga))%nat) by lia.
  destruct (lookup_lt_is_Some_2 _ _ Hlt) as [x Hx].
  assert (Hlen : length (reevaluate ga <$> take k (GA.population ga)) = k).
  { rewrite length_fmap, length_take. lia. }
  rewrite lookup_total_app_r by lia. rewrite Hlen, Nat.sub_diag.
  rewrite insert_app_r_alt by lia. rewrite Hlen, Nat.sub_diag.
  rewrite (drop_S _ x k Hx). cbn [list_lookup_total lookup_total].
  rewrite (take_S_r _ k x Hx), fmap_app, <- app_assoc. simpl.
  do 2 f_equal.
Qed.

Lemma evaluatePopulation_eq sortSlice ga :
  length (GA.population ga) = GA.populationSize ga ->
  GA.evaluatePopulation sortSlice ga
  = GA.set_population ga (sortSlice GA.less (reevaluate ga <$> GA.population ga)).
Proof.
  intros Hl. unfold GA.evaluatePopulation. rewrite <- Hl, evaluate_loop by done.
  rewrite take_ge, drop_ge, app_nil_r by done. done.
Qed.

Global Instance not_after_less_trans : Transitive (not_after GA.less).
Proof.
  intros a b c. unfold not_after, GA.less. rewrite !Z.ltb_ge. lia.
Qed.

Global Instance not_after_less_total : Total (not_after GA.less).
Proof.
  intros a b. unfold not_after, GA.less. rewrite !Z.ltb_ge. lia.
Qed.

Lemma merge_sortSlice_sorts : sorts_by_fitness merge_sortSlice.
Proof.
  intros l. split; [apply merge_sortSlice_perm|].
  unfold merge_sortSlice. apply Sorted_merge_sort. apply _.
Qed.

(** The first individual of a sorted slice has the least fitness. *)
Lemma sorted_head_least (l : list GA.Individual) x :
  Sorted (not_after GA.less) l -> x ∈ l -> GA.fitness (l !!! 0%nat) <= GA.fitness x.
Proof.
  intros Hs Hx. apply (Sorted_StronglySorted _) in Hs.
  destruct l as [|y l]; [by apply elem_of_nil in Hx|].
  apply StronglySorted_inv in Hs as [_ Hall].
  apply elem_of_cons in Hx as [->|Hx]; [done|].
  rewrite Forall_forall in Hall. specialize (Hall x Hx).
  unfold not_after, GA.less in Hall. apply Z.ltb_ge in Hall. exact Hall.
Qed.

Lemma evaluatePopulation_spec sortSlice ga :
  sorts_by_fitness sortSlice ->
  length (GA.population ga) = GA.populationSize ga ->
  let ga' := GA.evaluatePopulation sortSlice ga in
  ga' = GA.set_population ga (GA.population ga')
  ∧ GA.population ga' ≡ₚ reevaluate ga <$> GA.population ga
  ∧ (∀ x, x ∈ GA.population ga' ->
       GA.fitness x = GA.calculateFitness ga (GA.chromosome x))
  ∧ (∀ x, x ∈ GA.population ga' ->
       GA.fitness (GA.population ga' !!! 0%nat) <= GA.fitness x).
Proof.
  intros Hsort Hl. cbv zeta. rewrite evaluatePopulation_eq by done.
  cbn [GA.set_population GA.population].
  destruct (Hsort (reevaluate ga <$> GA.population ga)) as [Hperm Hsorted].
  split_and!; [done | done | |].
  - intros x Hx. rewrite Hperm in Hx.
    apply list_elem_of_fmap in Hx as (y & -> & _). done.
  - intros x Hx. by apply sorted_head_least.
Qed.

(** *** Elitism *)

Lemma breed_fitness ga r : GA.fitness (GA.breed ga r).1 = 0.
Proof.
  unfold GA.breed. destruct (Rand.Float64 r) as [u r0].
  destruct (u <? GA.crossoverRate ga)%float.
  - destruct (GA.tournamentSelection ga r0) as [parent1 r1].
    destruct (GA.tournamentSelection ga r1) as [parent2 r2].
    destruct (GA.smartCrossover ga parent1 parent2 r2) as [child r3].
    destruct (Rand.Float64 r3) as [u' r4].
    destruct (u' <? GA.mutationRate ga)%float; [|done].
    by destruct (GA.smartMutation ga child r4).
  - destruct (GA.tournamentSelection ga r0) as [parent r1].
    destruct (Rand.Float64 r1) as [u' r2].
    destruct (u' <? GA.mutationRate ga)%float; [|done].
    by destruct (GA.smartMutation ga _ r2).
Qed.

Lemma eliteSize_bounds ga : (2 <= GA.eliteSize ga <= 10)%nat.
Proof. unfold GA.eliteSize. repeat case_bool_decide; lia. Qed.

Lemma createNewGeneration_spec n ga r :
  ga_ok n ga ->
  let newPopulation := (GA.createNewGeneration ga r).1 in
  length newPopulation = GA.populationSize ga
  ∧ (∀ i : nat, (i < GA.eliteSize ga)%nat ->
       newPopulation !!! i = GA.population ga !!! i)
  ∧ (∀ i : nat, (GA.eliteSize ga <= i < GA.populationSize ga)%nat ->
       GA.fitness (newPopulation !!! i) = 0).
Proof.
  intros [(Hga & Hsize & Hlen) Hall].
  pose proof (eliteSize_le ga Hsize) as Helite.
  unfold GA.createNewGeneration. cbv zeta.
  pose proof (foldl_seq_invariant
    (fun k (p : list GA.Individual) =>
       length p = GA.populationSize ga
       ∧ ∀ i : nat, (i < k)%nat -> p !!! i = GA.population ga !!! i)
    (fun newPopulation i =>
       <[i := GA.Indiv (copy (make (GA.n ga)) (GA.chromosome (GA.population ga !!! i)))
                       (GA.fitness (GA.population ga !!! i))]> newPopulation)
    0 (GA.eliteSize ga) (replicate (GA.populationSize ga) inhabitant)) as Hloop1.
  destruct Hloop1 as [Hlen1 Hkeep1].
  { split; [apply length_replicate|intros; lia]. }
  { intros k p Hk [Hp Hpre]. split; [by rewrite length_insert|].
    intros i Hi. destruct (decide (i = k)) as [->|Hne].
    - rewrite list_lookup_total_insert_eq by lia.
      assert (Hk' : (k < length (GA.population ga))%nat) by lia.
      pose proof (Forall_lookup_total_1 _ _ k Hall Hk') as [Hcl _].
      rewrite Hga, copy_make by done. by destruct (GA.population ga !!! k).
    - rewrite list_lookup_total_insert_ne by done. apply Hpre. lia. }
  set (elite := foldl _ (replicate (GA.populationSize ga) inhabitant)
                  (seq 0 (GA.eliteSize ga))) in *.
  cbn [Nat.add] in Hkeep1.
  pose proof (foldl_seq_invariant
    (fun k (s : list GA.Individual * Rand.t) =>
       length s.1 = GA.populationSize ga
       ∧ (∀ i : nat, (i < GA.eliteSize ga)%nat ->
            s.1 !!! i = GA.population ga !!! i)
       ∧ (∀ i : nat, (GA.eliteSize ga <= i < k)%nat -> GA.fitness (s.1 !!! i) = 0))
    (fun '(newPopulation, r) i =>
       let '(child, r) := GA.breed ga r in (<[i := child]> newPopulation, r))
    (GA.eliteSize ga) (GA.populationSize ga - GA.eliteSize ga) (elite, r)) as Hloop2.
  replace (GA.eliteSize ga + (GA.populationSize ga - GA.eliteSize ga))%nat
    with (GA.populationSize ga) in Hloop2 by lia.
  apply Hloop2; clear Hloop2.
  { split; [done|]. split; [done|]. intros; lia. }
  intros k [p r'] Hk (Hp & Hpre & Hzero). cbn [fst] in *.
  pose proof (breed_fitness ga r') as Hchild.
  destruct (GA.breed ga r') as [child r'']. cbn [fst] in *.
  split; [by rewrite length_insert|]. split.
  - intros i Hi. rewrite list_lookup_total_insert_ne by lia. by apply Hpre.
  - intros i Hi. destruct (decide (i = k)) as [->|Hne].
    + by rewrite list_lookup_total_insert_eq by lia.
    + rewrite list_lookup_total_insert_ne by done. apply Hzero. lia.
Qed.

(** *** The adaptive reset *)

Lemma initializeIndividual_population ga index r :
  ∃ c, (GA.initializeIndividual ga index r).1
       = GA.set_population ga (<[index := GA.Indiv c 0]> (GA.population ga)).
Proof.
  unfold GA.initializeIndividual. destruct (Rand.Perm (GA.n ga) r) as [perm r'].
  by eexists.
Qed.

Lemma adapt_keeps_front ga g r i :
  (i < GA.populationSize ga * 4 / 5)%nat ->
  GA.population (GA.adapt ga g r).1 !!! i = GA.population ga !!! i.
Proof.
  intros Hi. unfold GA.adapt. destruct (g >? 20); [|done].
  apply (foldl_invariant
           (fun s : GA.GeneticSolver * Rand.t =>
              GA.population s.1 !!! i = GA.population ga !!! i)); [done|].
  intros [ga' r'] j Hj Hkeep. apply elem_of_seq in Hj. cbn [fst] in *.
  destruct (initializeIndividual_population ga' j r') as [c ->].
  cbn [GA.set_population GA.set_mutationRate GA.population GA.populationSize] in *.
  rewrite list_lookup_total_insert_ne by lia. done.
Qed.

(** *** Tournament selection *)

Lemma picks_S ga r k :
  picks ga r (S k)
  = picks ga r k
    ++ [GA.population ga
          !!! (Rand.d_int (Rand.tape r (Rand.cursor r + N.of_nat k)%N)
               `mod` GA.populationSize ga)%nat].
Proof. unfold picks. by rewrite seq_S, fmap_app. Qed.

Lemma tournamentSelection_spec ga r :
  (0 < GA.populationSize ga)%nat ->
  let k := Nat.min 5 (GA.populationSize ga) in
  let res := GA.tournamentSelection ga r in
  res.1 ∈ picks ga r k
  ∧ (∀ x, x ∈ picks ga r k -> GA.fitness res.1 <= GA.fitness x)
  ∧ res.2 = advance r k.
Proof.
  intros Hpos. cbv zeta.
  set (k := Nat.min 5 (GA.populationSize ga)).
  assert (Hk : (if bool_decide (GA.populationSize ga < 5)%nat
                then GA.populationSize ga else 5%nat) = k).
  { unfold k. case_bool_decide; lia. }
  assert (Heq : GA.tournamentSelection ga r
    = foldl (fun '(best, r) (i : nat) =>
               let '(k, r) := Rand.Intn (GA.populationSize ga) r in
               let candidate := GA.population ga !!! k in
               if GA.fitness candidate <? GA.fitness best then (candidate, r)
               else (best, r))
            (GA.population ga
               !!! (Rand.d_int (Rand.tape r (Rand.cursor r + N.of_nat 0)%N)
                    `mod` GA.populationSize ga)%nat,
             advance r 1) (seq 1 (k - 1))).
  { unfold GA.tournamentSelection. rewrite Hk.
    rewrite <- (advance_0 r) at 1. by rewrite Intn_advance. }
  rewrite Heq. clear Heq.
  pose proof (foldl_seq_invariant
    (fun i (s : GA.Individual * Rand.t) =>
       s.1 ∈ picks ga r i
       ∧ (∀ x, x ∈ picks ga r i -> GA.fitness s.1 <= GA.fitness x)
       ∧ s.2 = advance r i)
    (fun '(best, r) (i : nat) =>
       let '(k, r) := Rand.Intn (GA.populationSize ga) r in
       let candidate := GA.population ga !!! k in
       if GA.fitness candidate <? GA.fitness best then (candidate, r)
       else (best, r))
    1 (k - 1)
    (GA.population ga
       !!! (Rand.d_int (Rand.tape r (Rand.cursor r + N.of_nat 0)%N)
            `mod` GA.populationSize ga)%nat,
     advance r 1)) as Hloop.
  replace (1 + (k - 1))%nat with k in Hloop by (unfold k; lia).
  apply Hloop; clear Hloop.
  - cbn [fst snd]. rewrite (picks_S ga r 0). cbn [picks fmap list_fmap seq app].
    split; [left|]. split; [|done]. intros x Hx.
    apply list_elem_of_singleton in Hx as ->. lia.
  - intros i [best r'] Hi (Hin & Hleast & Hr). cbn [fst snd] in *. subst r'.
    rewrite Intn_advance, picks_S. cbv zeta.
    set (candidate := GA.population ga !!! _).
    destruct (Z.ltb_spec (GA.fitness candidate) (GA.fitness best)) as [Hlt|Hge];
      cbn [fst snd].
    + split; [apply elem_of_app; right; left|]. split; [|done].
      intros x Hx. apply elem_of_app in Hx as [Hx|Hx].
      * specialize (Hleast x Hx). lia.
      * apply list_elem_of_singleton in Hx as ->. lia.
    + split; [apply elem_of_app; by left|]. split; [|done].
      intros x Hx. apply elem_of_app in Hx as [Hx|Hx]; [by apply Hleast|].
      apply list_elem_of_singleton in Hx as ->. lia.
Qed.

(** ** [rand.Perm] *)

Lemma insert_swap_out (l : list Z) j x :
  (j < length l)%nat -> <[j := x]> l ++ [l !!! j] ≡ₚ l ++ [x].
Proof.
  intros Hj. destruct (lookup_lt_is_Some_2 _ _ Hj) as [y Hy].
  rewrite (list_lookup_total_correct _ _ _ Hy).
  rewrite insert_take_drop by done.
  rewrite <- (take_drop_middle l j y Hy) at 3.
  rewrite <- !app_assoc. apply Permutation_app_head. cbn [app].
  rewrite (Permutation_app_comm (drop (S j) l) [y]).
  rewrite (Permutation_app_comm (drop (S j) l) [x]). cbn [app].
  apply perm_swap.
Qed.

Lemma Perm_permutation n r : is_permutation n (Rand.Perm n r).1.
Proof.
  unfold Rand.Perm, is_permutation.
  pose proof (foldl_seq_invariant
    (fun i (s : list Z * Rand.t) =>
       length s.1 = n ∧ take i s.1 ≡ₚ seqZ 0 (Z.of_nat i))
    (fun '(m, r) i =>
       let '(j, r) := Rand.Intn (S i) r in
       let m := <[i := m !!! j]> m in
       let m := <[j := Z.of_nat i]> m in
       (m, r))
    0 n (replicate n 0, r)) as Hloop.
  cbn [Nat.add] in Hloop. destruct Hloop as [Hlen Hperm].
  - cbn [fst]. split; [apply length_replicate|done].
  - intros i [m r'] Hi [Hlen Hperm]. cbn [fst] in *.
    pose proof (Intn_lt (S i) r') as Hj.
    destruct (Rand.Intn (S i) r') as [j r'']. cbn [fst] in *.
    specialize (Hj ltac:(lia)).
    split; [by rewrite !length_insert|].
    rewrite seqZ_S, Z.add_0_l.
    destruct (decide (j = i)) as [->|Hne].
    + rewrite list_insert_insert_eq.
      rewrite (take_S_r _ i (Z.of_nat i)) by (apply list_lookup_insert_eq; lia).
      rewrite take_insert_ge by lia. by rewrite Hperm.
    + rewrite take_insert_lt by lia.
      rewrite (take_S_r _ i (m !!! j)) by (apply list_lookup_insert_eq; lia).
      rewrite take_insert_ge by lia.
      rewrite insert_app_l by (rewrite length_take; lia).
      rewrite <- (lookup_total_take_lt m i j) by lia.
      rewrite insert_swap_out by (rewrite length_take; lia).
      by rewrite Hperm.
  - rewrite take_ge in Hperm by lia. done.
Qed.

Lemma first_population_ok : ga_ok 4 first_population.
Proof.
  apply initializePopulation_ok; [lia|apply ga_new_shape].
Qed.

(** X7 ([genetic.go], [createNewGeneration]).  Elitism: the new
    generation has [populationSize] individuals; its first [eliteSize]
    ones, between 2 and 10 of them, are those of the old population,
    chromosome and cached fitness alike, at the same indices; every other
    slot holds a child whose cached fitness is 0. *)
Theorem elite_is_carried_over (n : nat) (ga : GA.GeneticSolver) (r : Rand.t) :
  ga_ok n ga ->
  let newPopulation := (GA.createNewGeneration ga r).1 in
  (2 <= GA.eliteSize ga <= 10)%nat
  ∧ length newPopulation = GA.populationSize ga
  ∧ (∀ i : nat, (i < GA.eliteSize ga)%nat ->
       newPopulation !!! i = GA.population ga !!! i)
  ∧ (∀ i : nat, (GA.eliteSize ga <= i < GA.populationSize ga)%nat ->
       GA.fitness (newPopulation !!! i) = 0).
Proof.
  intros Hok. split; [apply eliteSize_bounds|].
  by apply (createNewGeneration_spec n).
Qed.

Lemma elite_is_carried_over_witness :
  let newPopulation :=
    (GA.createNewGeneration first_population (Rand.Source alternating_tape 0)).1 in
  (2 <= GA.eliteSize first_population <= 10)%nat
  ∧ length newPopulation = GA.populationSize first_population
  ∧ (∀ i : nat, (i < GA.eliteSize first_population)%nat ->
       newPopulation !!! i = GA.population first_population !!! i)
  ∧ (∀ i : nat,
       (GA.eliteSize first_population <= i < GA.populationSize first_population)%nat ->
       GA.fitness (newPopulation !!! i) = 0).
Proof.
  apply (elite_is_carried_over 4 first_population (Rand.Source alternating_tape 0)).
  exact first_population_ok.
Defined.

(** X8 ([genetic.go], [evaluatePopulation]).  When [sort.Slice] sorts,
    [evaluatePopulation] keeps the chromosomes, recomputes the fitness of
    every individual, and puts an individual of least fitness first; the
    other fields of the solver are not changed. *)
Theorem evaluatePopulation_refreshes_and_sorts
    (sortSlice : (GA.Individual -> GA.Individual -> bool) ->
                 list GA.Individual -> list GA.Individual)
    (ga : GA.GeneticSolver) :
  sorts_by_fitness sortSlice ->
  length (GA.population ga) = GA.populationSize ga ->
  let ga' := GA.evaluatePopulation sortSlice ga in
  ga' = GA.set_population ga (GA.population ga')
  ∧ GA.population ga' ≡ₚ reevaluate ga <$> GA.population ga
  ∧ (∀ x, x ∈ GA.population ga' ->
       GA.fitness x = GA.calculateFitness ga (GA.chromosome x))
  ∧ (∀ x, x ∈ GA.population ga' ->
       GA.fitness (GA.population ga' !!! 0%nat) <= GA.fitness x).
Proof. apply evaluatePopulation_spec. Qed.

Lemma evaluatePopulation_refreshes_and_sorts_witness :
  let ga' := GA.evaluatePopulation merge_sortSlice first_population in
  ga' = GA.set_population first_population (GA.population ga')
  ∧ GA.population ga' ≡ₚ reevaluate first_population <$> GA.population first_population
  ∧ (∀ x, x ∈ GA.population ga' ->
       GA.fitness x = GA.calculateFitness first_population (GA.chromosome x))
  ∧ (∀ x, x ∈ GA.population ga' ->
       GA.fitness (GA.population ga' !!! 0%nat) <= GA.fitness x).
Proof.
  apply (evaluatePopulation_refreshes_and_sorts merge_sortSlice first_population).
  - exact merge_sortSlice_sorts.
  - by vm_compute.
Defined.

(** X9 ([genetic.go], [singleRun], [createNewGeneration]).  The best
    fitness never gets worse from one generation to the next: the best
    individual is among the elite, the adaptive reset leaves it alone,
    and the next evaluation finds it again. *)
Theorem best_fitness_never_worsens
    (sortSlice : (GA.Individual -> GA.Individual -> bool) ->
                 list GA.Individual -> list GA.Individual)
    (n : nat) (ga : GA.GeneticSolver)
    (generationsWithoutImprovement bestFitnessEver : Z) (r : Rand.t)
    (ga' : GA.GeneticSolver) (g' b' : Z) (r' : Rand.t) :
  sorts_by_fitness sortSlice ->
  (0 < n)%nat -> ga_ok n ga ->
  GA.generation sortSlice ga generationsWithoutImprovement bestFitnessEver r
  = GA.Continue ga' g' b' r' ->
  currentBest sortSlice ga' <= currentBest sortSlice ga.
Proof.
  intros Hsort Hn Hok Hgen. unfold currentBest.
  pose proof Hok as [(Hga & Hsize & Hlen) _].
  destruct (evaluatePopulation_spec sortSlice ga Hsort Hlen)
    as (Heq1 & Hperm1 & Hfresh1 & _).
  assert (Hok1 : ga_ok n (GA.evaluatePopulation sortSlice ga)).
  { rewrite Heq1. pose proof Hok as [Hshape Hall]. split.
    - unfold ga_shape. cbn [GA.set_population GA.n GA.populationSize GA.population].
      rewrite Hperm1, length_fmap. done.
    - cbn [GA.set_population GA.population]. rewrite Hperm1.
      apply Forall_fmap. eapply Forall_impl; [exact Hall|]. by intros x Hx. }
  set (ga1 := GA.evaluatePopulation sortSlice ga) in *.
  unfold GA.generation, GA.before_selection in Hgen. fold ga1 in Hgen.
  destruct (GA.fitness (GA.population ga1 !!! 0%nat) =? 0); [done|].
  destruct (GA.track _ bestFitnessEver generationsWithoutImprovement) as [b g].
  destruct (g >? 50); [done|].
  pose proof (adapt_ok n ga1 g r Hn Hok1) as Hok2.
  pose proof Hok1 as [(Hga1 & Hsize1 & Hlen1) _].
  assert (H0 : (0 < GA.populationSize ga1 * 4 / 5)%nat).
  { apply Nat.div_str_pos. lia. }
  pose proof (adapt_keeps_front ga1 g r 0 H0) as Hfront.
  destruct (GA.adapt ga1 g r) as [ga2 r2]. cbn [fst] in *.
  pose proof (createNewGeneration_spec n ga2 r2 Hok2) as Hnew. cbv zeta in Hnew.
  destruct (GA.createNewGeneration ga2 r2) as [newPopulation r3]. cbn [fst] in *.
  injection Hgen as <- _ _ _.
  destruct Hnew as (Hlen3 & Helite & _).
  pose proof (eliteSize_bounds ga2) as Hbounds.
  pose proof (Helite 0%nat ltac:(lia)) as Hfirst. rewrite Hfront in Hfirst.
  pose proof Hok2 as [(Hga2 & Hsize2 & Hlen2) _].
  destruct (evaluatePopulation_spec sortSlice (GA.set_population ga2 newPopulation)
              Hsort)
    as (_ & Hperm3 & _ & Hleast3); [done|].
  set (best := GA.population ga1 !!! 0%nat) in *.
  assert (Hin : reevaluate (GA.set_population ga2 newPopulation) best
                ∈ GA.population
                    (GA.evaluatePopulation sortSlice
                       (GA.set_population ga2 newPopulation))).
  { rewrite Hperm3. apply list_elem_of_fmap. exists best. split; [done|].
    cbn [GA.set_population GA.population]. rewrite <- Hfirst.
    apply list_elem_of_lookup_total_2. lia. }
  etrans; [apply (Hleast3 _ Hin)|].
  unfold reevaluate. cbn [GA.fitness GA.chromosome].
  rewrite (Hfresh1 best) by (apply list_elem_of_lookup_total_2; lia).
  rewrite (calculateFitness_n ga); [done|].
  cbn [GA.set_population GA.n]. congruence.
Qed.

Lemma best_fitness_never_worsens_witness :
  ∃ ga' g' b' r',
    GA.generation merge_sortSlice first_population 0 16
      (Rand.Source alternating_tape 0)
    = GA.Continue ga' g' b' r'
    ∧ currentBest merge_sortSlice ga' <= currentBest merge_sortSlice first_population.
Proof.
  assert (Hgen : ∃ ga' g' b' r',
            GA.generation merge_sortSlice first_population 0 16
              (Rand.Source alternating_tape 0)
            = GA.Continue ga' g' b' r').
  { vm_compute. do 4 eexists. reflexivity. }
  destruct Hgen as (ga' & g' & b' & r' & Hgen).
  exists ga', g', b', r'. split; [exact Hgen|].
  apply (best_fitness_never_worsens merge_sortSlice 4 first_population 0 16
           (Rand.Source alternating_tape 0) ga' g' b' r');
    [exact merge_sortSlice_sorts | lia | exact first_population_ok | exact Hgen].
Defined.

(** X10 ([genetic.go], [tournamentSelection]).  The tournament draws
    [min(5, populationSize)] indices, one call of [rand.Intn] each, and
    returns an individual of least cached fitness among the individuals
    at those indices. *)
Theorem tournament_returns_the_best_pick (ga : GA.GeneticSolver) (r : Rand.t) :
  (0 < GA.populationSize ga)%nat ->
  let k := Nat.min 5 (GA.populationSize ga) in
  let res := GA.tournamentSelection ga r in
  res.1 ∈ picks ga r k
  ∧ (∀ x, x ∈ picks ga r k -> GA.fitness res.1 <= GA.fitness x)
  ∧ res.2 = advance r k.
Proof. apply tournamentSelection_spec. Qed.

Lemma tournament_returns_the_best_pick_witness :
  let k := Nat.min 5 (GA.populationSize first_population) in
  let res := GA.tournamentSelection first_population (Rand.Source alternating_tape 0) in
  res.1 ∈ picks first_population (Rand.Source alternating_tape 0) k
  ∧ (∀ x, x ∈ picks first_population (Rand.Source alternating_tape 0) k ->
       GA.fitness res.1 <= GA.fitness x)
  ∧ res.2 = advance (Rand.Source alternating_tape 0) k.
Proof.
  apply (tournament_returns_the_best_pick first_population
           (Rand.Source alternating_tape 0)).
  vm_compute. lia.
Defined.

(** ** Boards that are permutations *)

Lemma exchanged_Permutation b pos1 pos2 :
  (pos1 < length b)%nat -> (pos2 < length b)%nat -> exchanged b pos1 pos2 ≡ₚ b.
Proof.
  intros H1 H2. apply Permutation_insert_swap; by apply list_lookup_lookup_total_lt.
Qed.

Lemma initializeIndividual_eq ga index r :
  ∃ c r', GA.initializeIndividual ga index r
          = (GA.set_population ga (<[index := GA.Indiv c 0]> (GA.population ga)), r')
        ∧ is_permutation (GA.n ga) c.
Proof.
  unfold GA.initializeIndividual.
  pose proof (Perm_permutation (GA.n ga) r) as Hp.
  destruct (Rand.Perm (GA.n ga) r) as [perm r']. cbn [fst] in Hp.
  exists perm, r'. split; [|done].
  rewrite copy_make; [done|]. by apply is_permutation_facts in Hp as [Hl _].
Qed.

(** A loop of [initializeIndividual] over the indices [lo, lo + cnt)
    replaces the individuals at these indices by fresh ones and leaves
    the others. *)
Lemma initialize_loop ga r lo cnt :
  (lo + cnt <= length (GA.population ga))%nat ->
  let res := foldl (fun '(ga, r) i => GA.initializeIndividual ga i r)
                   (ga, r) (seq lo cnt) in
  res.1 = GA.set_population ga (GA.population res.1)
  ∧ length (GA.population res.1) = length (GA.population ga)
  ∧ (∀ i : nat, (i < lo ∨ lo + cnt <= i)%nat ->
       GA.population res.1 !!! i = GA.population ga !!! i)
  ∧ (∀ i : nat, (lo <= i < lo + cnt)%nat ->
       fresh_individual (GA.n ga) (GA.population res.1 !!! i)).
Proof.
  intros Hle. cbv zeta.
  pose proof (foldl_seq_invariant
    (fun k (s : GA.GeneticSolver * Rand.t) =>
       s.1 = GA.set_population ga (GA.population s.1)
       ∧ length (GA.population s.1) = length (GA.population ga)
       ∧ (∀ i : nat, (i < lo ∨ k <= i)%nat ->
            GA.population s.1 !!! i = GA.population ga !!! i)
       ∧ (∀ i : nat, (lo <= i < k)%nat ->
            fresh_individual (GA.n ga) (GA.population s.1 !!! i)))
    (fun '(ga, r) i => GA.initializeIndividual ga i r) lo cnt (ga, r)) as Hloop.
  apply Hloop; clear Hloop.
  - cbn [fst]. split; [by destruct ga|]. split; [done|]. split; [done|]. intros; lia.
  - intros k [ga' r'] Hk (Heq & Hlen & Hout & Hin). cbn [fst] in *.
    destruct (initializeIndividual_eq ga' k r') as (c & r'' & -> & Hc).
    cbn [fst GA.set_population GA.population]. rewrite Heq in Hc |- *.
    cbn [GA.set_population GA.n GA.population] in *.
    split; [done|]. split; [by rewrite length_insert|]. split.
    + intros i Hi. rewrite list_lookup_total_insert_ne by lia. apply Hout. lia.
    + intros i Hi. destruct (decide (i = k)) as [->|Hne].
      * rewrite list_lookup_total_insert_eq by lia. done.
      * rewrite list_lookup_total_insert_ne by done. apply Hin. lia.
Qed.

(** X11 ([simulated_annealing.go], [smartInit]).  Every run of simulated
    annealing starts from a permutation of [0 .. n-1]: the board has one
    queen in every column and in every row, so that only diagonal
    conflicts are left.  The other fields of the solver are not
    changed. *)
Theorem smartInit_places_a_permutation (sa : SA.SimulatedAnnealingSolver)
    (r : Rand.t) :
  length (SA.board sa) = SA.n sa ->
  let sa' := (SA.smartInit sa r).1 in
  sa' = SA.set_board sa (SA.board sa')
  ∧ is_permutation (SA.n sa) (SA.board sa')
  ∧ ∀ i j : nat, (i < SA.n sa)%nat -> (j < SA.n sa)%nat -> i ≠ j ->
      SA.board sa' !!! i ≠ SA.board sa' !!! j.
Proof.
  intros Hl. cbv zeta. unfold SA.smartInit.
  pose proof (Perm_permutation (SA.n sa) r) as Hp.
  destruct (Rand.Perm (SA.n sa) r) as [perm r']. cbn [fst] in *.
  cbn [SA.set_board SA.board].
  destruct (is_permutation_facts _ _ Hp) as (Hlen & Hnd & _).
  rewrite copy_same_length by congruence.
  split; [done|]. split; [done|]. intros i j Hi Hj Hij Heq. apply Hij.
  apply (lookup_total_inj perm); [done|lia..|done].
Qed.

Lemma smartInit_places_a_permutation_witness :
  let sa := SA.NewSimulatedAnnealingSolver 4 in
  let sa' := (SA.smartInit sa (Rand.Source alternating_tape 0)).1 in
  sa' = SA.set_board sa (SA.board sa')
  ∧ is_permutation (SA.n sa) (SA.board sa')
  ∧ ∀ i j : nat, (i < SA.n sa)%nat -> (j < SA.n sa)%nat -> i ≠ j ->
      SA.board sa' !!! i ≠ SA.board sa' !!! j.
Proof.
  apply (smartInit_places_a_permutation (SA.NewSimulatedAnnealingSolver 4)
           (Rand.Source alternating_tape 0)).
  reflexivity.
Defined.

(** X12 ([genetic.go], [initializePopulation], [initializeIndividual]).
    A run of the genetic algorithm starts from [populationSize] fresh
    individuals: every chromosome is a permutation of [0 .. n-1], and
    every cached fitness is 0 until the first evaluation. *)
Theorem initializePopulation_fills_with_permutations (ga : GA.GeneticSolver)
    (r : Rand.t) :
  length (GA.population ga) = GA.populationSize ga ->
  let ga' := (GA.initializePopulation ga r).1 in
  ga' = GA.set_population ga (GA.population ga')
  ∧ length (GA.population ga') = GA.populationSize ga
  ∧ Forall (fresh_individual (GA.n ga)) (GA.population ga').
Proof.
  intros Hl. cbv zeta. unfold GA.initializePopulation.
  destruct (initialize_loop ga r 0 (GA.populationSize ga)) as (Heq & Hlen & _ & Hin);
    [lia|].
  split; [done|]. split; [congruence|].
  apply Forall_lookup. intros i x Hi.
  pose proof (lookup_lt_Some _ _ _ Hi) as Hlt.
  rewrite <- (list_lookup_total_correct _ _ _ Hi). apply Hin. lia.
Qed.

Lemma initializePopulation_fills_with_permutations_witness :
  let ga := GA.NewGeneticSolver 4 in
  let ga' := (GA.initializePopulation ga (Rand.Source alternating_tape 0)).1 in
  ga' = GA.set_population ga (GA.population ga')
  ∧ length (GA.population ga') = GA.populationSize ga
  ∧ Forall (fresh_individual (GA.n ga)) (GA.population ga').
Proof.
  apply (initializePopulation_fills_with_permutations (GA.NewGeneticSolver 4)
           (Rand.Source alternating_tape 0)).
  reflexivity.
Defined.

(** X13 ([genetic.go], [singleRun], lines 479 to 488).  The adaptive
    step.  Up to 20 generations without improvement it sets the mutation
    rate to 0.15 and leaves the population alone.  Beyond 20 it sets the
    rate to 0.3 and replaces the individuals from index
    [populationSize * 4 / 5] on by fresh random permutations whose cached
    fitness is 0; the individuals before that index stay as they are. *)
Theorem adaptive_step_replaces_the_last_fifth (ga : GA.GeneticSolver)
    (generationsWithoutImprovement : Z) (r : Rand.t) :
  length (GA.population ga) = GA.populationSize ga ->
  let ga' := (GA.adapt ga generationsWithoutImprovement r).1 in
  let cut := (GA.populationSize ga * 4 / 5)%nat in
  length (GA.population ga') = GA.populationSize ga
  ∧ (∀ i : nat, (i < cut)%nat -> GA.population ga' !!! i = GA.population ga !!! i)
  ∧ (generationsWithoutImprovement <= 20 ->
       GA.adapt ga generationsWithoutImprovement r
       = (GA.set_mutationRate ga 0.15%float, r))
  ∧ (20 < generationsWithoutImprovement ->
       ga' = GA.set_population (GA.set_mutationRate ga 0.3%float) (GA.population ga')
       ∧ ∀ i : nat, (cut <= i < GA.populationSize ga)%nat ->
           fresh_individual (GA.n ga) (GA.population ga' !!! i)).
Proof.
  intros Hl. cbv zeta. unfold GA.adapt.
  assert (Hcut : (GA.populationSize ga * 4 / 5 <= GA.populationSize ga)%nat).
  { apply Nat.Div0.div_le_upper_bound. lia. }
  destruct (Z.gtb_spec generationsWithoutImprovement 20) as [Hgt|Hle].
  - destruct (initialize_loop (GA.set_mutationRate ga 0.3%float) r
                (GA.populationSize ga * 4 / 5)
                (GA.populationSize ga - GA.populationSize ga * 4 / 5))
      as (Heq & Hlen & Hout & Hin).
    { cbn [GA.set_mutationRate GA.population]. lia. }
    cbn [GA.set_mutationRate GA.population GA.populationSize GA.n] in *.
    split; [congruence|]. split; [intros i Hi; apply Hout; lia|].
    split; [lia|]. intros _. split; [done|]. intros i Hi. apply Hin. lia.
  - cbn [fst GA.set_mutationRate GA.population].
    split; [done|]. split; [done|]. split; [done|]. lia.
Qed.

Lemma adaptive_step_replaces_the_last_fifth_witness :
  let ga := first_population in
  let ga' := (GA.adapt ga 21 (Rand.Source alternating_tape 0)).1 in
  let cut := (GA.populationSize ga * 4 / 5)%nat in
  length (GA.population ga') = GA.populationSize ga
  ∧ (∀ i : nat, (i < cut)%nat -> GA.population ga' !!! i = GA.population ga !!! i)
  ∧ (21 <= 20 ->
       GA.adapt ga 21 (Rand.Source alternating_tape 0)
       = (GA.set_mutationRate ga 0.15%float, Rand.Source alternating_tape 0))
  ∧ (20 < 21 ->
       ga' = GA.set_population (GA.set_mutationRate ga 0.3%float) (GA.population ga')
       ∧ ∀ i : nat, (cut <= i < GA.populationSize ga)%nat ->
           fresh_individual (GA.n ga) (GA.population ga' !!! i)).
Proof.
  apply (adaptive_step_replaces_the_last_fifth first_population 21
           (Rand.Source alternating_tape 0)).
  by vm_compute.
Defined.

(** ** The swap moves *)

Lemma Float64_advance r : (Rand.Float64 r).2 = advance r 1.
Proof.
  unfold Rand.Float64, Rand.next, advance. cbn [snd]. f_equal. lia.
Qed.

Lemma draw_at_lt n r k : (0 < n)%nat -> (draw_at n r k < n)%nat.
Proof. intros Hn. unfold draw_at. apply Nat.mod_upper_bound. lia. Qed.

(** The redraw loop ends with the first draw that differs from [pos1]. *)
Lemma redraw_first_other fuel n pos1 r j k :
  (∀ i : nat, (i < k)%nat -> draw_at n r (j + i) = pos1) ->
  draw_at n r (j + k) ≠ pos1 ->
  SA.redraw fuel n pos1 (draw_at n r j) (advance r (S j))
  = if bool_decide (k <= fuel)%nat
    then Some (draw_at n r (j + k), advance r (S (j + k))) else None.
Proof.
  revert fuel j. induction k as [|k IH]; intros fuel j Hsame Hother.
  - rewrite Nat.add_0_r in *. rewrite redraw_differs by done.
    by rewrite bool_decide_eq_true_2 by lia.
  - assert (H0 : draw_at n r j = pos1).
    { rewrite <- (Nat.add_0_r j). apply Hsame. lia. }
    destruct fuel as [|fuel]; cbn [SA.redraw];
      rewrite bool_decide_eq_true_2 by done.
    { by rewrite bool_decide_eq_false_2 by lia. }
    rewrite Intn_advance. fold (draw_at n r (S j)).
    rewrite (IH fuel (S j)).
    + replace (S j + k)%nat with (j + S k)%nat by lia.
      destruct (decide (k <= fuel)%nat).
      * by rewrite !bool_decide_eq_true_2 by lia.
      * by rewrite !bool_decide_eq_false_2 by lia.
    + intros i Hi. replace (S j + i)%nat with (j + S i)%nat by lia.
      apply Hsame. lia.
    + by replace (S j + k)%nat with (j + S k)%nat by lia.
Qed.

(** It does not end as long as the draws repeat [pos1]. *)
Lemma redraw_never fuel n pos1 r j :
  (∀ i : nat, draw_at n r (j + i) = pos1) ->
  SA.redraw fuel n pos1 (draw_at n r j) (advance r (S j)) = None.
Proof.
  revert j. induction fuel as [|fuel IH]; intros j Hsame; cbn [SA.redraw];
    (rewrite bool_decide_eq_true_2;
       [|by rewrite <- (Nat.add_0_r j), Hsame]); [done|].
  rewrite Intn_advance. fold (draw_at n r (S j)). apply IH.
  intros i. replace (S j + i)%nat with (j + S i)%nat by lia. apply Hsame.
Qed.

(** X14 ([simulated_annealing.go], [generateSmartNeighbor], strategy 1).
    When the strategy draw is below 0.6, [pos1] is the next draw and
    [pos2] is drawn until it differs from [pos1].  The neighbour is the
    board with the queens of the columns [pos1] and [pos2] exchanged,
    where [pos2] is the first of these draws that differs; it holds the
    same rows as the board, so a permutation stays a permutation.  The
    loop has no bound: when [k] draws repeat [pos1] it needs [k] redraws
    (the model returns [None] when [fuel] is less), and when all of them
    do, as for [n = 1], it never ends. *)
Theorem swap_neighbour_exchanges_two_queens (fuel : nat)
    (sa : SA.SimulatedAnnealingSolver) (r : Rand.t) :
  (0 < SA.n sa)%nat ->
  length (SA.board sa) = SA.n sa ->
  ((Rand.Float64 r).1 <? 0.6)%float = true ->
  swaps_at_first_other_draw fuel sa r.
Proof.
  intros Hn Hl Hlt. unfold swaps_at_first_other_draw. cbv zeta.
  assert (Hgen : ∀ fuel',
            SA.generateSmartNeighbor fuel' sa r
            = match SA.redraw fuel' (SA.n sa) (draw_at (SA.n sa) r 1)
                      (draw_at (SA.n sa) r 2) (advance r 3) with
              | Some (pos2, r') =>
                  Some (exchanged (SA.board sa) (draw_at (SA.n sa) r 1) pos2, r')
              | None => None
              end).
  { intros fuel'. unfold SA.generateSmartNeighbor. rewrite copy_make by done.
    pose proof (Float64_advance r) as Hr0.
    destruct (Rand.Float64 r) as [strategy r0]. cbn [fst snd] in *. subst r0.
    rewrite Hlt. unfold SA.swap_two.
    rewrite Intn_advance. fold (draw_at (SA.n sa) r 1).
    rewrite Intn_advance. fold (draw_at (SA.n sa) r 2).
    by destruct (SA.redraw _ _ _ _ _) as [[pos2 r']|]. }
  split; [by apply draw_at_lt|]. split.
  - intros k Hsame Hother.
    split; [by apply draw_at_lt|]. split.
    + rewrite Hgen, (redraw_first_other fuel _ _ r 2 k) by done.
      by destruct (bool_decide (k <= fuel)%nat).
    + assert (Hperm : exchanged (SA.board sa) (draw_at (SA.n sa) r 1)
                        (draw_at (SA.n sa) r (2 + k)) ≡ₚ SA.board sa).
      { apply exchanged_Permutation; rewrite Hl; by apply draw_at_lt. }
      split; [done|]. unfold is_permutation. by rewrite Hperm.
  - intros Hsame fuel'. by rewrite Hgen, redraw_never.
Qed.

Lemma swap_neighbour_exchanges_two_queens_witness :
  let sa := SA.set_board (SA.NewSimulatedAnnealingSolver 4) [1; 3; 0; 2] in
  let r := Rand.Source repeating_tape 0 in
  ((0 < SA.n sa)%nat ∧ length (SA.board sa) = SA.n sa
   ∧ ((Rand.Float64 r).1 <? 0.6)%float = true)
  ∧ swaps_at_first_other_draw 2 sa r
  (* the draws of [pos2] are 1, 1 and 3, and [pos1] is 1 *)
  ∧ SA.generateSmartNeighbor 2 sa r
    = Some ([1; 2; 0; 3], Rand.Source repeating_tape 5)
  ∧ SA.generateSmartNeighbor 1 sa r = None.
Proof.
  cbv zeta.
  assert (Hn : (0 < SA.n (SA.set_board (SA.NewSimulatedAnnealingSolver 4)
                            [1; 3; 0; 2]%Z))%nat) by (vm_compute; lia).
  assert (Hlt : ((Rand.Float64 (Rand.Source repeating_tape 0)).1 <? 0.6)%float
                = true) by (by vm_compute).
  split; [split; [exact Hn|split; [reflexivity|exact Hlt]]|].
  pose proof (swap_neighbour_exchanges_two_queens 2
                (SA.set_board (SA.NewSimulatedAnnealingSolver 4) [1; 3; 0; 2])
                (Rand.Source repeating_tape 0) Hn eq_refl Hlt) as Hspec.
  pose proof (swap_neighbour_exchanges_two_queens 1
                (SA.set_board (SA.NewSimulatedAnnealingSolver 4) [1; 3; 0; 2])
                (Rand.Source repeating_tape 0) Hn eq_refl Hlt) as Hshort.
  split; [exact Hspec|].
  destruct Hspec as (_ & Hends & _). destruct Hshort as (_ & Hends1 & _).
  split.
  - destruct (Hends 2%nat) as (_ & Hgen & _).
    + intros [|[|i]] Hi; [reflexivity..|lia].
    + by vm_compute.
    + rewrite Hgen. by vm_compute.
  - destruct (Hends1 2%nat) as (_ & Hgen & _).
    + intros [|[|i]] Hi; [reflexivity..|lia].
    + by vm_compute.
    + rewrite Hgen. by vm_compute.
Defined.

(** X15 ([genetic.go], [smartMutation]).  The swap mutation, taken when
    the strategy draw is below 0.5, exchanges the genes at the positions
    that the next two calls of [rand.Intn] return, which may coincide,
    and makes no other draw: the chromosome keeps its genes, and a
    permutation stays a permutation. *)
Theorem swap_mutation_keeps_the_genes (ga : GA.GeneticSolver)
    (chromosome : list Z) (r : Rand.t) :
  (0 < GA.n ga)%nat ->
  length chromosome = GA.n ga ->
  ((Rand.Float64 r).1 <? 0.5)%float = true ->
  let pos1 := draw_at (GA.n ga) r 1 in
  let pos2 := draw_at (GA.n ga) r 2 in
  GA.smartMutation ga chromosome r
  = (exchanged chromosome pos1 pos2, advance r 3)
  ∧ (pos1 < GA.n ga)%nat ∧ (pos2 < GA.n ga)%nat
  ∧ exchanged chromosome pos1 pos2 ≡ₚ chromosome
  ∧ (is_permutation (GA.n ga) chromosome ->
       is_permutation (GA.n ga) (exchanged chromosome pos1 pos2)).
Proof.
  intros Hn Hl Hlt. cbv zeta.
  assert (Hperm : exchanged chromosome (draw_at (GA.n ga) r 1)
                    (draw_at (GA.n ga) r 2) ≡ₚ chromosome).
  { apply exchanged_Permutation; rewrite Hl; by apply draw_at_lt. }
  split_and!; [|by apply draw_at_lt..|done|unfold is_permutation; by rewrite Hperm].
  unfold GA.smartMutation.
  pose proof (Float64_advance r) as Hr0.
  destruct (Rand.Float64 r) as [strategy r0]. cbn [fst snd] in *. subst r0.
  rewrite Hlt.
  rewrite Intn_advance. fold (draw_at (GA.n ga) r 1).
  rewrite Intn_advance. fold (draw_at (GA.n ga) r 2). done.
Qed.

Lemma swap_mutation_keeps_the_genes_witness :
  let ga := GA.NewGeneticSolver 4 in
  let r := Rand.Source counting_tape 0 in
  (draw_at 4 r 1 = 1 ∧ draw_at 4 r 2 = 2)%nat
  ∧ exchanged [1; 3; 0; 2] 1 2 = [1; 0; 3; 2]
  ∧ GA.smartMutation ga [1; 3; 0; 2] r
    = (exchanged [1; 3; 0; 2] (draw_at (GA.n ga) r 1) (draw_at (GA.n ga) r 2),
       advance r 3)
  ∧ (draw_at (GA.n ga) r 1 < GA.n ga)%nat ∧ (draw_at (GA.n ga) r 2 < GA.n ga)%nat
  ∧ exchanged [1; 3; 0; 2] (draw_at (GA.n ga) r 1) (draw_at (GA.n ga) r 2)
    ≡ₚ [1; 3; 0; 2]
  ∧ (is_permutation (GA.n ga) [1; 3; 0; 2] ->
       is_permutation (GA.n ga)
         (exchanged [1; 3; 0; 2] (draw_at (GA.n ga) r 1) (draw_at (GA.n ga) r 2))).
Proof.
  cbv zeta. split; [by vm_compute|]. split; [by vm_compute|].
  apply (swap_mutation_keeps_the_genes (GA.NewGeneticSolver 4) [1; 3; 0; 2]
           (Rand.Source counting_tape 0));
    [vm_compute; lia | reflexivity | by vm_compute].
Defined.

(** ** Bounds of the conflict counters *)

Lemma pairwise_scan_upper n board :
  2 * pairwise_scan n board <= Z.of_nat n * (Z.of_nat n - 1).
Proof.
  induction n as [|n IH]; [done|].
  rewrite pairwise_scan_S.
  assert (sumZ (fun i => pair_cost board i n) (seq 0 n) <= Z.of_nat n).
  { etrans; [apply sumZ_le_length|by rewrite length_seq].
    intros i Hi. apply elem_of_seq in Hi. apply pair_cost_le_1. lia. }
  nia.
Qed.

Lemma column_scan_upper n board col :
  (col < n)%nat -> column_scan n board col <= Z.of_nat n - 1.
Proof.
  intros Hcol. induction n as [|n IH]; [lia|].
  rewrite column_scan_S. case_bool_decide as Hne.
  - assert (column_scan n board col <= Z.of_nat n - 1) by (apply IH; lia).
    pose proof (pair_cost_le_1 board col n). lia.
  - subst col. pose proof (column_scan_le n board n). lia.
Qed.

Lemma column_scan_nonneg n board col : 0 <= column_scan n board col.
Proof.
  rewrite column_scan_sum. apply sumZ_nonneg.
  intros j _. case_bool_decide; [apply pair_cost_nonneg|lia].
Qed.

(** ** Strategy 3 of the neighbour generation *)

Lemma local_conflicts_current sa board col :
  (0 <= board !!! col) ->
  local_conflicts sa board col (Z.to_nat (board !!! col))
  = SA.calculateConflictsForPosition sa board col.
Proof.
  intros Hc. unfold local_conflicts. rewrite Z2Nat.id by done.
  destruct (decide (col < length board)%nat) as [Hlt|Hge].
  - rewrite list_insert_id; [done|]. by apply list_lookup_lookup_total_lt.
  - by rewrite list_insert_ge by lia.
Qed.

(** ** The bookkeeping of the annealing loop *)

Lemma accept_or_reject_best Exp s neighbor neighborCost :
  best_so_far s ->
  let s' := SA.accept_or_reject Exp s neighbor neighborCost in
  best_so_far s' ∧ SA.bestCost s' <= SA.bestCost s.
Proof.
  unfold best_so_far. intros Hb. cbv zeta. unfold SA.accept_or_reject.
  destruct (SA.accepts Exp (SA.solver s) _ (SA.temperature s) (SA.source s))
    as [ok r].
  destruct ok; [destruct (Z.ltb_spec neighborCost (SA.bestCost s))|];
    cbn [SA.bestCost SA.currentCost]; lia.
Qed.

Lemma cool_best iter s :
  best_so_far s ->
  best_so_far (SA.cool iter s) ∧ SA.bestCost (SA.cool iter s) = SA.bestCost s.
Proof.
  unfold best_so_far, SA.cool. intros Hb.
  destruct (_ && _); cbn [SA.bestCost SA.currentCost]; lia.
Qed.

Lemma anneal_best Exp n fuel k iter s s' :
  (0 < n)%nat -> run_ok n s -> best_so_far s ->
  SA.anneal Exp fuel k iter s = Some (SA.Exhausted s') ->
  run_ok n s' ∧ best_so_far s' ∧ SA.bestCost s' <= SA.bestCost s.
Proof.
  intros Hn. revert iter s. induction k as [|k IH]; intros iter s Hs Hb.
  { intros [= <-]. split; [done|]. split; [done|]. lia. }
  cbn [SA.anneal]. destruct (negb _).
  { intros [= <-]. split; [done|]. split; [done|]. lia. }
  destruct (SA.currentCost s =? 0); [done|].
  destruct (SA.generateSmartNeighbor fuel (SA.solver s) (SA.source s))
    as [[neighbor r]|] eqn:Hg; [|done].
  destruct (generateSmartNeighbor_ok n _ _ _ _ _ Hn (proj1 Hs) Hg) as [Hnb _].
  set (s1 := SA.RunState (SA.solver s) (SA.temperature s) (SA.currentCost s)
               (SA.bestCost s) (SA.bestBoard s) r).
  assert (Hs1 : run_ok n s1) by exact Hs.
  assert (Hb1 : best_so_far s1) by exact Hb.
  rewrite sa_calculateCostForBoard_scan, (proj1 (proj1 Hs)).
  destruct (accept_or_reject_ok Exp n s1 neighbor Hs1 Hnb) as [Hs2 _].
  destruct (accept_or_reject_best Exp s1 neighbor (pairwise_scan n neighbor) Hb1)
    as [Hb2 Hle2].
  set (s2 := SA.accept_or_reject Exp s1 neighbor (pairwise_scan n neighbor)) in *.
  destruct (cool_ok n iter s2 Hs2) as [Hs3 _].
  destruct (cool_best iter s2 Hb2) as [Hb3 Heq3].
  intros Hrest. destruct (IH (iter + 1) (SA.cool iter s2) Hs3 Hb3 Hrest)
    as (Hok & Hbest & Hle).
  split; [done|]. split; [done|].
  change (SA.bestCost s1) with (SA.bestCost s) in Hle2. lia.
Qed.

(** X16 ([greedy.go], [simulated_annealing.go], [genetic.go]; the
    conflict counters).  A pair of columns adds at most one conflict, so
    a full count is at most [n * (n - 1) / 2] and a column's count at most
    [n - 1].  For [n >= 1] both stay below [n * n], the value with which
    [bestFitnessEver] and the [minConflicts] of strategy 2 start. *)
Theorem conflict_counts_are_bounded (n : nat) (board : list Z) (col : nat) :
  let g := Greedy.set_board (Greedy.NewGreedySolver n) board in
  let sa := SA.NewSimulatedAnnealingSolver n in
  let ga := GA.NewGeneticSolver n in
  (0 <= 2 * Greedy.countConflicts g <= Z.of_nat n * (Z.of_nat n - 1))
  ∧ (0 <= 2 * SA.calculateCostForBoard sa board <= Z.of_nat n * (Z.of_nat n - 1))
  ∧ (0 <= 2 * GA.calculateFitness ga board <= Z.of_nat n * (Z.of_nat n - 1))
  ∧ ((col < n)%nat ->
       0 <= SA.calculateConflictsForPosition sa board col <= Z.of_nat n - 1
       ∧ 0 <= GA.calculateConflictsForPosition ga board col <= Z.of_nat n - 1
       ∧ SA.calculateConflictsForPosition sa board col < Z.of_nat n * Z.of_nat n)
  ∧ ((1 <= n)%nat -> GA.calculateFitness ga board < Z.of_nat n * Z.of_nat n).
Proof.
  cbv zeta.
  rewrite greedy_countConflicts_scan, sa_calculateCostForBoard_scan,
    ga_calculateFitness_scan, sa_calculateConflictsForPosition_scan,
    ga_calculateConflictsForPosition_scan.
  assert (GA.n (GA.NewGeneticSolver n) = n) as -> by done.
  cbn [Greedy.n Greedy.board Greedy.set_board Greedy.NewGreedySolver
       SA.n SA.NewSimulatedAnnealingSolver].
  pose proof (pairwise_scan_nonneg n board).
  pose proof (pairwise_scan_upper n board).
  pose proof (column_scan_nonneg n board col).
  pose proof (column_scan_le n board col).
  split_and!; try lia.
  intros Hcol. pose proof (column_scan_upper n board col Hcol).
  split_and!; lia.
Qed.

(** X17 ([simulated_annealing.go], [generateSmartNeighbor], strategy 3).
    When the strategy draw is 0.8 or more, the neighbour differs from the
    board at most in one column, drawn at random, and the row adopted for
    it minimises the column's conflict count over all rows [0 .. n-1];
    the queen stays where it is unless another row is strictly better. *)
Theorem local_search_moves_to_a_best_row (fuel : nat)
    (sa : SA.SimulatedAnnealingSolver) (r : Rand.t) :
  (0 < SA.n sa)%nat ->
  length (SA.board sa) = SA.n sa ->
  in_range (SA.n sa) (SA.board sa) ->
  ((Rand.Float64 r).1 <? 0.6)%float = false ->
  ((Rand.Float64 r).1 <? 0.8)%float = false ->
  improves_drawn_column fuel sa r (Rand.Float64 r).2.
Proof.
  intros Hn Hl Hr Hlo Hhi. unfold improves_drawn_column. cbv zeta.
  unfold SA.generateSmartNeighbor. rewrite copy_make by done.
  destruct (Rand.Float64 r) as [strategy r0]. cbn [fst snd] in *.
  rewrite Hlo, Hhi. unfold SA.improve_random.
  pose proof (Intn_lt (SA.n sa) r0 Hn) as Hcol.
  destruct (Rand.Intn (SA.n sa) r0) as [col r1]. cbn [fst snd] in *.
  pose proof (in_range_lookup (SA.n sa) (SA.board sa) col Hn Hr) as Hcur.
  pose proof (scan_rows_best sa (SA.board sa) col (SA.board sa !!! col)
                (SA.calculateConflictsForPosition sa (SA.board sa) col) Hl) as Hbest.
  cbv zeta in Hbest.
  destruct (SA.scan_rows sa (SA.board sa) col (SA.board sa !!! col)
              (SA.calculateConflictsForPosition sa (SA.board sa) col)) as [br mc].
  cbn [fst snd] in Hbest. destruct Hbest as (Hle & Hall & Hwho).
  pose proof (local_conflicts_current sa (SA.board sa) col (proj1 Hcur)) as Hsame.
  assert (Hmin : ∀ row' : nat, (row' < SA.n sa)%nat ->
            mc <= local_conflicts sa (SA.board sa) col row').
  { intros row' Hrow'.
    destruct (decide (Z.of_nat row' = SA.board sa !!! col)) as [Heq|Hne].
    - rewrite <- Hsame, <- Heq, Nat2Z.id in Hle. done.
    - by apply Hall. }
  destruct Hwho as [Heq|(Hlt & row & Hrow & Hne & Heq)].
  - injection Heq as -> ->.
    exists (Z.to_nat (SA.board sa !!! col)).
    rewrite Z2Nat.id by lia. split; [done|]. split; [done|]. split; [lia|].
    split; [|by left]. intros row' Hrow'. rewrite Hsame. by apply Hmin.
  - injection Heq as -> ->. exists row.
    split; [done|]. split; [done|]. split; [done|]. split; [done|]. by right.
Qed.

Lemma local_search_moves_to_a_best_row_witness :
  improves_drawn_column 0 diagonal_pair (Rand.Source strategy_3_tape 0)
    (Rand.Float64 (Rand.Source strategy_3_tape 0)).2.
Proof.
  apply (local_search_moves_to_a_best_row 0 diagonal_pair
           (Rand.Source strategy_3_tape 0));
    [vm_compute; lia | reflexivity | | by vm_compute | by vm_compute].
  unfold in_range. vm_compute. repeat constructor; discriminate.
Defined.

(** X18 ([simulated_annealing.go], [singleRun], lines 56 to 92).  The
    bookkeeping of the annealing loop.  As long as the loop runs,
    [currentCost] is the conflict count of the board and [bestCost] that
    of [bestBoard]; [bestCost] never exceeds [currentCost] and never
    increases, so the board that a failed run restores is at least as
    good as every board the run has accepted. *)
Theorem annealing_keeps_the_best_board (Exp : float -> float)
    (n fuel k : nat) (iter : Z) (s s' : SA.run_state) :
  (0 < n)%nat ->
  run_ok n s -> best_so_far s ->
  SA.anneal Exp fuel k iter s = Some (SA.Exhausted s') ->
  SA.currentCost s' = SA.calculateCostForBoard (SA.solver s') (SA.board (SA.solver s'))
  ∧ SA.bestCost s' = SA.calculateCostForBoard (SA.solver s') (SA.bestBoard s')
  ∧ SA.bestCost s' <= SA.currentCost s'
  ∧ SA.bestCost s' <= SA.bestCost s.
Proof.
  intros Hn Hs Hb Hrun.
  destruct (anneal_best Exp n fuel k iter s s' Hn Hs Hb Hrun)
    as (([Hn' _] & _ & Hc & Hbc) & Hbest & Hle).
  rewrite !sa_calculateCostForBoard_scan, Hn'. done.
Qed.

Lemma annealing_keeps_the_best_board_witness :
  ∃ s',
    SA.anneal (fun x => x) 1 3 0 warm_state = Some (SA.Exhausted s')
    ∧ SA.currentCost s'
      = SA.calculateCostForBoard (SA.solver s') (SA.board (SA.solver s'))
    ∧ SA.bestCost s' = SA.calculateCostForBoard (SA.solver s') (SA.bestBoard s')
    ∧ SA.bestCost s' <= SA.currentCost s'
    ∧ SA.bestCost s' <= SA.bestCost warm_state.
Proof.
  assert (Hrun : ∃ s', SA.anneal (fun x => x) 1 3 0 warm_state
                       = Some (SA.Exhausted s')).
  { vm_compute. eexists. reflexivity. }
  destruct Hrun as [s' Hrun]. exists s'. split; [exact Hrun|].
  apply (annealing_keeps_the_best_board (fun x => x) 4 1 3 0 warm_state s');
    [lia | | | exact Hrun].
  - split; [split; [reflexivity|split; [reflexivity|]]|].
    + unfold in_range. vm_compute. repeat constructor; discriminate.
    + split; [split; [reflexivity|]|split; reflexivity].
      unfold in_range. vm_compute. repeat constructor; discriminate.
  - unfold best_so_far. vm_compute. discriminate.
Defined.

(** ** The result fields of the solvers *)

Lemma keeps_result_same solved0 solution0 :
  keeps_result solved0 solution0 false solved0 solution0.
Proof. split; [by rewrite orb_false_r|done]. Qed.

Lemma keeps_result_true solved0 solution0 solution1 :
  keeps_result solved0 solution0 true true solution1.
Proof. split; [by rewrite orb_true_r|done]. Qed.

(** *** Greedy hill climbing *)

Lemma greedy_same_trans g1 g2 g3 :
  greedy_same g1 g2 -> greedy_same g2 g3 -> greedy_same g1 g3.
Proof. intros [H1 H2] [H3 H4]. split; congruence. Qed.

Lemma randomInit_same g r : greedy_same g (Greedy.randomInit g r).1.
Proof.
  unfold Greedy.randomInit.
  apply (foldl_invariant (fun s : Greedy.GreedySolver * Rand.t => greedy_same g s.1));
    [done|].
  intros [g' r'] i _ Hs. cbn [fst] in *.
  by destruct (Rand.Intn (Greedy.n g') r').
Qed.

Lemma try_move_same g col newRow s :
  greedy_same g s.1.1 -> greedy_same g (Greedy.try_move col newRow s).1.1.
Proof.
  destruct s as [[g' bestBoard] bestConflicts]. cbn [fst]. intros Hs.
  unfold Greedy.try_move. case_bool_decide; [done|].
  by destruct (_ <? _).
Qed.

Lemma sweep_same g conflicts : greedy_same g (Greedy.sweep g conflicts).1.1.
Proof.
  unfold Greedy.sweep.
  apply (foldl_invariant (fun s : Greedy.sweep_state => greedy_same g s.1.1));
    [done|].
  intros s col _ Hs.
  apply (foldl_invariant (fun s : Greedy.sweep_state => greedy_same g s.1.1));
    [done|].
  intros s' newRow _ Hs'. by apply try_move_same.
Qed.

Lemma iteration_same g r : greedy_same g (Greedy.iteration g r).1.
Proof.
  unfold Greedy.iteration.
  pose proof (sweep_same g (Greedy.countConflicts g)) as Hs.
  destruct (Greedy.sweep g (Greedy.countConflicts g)) as [[g' bestBoard] bestConflicts].
  cbn [fst] in Hs. unfold Greedy.commit_or_restart.
  destruct (_ >=? _); [|done].
  eapply greedy_same_trans; [exact Hs|apply randomInit_same].
Qed.

Lemma greedy_main_loop_result k g r :
  let res := Greedy.main_loop k g r in
  keeps_result (Greedy.solved g) (Greedy.solution g) res.1.1
               (Greedy.solved res.1.2) (Greedy.solution res.1.2).
Proof.
  cbv zeta. revert g r. induction k as [|k IH]; intros g r.
  { apply keeps_result_same. }
  cbn [Greedy.main_loop]. destruct (_ =? 0).
  { apply keeps_result_true. }
  pose proof (iteration_same g r) as [Hs1 Hs2].
  destruct (Greedy.iteration g r) as [g' r']. cbn [fst] in *.
  rewrite <- Hs1, <- Hs2. apply IH.
Qed.

Lemma greedy_Solve_result g r :
  let res := Greedy.Solve g r in
  keeps_result (Greedy.solved g) (Greedy.solution g) res.1.1
               (Greedy.solved res.1.2) (Greedy.solution res.1.2).
Proof.
  cbv zeta. unfold Greedy.Solve.
  pose proof (randomInit_same g r) as [Hs1 Hs2].
  destruct (Greedy.randomInit g r) as [g' r']. cbn [fst] in *.
  rewrite <- Hs1, <- Hs2. apply greedy_main_loop_result.
Qed.

(** *** Simulated annealing *)

Lemma sa_same_trans sa1 sa2 sa3 :
  sa_same sa1 sa2 -> sa_same sa2 sa3 -> sa_same sa1 sa3.
Proof. intros [H1 H2] [H3 H4]. split; congruence. Qed.

Lemma accept_or_reject_same Exp s neighbor neighborCost :
  sa_same (SA.solver s) (SA.solver (SA.accept_or_reject Exp s neighbor neighborCost)).
Proof.
  unfold SA.accept_or_reject.
  destruct (SA.accepts Exp (SA.solver s) _ (SA.temperature s) (SA.source s))
    as [ok r].
  destruct ok; [destruct (_ <? _)|]; done.
Qed.

Lemma cool_same iter s : sa_same (SA.solver s) (SA.solver (SA.cool iter s)).
Proof. unfold SA.cool. by destruct (_ && _). Qed.

Lemma anneal_result Exp fuel k iter s :
  match SA.anneal Exp fuel k iter s with
  | None => True
  | Some (SA.Returned sa r) => SA.solved sa = true
  | Some (SA.Exhausted s') => sa_same (SA.solver s) (SA.solver s')
  end.
Proof.
  revert iter s. induction k as [|k IH]; intros iter s; [done|].
  cbn [SA.anneal]. destruct (negb _); [done|].
  destruct (_ =? 0); [done|].
  destruct (SA.generateSmartNeighbor fuel (SA.solver s) (SA.source s))
    as [[neighbor r]|]; [|done].
  set (s1 := SA.RunState (SA.solver s) (SA.temperature s) (SA.currentCost s)
               (SA.bestCost s) (SA.bestBoard s) r).
  set (s2 := SA.accept_or_reject Exp s1 neighbor _).
  specialize (IH (iter + 1) (SA.cool iter s2)).
  destruct (SA.anneal Exp fuel k (iter + 1) (SA.cool iter s2)) as [[sa r'|s']|];
    [done| |done].
  eapply sa_same_trans; [|exact IH].
  eapply sa_same_trans; [|apply cool_same].
  apply (accept_or_reject_same Exp s1).
Qed.

Lemma sa_singleRun_result Exp fuel sa r res :
  SA.singleRun Exp fuel sa r = Some res ->
  keeps_result (SA.solved sa) (SA.solution sa) res.1.1
               (SA.solved res.1.2) (SA.solution res.1.2).
Proof.
  unfold SA.singleRun.
  assert (Hinit : sa_same sa (SA.smartInit sa r).1).
  { unfold SA.smartInit. by destruct (Rand.Perm (SA.n sa) r). }
  destruct (SA.smartInit sa r) as [sa0 r0]. cbn [fst] in Hinit.
  set (start := SA.RunState sa0 _ _ _ _ r0).
  pose proof (anneal_result Exp fuel (Z.to_nat (SA.maxIterations sa0)) 0 start) as Han.
  destruct (SA.anneal Exp fuel _ 0 start) as [[sa1 r1|s1]|]; [| |done].
  - intros [= <-]. cbn [fst snd]. rewrite Han. apply keeps_result_true.
  - destruct (_ =? 0); intros [= <-]; cbn [fst snd].
    + apply keeps_result_true.
    + destruct Hinit as [H1 H2], Han as [H3 H4].
      cbn [SA.solver start SA.set_board SA.solved SA.solution] in *.
      rewrite <- H1, <- H2, <- H3, <- H4. apply keeps_result_same.
Qed.

Lemma sa_restart_loop_result Exp fuel k sa r res :
  SA.restart_loop Exp fuel k sa r = Some res ->
  keeps_result (SA.solved sa) (SA.solution sa) res.1.1
               (SA.solved res.1.2) (SA.solution res.1.2).
Proof.
  revert sa r res. induction k as [|k IH]; intros sa r res.
  { intros [= <-]. apply keeps_result_same. }
  cbn [SA.restart_loop].
  destruct (SA.singleRun Exp fuel sa r) as [[[ok sa1] r1]|] eqn:Hrun; [|done].
  pose proof (sa_singleRun_result Exp fuel sa r _ Hrun) as [H1 H2].
  cbn [fst snd] in *. destruct ok.
  - intros [= <-]. cbn [fst snd]. rewrite orb_true_r in H1. rewrite H1.
    apply keeps_result_true.
  - intros Hres. rewrite orb_false_r in H1. rewrite <- H1, <- (H2 eq_refl).
    by apply (IH sa1 r1).
Qed.

(** *** Genetic algorithm *)

Lemma ga_same_trans ga1 ga2 ga3 :
  ga_same ga1 ga2 -> ga_same ga2 ga3 -> ga_same ga1 ga3.
Proof. intros [H1 H2] [H3 H4]. split; congruence. Qed.

Lemma initialize_loop_same ga r l :
  ga_same ga (foldl (fun '(ga, r) i => GA.initializeIndividual ga i r) (ga, r) l).1.
Proof.
  apply (foldl_invariant (fun s : GA.GeneticSolver * Rand.t => ga_same ga s.1));
    [done|].
  intros [ga' r'] i _ Hs. cbn [fst] in *.
  destruct (initializeIndividual_eq ga' i r') as (c & r'' & -> & _). done.
Qed.

Lemma evaluatePopulation_same sortSlice ga :
  ga_same ga (GA.evaluatePopulation sortSlice ga).
Proof.
  unfold GA.evaluatePopulation. cbv zeta.
  assert (Hloop : ∀ l, ga_same ga
    (foldl (fun ga i =>
              let p := GA.population ga in
              GA.set_population ga
                (<[i := GA.Indiv (GA.chromosome (p !!! i))
                                 (GA.calculateFitness ga (GA.chromosome (p !!! i)))]> p))
           ga l)).
  { intros l. by apply (foldl_invariant (fun ga' => ga_same ga ga')). }
  exact (Hloop _).
Qed.

Lemma adapt_same ga g r : ga_same ga (GA.adapt ga g r).1.
Proof.
  unfold GA.adapt. destruct (g >? 20); [|done].
  apply (initialize_loop_same (GA.set_mutationRate ga 0.3%float)).
Qed.

Lemma generation_result sortSlice ga g b r :
  match GA.generation sortSlice ga g b r with
  | GA.Success ga' _ => GA.solved ga' = true
  | GA.Break ga' _ | GA.Continue ga' _ _ _ => ga_same ga ga'
  end.
Proof.
  unfold GA.generation, GA.before_selection.
  pose proof (evaluatePopulation_same sortSlice ga) as H1.
  set (ga1 := GA.evaluatePopulation sortSlice ga) in *.
  destruct (_ =? 0); [done|].
  destruct (GA.track _ b g) as [b' g'].
  destruct (g' >? 50); [done|].
  pose proof (adapt_same ga1 g' r) as H2.
  destruct (GA.adapt ga1 g' r) as [ga2 r2]. cbn [fst] in H2.
  destruct (GA.createNewGeneration ga2 r2) as [newPopulation r3].
  eapply ga_same_trans; [exact H1|]. eapply ga_same_trans; [exact H2|]. done.
Qed.

Lemma evolve_result sortSlice k ga g b r :
  match GA.evolve sortSlice k ga g b r with
  | GA.Success ga' _ => GA.solved ga' = true
  | GA.Break ga' _ | GA.Continue ga' _ _ _ => ga_same ga ga'
  end.
Proof.
  revert ga g b r. induction k as [|k IH]; intros ga g b r; [done|].
  cbn [GA.evolve]. pose proof (generation_result sortSlice ga g b r) as Hg.
  destruct (GA.generation sortSlice ga g b r) as [ga1 r1|ga1 r1|ga1 g1 b1 r1];
    [done..|].
  specialize (IH ga1 g1 b1 r1).
  destruct (GA.evolve sortSlice k ga1 g1 b1 r1); [done|..];
    by eapply ga_same_trans.
Qed.

Lemma ga_singleRun_result sortSlice ga r :
  let res := GA.singleRun sortSlice ga r in
  keeps_result (GA.solved ga) (GA.solution ga) res.1.1
               (GA.solved res.1.2) (GA.solution res.1.2).
Proof.
  cbv zeta. unfold GA.singleRun, GA.initializePopulation.
  pose proof (initialize_loop_same ga r (seq 0 (GA.populationSize ga))) as Hinit.
  destruct (foldl _ (ga, r) _) as [ga0 r0]. cbn [fst] in Hinit.
  pose proof (evolve_result sortSlice (Z.to_nat (GA.maxGenerations ga0)) ga0 0
                (Z.of_nat (GA.n ga0) * Z.of_nat (GA.n ga0)) r0) as Hev.
  assert (Hfinal : ∀ ga1 r1, ga_same ga0 ga1 ->
            let res : bool * GA.GeneticSolver * Rand.t :=
              (let ga2 := GA.evaluatePopulation sortSlice ga1 in
               if GA.fitness (GA.population ga2 !!! 0%nat) =? 0
               then (true, GA.found ga2, r1) else (false, ga2, r1)) in
            keeps_result (GA.solved ga) (GA.solution ga) res.1.1
                         (GA.solved res.1.2) (GA.solution res.1.2)).
  { intros ga1 r1 Hs. cbv zeta.
    pose proof (evaluatePopulation_same sortSlice ga1) as He.
    destruct (_ =? 0); cbn [fst snd]; [apply keeps_result_true|].
    destruct Hinit as [H1 H2], Hs as [H3 H4], He as [H5 H6].
    rewrite H5, H3, H1, H6, H4, H2. apply keeps_result_same. }
  destruct (GA.evolve sortSlice _ ga0 0 _ r0) as [ga1 r1|ga1 r1|ga1 g1 b1 r1].
  - cbn [fst snd]. rewrite Hev. apply keeps_result_true.
  - by apply Hfinal.
  - by apply Hfinal.
Qed.

Lemma ga_restart_loop_result sortSlice k ga r :
  let res := GA.restart_loop sortSlice k ga r in
  keeps_result (GA.solved ga) (GA.solution ga) res.1.1
               (GA.solved res.1.2) (GA.solution res.1.2).
Proof.
  cbv zeta. revert ga r. induction k as [|k IH]; intros ga r.
  { apply keeps_result_same. }
  cbn [GA.restart_loop].
  pose proof (ga_singleRun_result sortSlice ga r) as [H1 H2]. cbv zeta in H1, H2.
  destruct (GA.singleRun sortSlice ga r) as [[ok ga1] r1]. cbn [fst snd] in *.
  destruct ok.
  - cbn [fst snd]. rewrite orb_true_r in H1. rewrite H1. apply keeps_result_true.
  - rewrite orb_false_r in H1. rewrite <- H1, <- (H2 eq_refl). apply IH.
Qed.

Lemma Solve_keeps_result_holds : Solve_keeps_result.
Proof.
  split; [|split].
  - apply greedy_Solve_result.
  - intros Exp fuel sa r res. unfold SA.Solve. apply sa_restart_loop_result.
  - intros sortSlice ga r. unfold GA.Solve. apply ga_restart_loop_result.
Qed.

(** X19 ([greedy.go], [simulated_annealing.go], [genetic.go]; [Solve]).
    None of the three heuristic [Solve] methods resets the result fields.
    A call that returns [true] sets [solved]; a call that returns [false]
    leaves [solved] and [solution] as they were, so that a solver which
    has succeeded once still reports and prints that solution after a
    later call has failed. *)
Theorem heuristic_Solve_never_clears_a_result : Solve_keeps_result.
Proof. exact Solve_keeps_result_holds. Qed.

(** X20 ([greedy.go], [simulated_annealing.go], [genetic.go]; [Solve],
    [GetSolution], [PrintSolution]).  On a solver that was just
    constructed, the flag [solved] is the result of [Solve].  After a
    failure [GetSolution] returns the empty slice of the constructor, and
    [PrintSolution] prints the line "No solution found" and nothing
    else. *)
Theorem failed_Solve_leaves_nothing_to_print (h : heuristic)
    (Exp : float -> float)
    (sortSlice : (GA.Individual -> GA.Individual -> bool) ->
                 list GA.Individual -> list GA.Individual)
    (fuel n : nat) (r : Rand.t) (ok : bool) (s : solver) :
  run h Exp sortSlice fuel n r = Some (ok, s) ->
  solved s = ok
  ∧ (ok = false ->
       GetSolution s = []
       ∧ ∀ stdout : string,
           PrintSolution s stdout = (s, stdout +:+ "No solution found" +:+ newline)).
Proof.
  destruct Solve_keeps_result_holds as (Hg & Hsa & Hga).
  unfold run. destruct h.
  - specialize (Hg (Greedy.NewGreedySolver n) r). cbv zeta in Hg.
    destruct (Greedy.Solve (Greedy.NewGreedySolver n) r) as [[ok' g] r'].
    intros [= -> <-]. destruct Hg as [H1 H2]. cbn [fst snd] in *.
    split; [done|]. intros ->. split; [by apply H2|].
    intros stdout. cbn [PrintSolution]. unfold Greedy.PrintSolution. by rewrite H1.
  - destruct (SA.Solve Exp fuel (SA.NewSimulatedAnnealingSolver n) r)
      as [[[ok' sa] r']|] eqn:Hs; [|done].
    intros [= -> <-]. destruct (Hsa _ _ _ _ _ Hs) as [H1 H2]. cbn [fst snd] in *.
    split; [done|]. intros ->. split; [by apply H2|].
    intros stdout. cbn [PrintSolution]. unfold SA.PrintSolution. by rewrite H1.
  - specialize (Hga sortSlice (GA.NewGeneticSolver n) r). cbv zeta in Hga.
    destruct (GA.Solve sortSlice (GA.NewGeneticSolver n) r) as [[ok' ga] r'].
    intros [= -> <-]. destruct Hga as [H1 H2]. cbn [fst snd] in *.
    split; [done|]. intros ->. split; [by apply H2|].
    intros stdout. cbn [PrintSolution]. unfold GA.PrintSolution. by rewrite H1.
Qed.

Lemma failed_Solve_leaves_nothing_to_print_witness :
  ∃ s, run GreedySearch (fun x => x) merge_sortSlice 0 2 (Rand.Source zero_tape 0)
       = Some (false, s)
     ∧ solved s = false
     ∧ (false = false ->
          GetSolution s = []
          ∧ ∀ stdout : string,
              PrintSolution s stdout
              = (s, stdout +:+ "No solution found" +:+ newline)).
Proof.
  assert (Hrun : ∃ s, run GreedySearch (fun x => x) merge_sortSlice 0 2
                        (Rand.Source zero_tape 0) = Some (false, s)).
  { vm_compute. eexists. reflexivity. }
  destruct Hrun as [s Hrun]. exists s. split; [exact Hrun|].
  apply (failed_Solve_leaves_nothing_to_print GreedySearch (fun x => x)
           merge_sortSlice 0 2 (Rand.Source zero_tape 0) false s Hrun).
Defined.

(** ** Crossover of equal parents *)

Lemma filter_all {A} (P : A -> Prop) `{!∀ x, Decision (P x)} (l : list A) :
  Forall P l -> filter P l = l.
Proof.
  induction 1 as [|x l Hx _ IH]; [done|].
  by rewrite filter_cons, decide_True, IH by done.
Qed.

Lemma filter_none {A} (P : A -> Prop) `{!∀ x, Decision (P x)} (l : list A) :
  Forall (fun x => ¬ P x) l -> filter P l = [].
Proof.
  induction 1 as [|x l Hx _ IH]; [done|].
  by rewrite filter_cons, decide_False, IH by done.
Qed.

Lemma rotated_lookup n parent2 end_ j :
  (j < n)%nat ->
  rotated n parent2 end_ !!! j = parent2 !!! ((end_ + 1 + j) `mod` n)%nat.
Proof.
  intros Hj. unfold rotated, rotated_to.
  by rewrite list_lookup_total_alt, list_lookup_fmap, lookup_seq_lt by done.
Qed.

Lemma elem_of_segment parent1 start end_ x :
  x ∈ segment parent1 start end_
  <-> ∃ i : nat, (start <= i <= end_)%nat ∧ x = parent1 !!! i.
Proof.
  unfold segment. rewrite list_elem_of_fmap. split.
  - intros (i & -> & Hi). apply elem_of_seq in Hi. exists i. split; [lia|done].
  - intros (i & Hi & ->). exists i. split; [done|]. apply elem_of_seq. lia.
Qed.

(** The values of a permutation that lie outside its own segment are the
    first ones of its rotation. *)
Lemma unused_self n start end_ p :
  (0 < n)%nat -> (start <= end_ < n)%nat -> is_permutation n p ->
  unused n p p start end_ = take (n - (S end_ - start)) (rotated n p end_).
Proof.
  intros Hn Hcut Hp. destruct (is_permutation_facts n p Hp) as (Hl & Hnd & _).
  unfold unused.
  rewrite <- (take_drop (n - (S end_ - start)) (rotated n p end_)) at 1.
  rewrite filter_app, filter_all, filter_none; [by rewrite app_nil_r|..].
  - apply Forall_forall. intros x Hx.
    apply list_elem_of_lookup_total in Hx as (j & Hj & <-).
    rewrite length_drop in Hj. unfold rotated in Hj at 1.
    rewrite length_rotated_to in Hj.
    rewrite lookup_total_drop, rotated_lookup by lia.
    intros Hnot. apply Hnot. apply elem_of_segment.
    exists ((end_ + 1 + (n - (S end_ - start) + j)) `mod` n)%nat.
    split; [|done]. rewrite mod_wrap by lia. case_decide; lia.
  - apply Forall_forall. intros x Hx.
    apply list_elem_of_lookup_total in Hx as (j & Hj & <-).
    rewrite length_take in Hj. unfold rotated in Hj at 1.
    rewrite length_rotated_to in Hj.
    rewrite lookup_total_take_lt, rotated_lookup by lia.
    intros (i & Hi & Heq)%elem_of_segment.
    pose proof (Nat.mod_upper_bound (end_ + 1 + j) n ltac:(lia)) as Hlt.
    apply (lookup_total_inj p) in Heq; [|done|lia..].
    apply (inside_segment n start end_ Hn Hcut i j); [done|lia|by symmetry].
Qed.

Lemma cross_at_self n start end_ p :
  (0 < n)%nat -> (start <= end_ < n)%nat -> is_permutation n p ->
  GA.cross_at n p p start end_ = p.
Proof.
  intros Hn Hcut Hp. destruct (is_permutation_facts n p Hp) as (Hl & _ & _).
  destruct (cross_at_spec n start end_ p p Hn Hcut Hp Hp) as (Hlen & Hin & Hout).
  pose proof (length_unused n start end_ p p Hn Hcut Hp Hp) as Hrest.
  apply (same_prefix_full n); [done..|]. intros pos Hpos.
  destruct (decide (start <= pos <= end_)%nat) as [Hseg|Hnot]; [by apply Hin|].
  destruct (outside_segment n start end_ Hn Hcut pos Hpos Hnot) as (j & Hj & ->).
  rewrite Hout by lia.
  rewrite unused_self, lookup_total_take_lt, rotated_lookup by (done || lia).
  done.
Qed.

(** ** The conflicted queens *)

Lemma findConflictedQueens_nil sa :
  SA.findConflictedQueens sa = [] <-> SA.calculateCost sa = 0.
Proof.
  unfold SA.calculateCost.
  rewrite sa_calculateCostForBoard_scan.
  assert (H2 : pairwise_scan (SA.n sa) (SA.board sa) = 0
               <-> sumZ (column_scan (SA.n sa) (SA.board sa)) (seq 0 (SA.n sa)) = 0).
  { rewrite column_scan_total. lia. }
  rewrite H2, sumZ_zero by (intros; apply column_scan_nonneg).
  split.
  - intros Hnil col Hcol. apply elem_of_seq in Hcol.
    pose proof (column_scan_nonneg (SA.n sa) (SA.board sa) col) as Hge.
    destruct (decide (column_scan (SA.n sa) (SA.board sa) col = 0)) as [|Hne];
      [done|].
    assert (Hin : col ∈ SA.findConflictedQueens sa).
    { apply elem_of_findConflictedQueens.
      rewrite sa_calculateConflictsForPosition_scan. lia. }
    rewrite Hnil in Hin. by apply elem_of_nil in Hin.
  - intros Hall.
    destruct (SA.findConflictedQueens sa) as [|col l] eqn:Hq; [done|].
    assert (Hin : col ∈ SA.findConflictedQueens sa) by (rewrite Hq; left).
    apply elem_of_findConflictedQueens in Hin as [Hcol Hpos].
    rewrite sa_calculateConflictsForPosition_scan in Hpos.
    rewrite (Hall col) in Hpos; [lia|]. apply elem_of_seq. lia.
Qed.

(** X21 ([genetic.go], [orderCrossover]).  Crossing a permutation with
    itself gives it back, whatever segment is drawn: the order crossover
    leaves a population that has converged to one chromosome unchanged,
    and only mutation can move it. *)
Theorem crossover_of_equal_parents (ga : GA.GeneticSolver) (parent : list Z)
    (r : Rand.t) :
  (0 < GA.n ga)%nat ->
  is_permutation (GA.n ga) parent ->
  (GA.orderCrossover ga parent parent r).1 = parent.
Proof.
  intros Hn Hp. unfold GA.orderCrossover.
  pose proof (cut_points_ordered (GA.n ga) r Hn) as Hcut.
  destruct (GA.cut_points (GA.n ga) r) as [[start end_] r']. cbn [fst snd] in *.
  by apply cross_at_self.
Qed.

Lemma crossover_of_equal_parents_witness :
  (GA.orderCrossover (GA.NewGeneticSolver 5) [4; 0; 3; 1; 2] [4; 0; 3; 1; 2]
     (Rand.Source (list_tape [3; 1]%nat) 0)).1
  = [4; 0; 3; 1; 2].
Proof.
  apply (crossover_of_equal_parents (GA.NewGeneticSolver 5) [4; 0; 3; 1; 2]
           (Rand.Source (list_tape [3; 1]%nat) 0)); [cbn; lia|].
  apply is_permutation_intro; [done| |].
  - apply (bool_decide_unpack _). by vm_compute.
  - unfold in_range. repeat constructor; lia.
Defined.

(** X22 ([simulated_annealing.go], [findConflictedQueens]).
    [findConflictedQueens] lists, in increasing order, the columns whose
    queen is attacked.  The list is empty exactly when the cost of the
    board is 0, so inside the loop of [singleRun], which returns when the
    cost is 0, strategy 2 always finds a queen to move. *)
Theorem conflicted_queens_iff_positive_cost (sa : SA.SimulatedAnnealingSolver) :
  SA.findConflictedQueens sa
  = filter (fun col => 0 < SA.calculateConflictsForPosition sa (SA.board sa) col)
           (seq 0 (SA.n sa))
  ∧ (SA.findConflictedQueens sa = [] <-> SA.calculateCost sa = 0).
Proof.
  split; [|apply findConflictedQueens_nil].
  rewrite findConflictedQueens_filter. apply list_filter_iff.
  intros col. rewrite Z.gtb_ltb, Z.ltb_lt. done.
Qed.

(** X23 ([exhaustive.go] and the three heuristic solvers).  The solvers
    agree: whenever a heuristic [Solve] returns [true] for a dimension
    [n >= 1], the exhaustive search succeeds for [n] as well, and the
    solution it stores is the heuristic's solution or comes before it in
    the lexicographic order. *)
Theorem heuristic_success_implies_exhaustive_success (h : heuristic)
    (Exp : float -> float)
    (sortSlice : (GA.Individual -> GA.Individual -> bool) ->
                 list GA.Individual -> list GA.Individual)
    (fuel n : nat) (r : Rand.t) (solution : list Z) :
  (∀ less l, sortSlice less l ≡ₚ l) ->
  (1 <= n)%nat ->
  solve h Exp sortSlice fuel n r = Some (true, solution) ->
  ∃ e', Exhaustive.Solve (Exhaustive.NewExhaustiveSearchSolver n) = Some (true, e')
      ∧ lex_le (Exhaustive.GetSolution e') solution.
Proof.
  intros Hsort Hn Hsolve. unfold solve in Hsolve.
  destruct (run h Exp sortSlice fuel n r) as [[ok s]|] eqn:Hrun; [|done].
  injection Hsolve as -> <-.
  destruct (run_true_holds_solution h Exp sortSlice fuel n r s Hsort Hn Hrun)
    as (_ & _ & Hb & Hz).
  assert (Hs : is_solution n (GetSolution s)).
  { split; [done|]. by apply pairwise_scan_zero. }
  destruct (exhaustive_Solve_spec (Exhaustive.NewExhaustiveSearchSolver n))
    as (e' & Heq & _ & _ & _ & Hres); [apply length_make|].
  exists e'. cbn [Exhaustive.n Exhaustive.NewExhaustiveSearchSolver] in *.
  destruct (Exhaustive.solutionFound e').
  - split; [done|]. destruct Hres as (_ & _ & Hleast).
    apply Hleast; [done|]. intros i Hi. lia.
  - destruct Hres as [_ Hnone]. destruct (Hnone _ Hs). intros i Hi. lia.
Qed.

Lemma heuristic_success_implies_exhaustive_success_witness :
  ∃ solution,
    solve GreedySearch (fun x => x) merge_sortSlice 0 4 (Rand.Source tape_1302 0)
    = Some (true, solution)
    ∧ ∃ e', Exhaustive.Solve (Exhaustive.NewExhaustiveSearchSolver 4)
            = Some (true, e')
          ∧ lex_le (Exhaustive.GetSolution e') solution.
Proof.
  assert (Hrun : ∃ solution,
            solve GreedySearch (fun x => x) merge_sortSlice 0 4
              (Rand.Source tape_1302 0) = Some (true, solution)).
  { vm_compute. eexists. reflexivity. }
  destruct Hrun as [solution Hrun]. exists solution. split; [exact Hrun|].
  apply (heuristic_success_implies_exhaustive_success GreedySearch (fun x => x)
           merge_sortSlice 0 4 (Rand.Source tape_1302 0) solution
           merge_sortSlice_perm); [lia|exact Hrun].
Defined.

(** ** A placement for every dimension but 2 and 3 *)

(** What makes a placement of [2 * m] queens extend to [2 * m + 1]: the
    rows are on the board, no two queens attack each other, and no queen
    is on the main diagonal. *)
Lemma stairs_ok m r1 r2 :
  (m `mod` 3 ≠ 1)%nat -> (r1 < 2 * m)%nat -> (r2 < 2 * m)%nat ->
  0 <= stairs m r1 < 2 * Z.of_nat m
  ∧ stairs m r1 ≠ Z.of_nat r1
  ∧ (r1 ≠ r2 ->
       stairs m r1 ≠ stairs m r2
       ∧ Z.abs (stairs m r1 - stairs m r2) ≠ Z.abs (Z.of_nat r1 - Z.of_nat r2)).
Proof.
  intros Hm H1 H2. unfold stairs.
  assert (Hz : Z.of_nat m `mod` 3 ≠ 1).
  { intros Heq. apply Hm. apply Nat2Z.inj. rewrite Nat2Z.inj_mod. done. }
  clear Hm.
  pose proof (Z.div_mod (Z.of_nat m) 3 ltac:(lia)) as Hdiv.
  pose proof (Z.mod_pos_bound (Z.of_nat m) 3 ltac:(lia)) as Hrem.
  repeat case_bool_decide; lia.
Qed.

Lemma mirrored_stairs_ok m r1 r2 :
  (m `mod` 3 = 1)%nat -> (4 <= m)%nat -> (r1 < 2 * m)%nat -> (r2 < 2 * m)%nat ->
  0 <= mirrored_stairs m r1 < 2 * Z.of_nat m
  ∧ mirrored_stairs m r1 ≠ Z.of_nat r1
  ∧ (r1 ≠ r2 ->
       mirrored_stairs m r1 ≠ mirrored_stairs m r2
       ∧ Z.abs (mirrored_stairs m r1 - mirrored_stairs m r2)
         ≠ Z.abs (Z.of_nat r1 - Z.of_nat r2)).
Proof.
  intros Hm H4 H1 H2. unfold mirrored_stairs, shifted. cbv zeta.
  assert (Hz : Z.of_nat m `mod` 3 = 1).
  { change 1 with (Z.of_nat 1). rewrite <- Hm. by rewrite Nat2Z.inj_mod. }
  clear Hm.
  pose proof (Z.div_mod (Z.of_nat m) 3 ltac:(lia)) as Hdiv.
  rewrite Hz in Hdiv.
  repeat case_bool_decide; lia.
Qed.

Lemma even_placement_ok m r1 r2 :
  m ≠ 1%nat -> (r1 < 2 * m)%nat -> (r2 < 2 * m)%nat ->
  0 <= even_placement m r1 < 2 * Z.of_nat m
  ∧ even_placement m r1 ≠ Z.of_nat r1
  ∧ (r1 ≠ r2 ->
       even_placement m r1 ≠ even_placement m r2
       ∧ Z.abs (even_placement m r1 - even_placement m r2)
         ≠ Z.abs (Z.of_nat r1 - Z.of_nat r2)).
Proof.
  intros Hm H1 H2. unfold even_placement. case_bool_decide as Hmod.
  - apply mirrored_stairs_ok; [done| |done..].
    destruct m as [|[|[|[|m]]]]; try done; try lia.
  - by apply stairs_ok.
Qed.

Lemma div2_parity n :
  n = (2 * (n / 2) + (if Nat.even n then 0 else 1))%nat.
Proof.
  pose proof (Nat.div_mod_eq n 2) as Hdiv.
  pose proof (Nat.bit0_mod n) as Hbit. rewrite Nat.bit0_odd in Hbit.
  rewrite <- Nat.negb_odd. destruct (Nat.odd n); simpl in *; lia.
Qed.

Lemma placement_lookup_even n i :
  (i < 2 * (n / 2))%nat -> placement n !!! i = even_placement (n / 2) i.
Proof.
  intros Hi. unfold placement. pose proof (div2_parity n) as Hn.
  destruct (Nat.even n).
  - by rewrite list_lookup_total_alt, list_lookup_fmap, lookup_seq_lt by lia.
  - rewrite lookup_total_app_l by (rewrite length_fmap, length_seq; lia).
    by rewrite list_lookup_total_alt, list_lookup_fmap, lookup_seq_lt by lia.
Qed.

Lemma placement_lookup_last n :
  Nat.even n = false -> placement n !!! (2 * (n / 2))%nat = 2 * Z.of_nat (n / 2).
Proof.
  intros He. unfold placement. pose proof (div2_parity n) as Hn.
  rewrite He in *.
  rewrite lookup_total_app_r by (rewrite length_fmap, length_seq; lia).
  rewrite length_fmap, length_seq.
  replace (2 * (n / 2) - (n - 1))%nat with 0%nat by lia.
  cbn [lookup_total list_lookup_total]. lia.
Qed.

Lemma length_placement n : length (placement n) = n.
Proof.
  unfold placement. pose proof (div2_parity n) as Hn. destruct (Nat.even n).
  - by rewrite length_fmap, length_seq.
  - rewrite length_app, length_fmap, length_seq. simpl. lia.
Qed.

Lemma placement_is_solution n : n ≠ 2%nat -> n ≠ 3%nat -> is_solution n (placement n).
Proof.
  intros H2 H3. pose proof (div2_parity n) as Hn.
  pose proof (placement_lookup_even n) as Hget.
  pose proof (placement_lookup_last n) as Hlast.
  set (m := (n / 2)%nat) in *.
  assert (Hm : m ≠ 1%nat) by (destruct (Nat.even n); lia).
  assert (Hrange : ∀ i, (i < n)%nat -> 0 <= placement n !!! i < Z.of_nat n).
  { intros i Hi. destruct (decide (i < 2 * m)%nat) as [Hlt|Hge].
    - rewrite Hget by done.
      destruct (even_placement_ok m i i Hm) as (Hr & _); [lia..|].
      destruct (Nat.even n); lia.
    - destruct (Nat.even n); [lia|].
      replace i with (2 * m)%nat by lia. rewrite Hlast by done. lia. }
  split; [split|].
  - apply length_placement.
  - apply Forall_lookup. intros i x Hi.
    pose proof (lookup_lt_Some _ _ _ Hi) as Hlt. rewrite length_placement in Hlt.
    rewrite <- (list_lookup_total_correct _ _ _ Hi). by apply Hrange.
  - intros i j Hi Hj Hij.
    destruct (decide (i < 2 * m)%nat) as [Hi'|Hi'];
      destruct (decide (j < 2 * m)%nat) as [Hj'|Hj'].
    + rewrite !Hget by done.
      destruct (even_placement_ok m i j Hm) as (_ & _ & Hc); [lia..|].
      by apply Hc.
    + destruct (Nat.even n); [lia|].
      replace j with (2 * m)%nat by lia. rewrite Hlast, Hget by done.
      destruct (even_placement_ok m i i Hm) as (Hr & Hd & _); [lia..|]. lia.
    + destruct (Nat.even n); [lia|].
      replace i with (2 * m)%nat by lia. rewrite Hlast, Hget by done.
      destruct (even_placement_ok m j j Hm) as (Hr & Hd & _); [lia..|]. lia.
    + destruct (Nat.even n); lia.
Qed.

Lemma no_solution_2_3 n s : n = 2%nat ∨ n = 3%nat -> ¬ is_solution n s.
Proof.
  intros Hn [[Hl Hr] Hz]. apply pairwise_scan_zero in Hz.
  by destruct (conflicts_2_3 n s Hn Hl Hr).
Qed.

(** X24 ([exhaustive.go], [Solve]).  The exhaustive search returns [true]
    for every dimension except 2 and 3: these two boards have no
    placement, and every other board has one, which the search cannot
    miss. *)
Theorem exhaustive_search_fails_only_for_2_and_3 (n : nat) :
  ∃ e', Exhaustive.Solve (Exhaustive.NewExhaustiveSearchSolver n)
        = Some (Exhaustive.solutionFound e', e')
      ∧ (Exhaustive.solutionFound e' = false <-> n = 2%nat ∨ n = 3%nat).
Proof.
  destruct (exhaustive_Solve_spec (Exhaustive.NewExhaustiveSearchSolver n))
    as (e' & Hs & _ & _ & _ & Hres); [apply length_make|].
  exists e'. split; [done|].
  cbn [Exhaustive.n Exhaustive.NewExhaustiveSearchSolver] in Hres.
  destruct (Exhaustive.solutionFound e').
  - destruct Hres as (Hsol & _). split; [done|].
    intros Hn. by destruct (no_solution_2_3 n _ Hn Hsol).
  - destruct Hres as [_ Hnone]. split; [|done]. intros _.
    destruct (decide (n = 2%nat)) as [|H2]; [by left|].
    destruct (decide (n = 3%nat)) as [|H3]; [by right|].
    destruct (Hnone _ (placement_is_solution n H2 H3)). intros i Hi. lia.
Qed.

(** ** The conflict-directed mutation *)

Lemma try_rows_spec ga col chromosome bestRow minConflicts r :
  let res := GA.try_rows ga col chromosome bestRow minConflicts r in
  res.1.1.1 = chromosome
  ∧ (res.1.1.2 = bestRow ∧ res.1.2 = minConflicts
     ∨ res.1.2 < minConflicts
       ∧ res.1.2
         = GA.calculateConflictsForPosition ga (<[col := res.1.1.2]> chromosome) col).
Proof.
  cbv zeta. unfold GA.try_rows.
  apply (foldl_invariant
    (fun s : list Z * Z * Z * Rand.t =>
       s.1.1.1 = chromosome
       ∧ (s.1.1.2 = bestRow ∧ s.1.2 = minConflicts
          ∨ s.1.2 < minConflicts
            ∧ s.1.2
              = GA.calculateConflictsForPosition ga (<[col := s.1.1.2]> chromosome) col))).
  { split; [done|by left]. }
  intros [[[c br] mc] r'] k _ [Hc Hbest]. cbn [fst snd] in *. subst c.
  destruct (Rand.Intn (GA.n ga) r') as [testRow r1].
  case_bool_decide; [|done].
  rewrite list_insert_restore.
  destruct (Z.ltb_spec
              (GA.calculateConflictsForPosition ga
                 (<[col := Z.of_nat testRow]> chromosome) col) mc) as [Hlt|Hge];
    cbn [fst snd].
  - split; [done|]. right. split; [|done].
    destruct Hbest as [[_ ->]|[Hlt' _]]; lia.
  - done.
Qed.

Lemma conflicted_genes_loop ga chromosome :
  foldl (fun conflicts i =>
           if GA.calculateConflictsForPosition ga chromosome i >? 0
           then conflicts ++ [i] else conflicts)
        [] (seq 0 (GA.n ga))
  = conflicted_genes ga chromosome.
Proof.
  rewrite (foldl_append_filter
             (fun i => GA.calculateConflictsForPosition ga chromosome i >? 0)).
  unfold conflicted_genes. cbn [app]. apply list_filter_iff.
  intros i. rewrite Z.gtb_ltb, Z.ltb_lt. done.
Qed.

(** ** The success check of a generation *)

Lemma calculateFitness_nonneg ga chromosome : 0 <= GA.calculateFitness ga chromosome.
Proof. rewrite ga_calculateFitness_scan. apply pairwise_scan_nonneg. Qed.

(** X25 ([genetic.go], [smartMutation], second strategy).  When the
    strategy draw lies in [[0.5, 0.8)] and some gene is in conflict, the
    mutation changes at most one gene, a conflicted one chosen by a draw,
    and adopts a tested row only if it gives that gene strictly fewer
    conflicts: the conflict count of the gene never increases. *)
Theorem conflict_directed_mutation_never_worsens (ga : GA.GeneticSolver)
    (chromosome : list Z) (r : Rand.t) :
  length chromosome = GA.n ga ->
  ((Rand.Float64 r).1 <? 0.5)%float = false ->
  ((Rand.Float64 r).1 <? 0.8)%float = true ->
  (0 < length (conflicted_genes ga chromosome))%nat ->
  moves_a_conflicted_gene ga chromosome r (Rand.Float64 r).2.
Proof.
  intros Hl Hlo Hhi Hsome. unfold moves_a_conflicted_gene. cbv zeta.
  unfold GA.smartMutation.
  destruct (Rand.Float64 r) as [strategy r0]. cbn [fst snd] in *.
  rewrite Hlo, Hhi. rewrite conflicted_genes_loop.
  rewrite bool_decide_eq_true_2 by done.
  set (conflicts := conflicted_genes ga chromosome) in *.
  pose proof (Intn_lt (length conflicts) r0 Hsome) as Hk.
  destruct (Rand.Intn (length conflicts) r0) as [k r1]. cbn [fst] in *.
  set (col := conflicts !!! k).
  assert (Hcol : col ∈ conflicts) by (by apply list_elem_of_lookup_total_2).
  unfold conflicts, conflicted_genes in Hcol.
  apply list_elem_of_filter in Hcol as [Hpos Hcol]. apply elem_of_seq in Hcol.
  pose proof (try_rows_spec ga col chromosome (chromosome !!! col)
                (GA.calculateConflictsForPosition ga chromosome col) r1) as Htry.
  cbv zeta in Htry.
  destruct (GA.try_rows ga col chromosome (chromosome !!! col)
              (GA.calculateConflictsForPosition ga chromosome col) r1)
    as [[[c br] mc] r2].
  cbn [fst snd] in *. destruct Htry as [-> Hbest].
  split; [lia|]. split; [done|]. split; [by exists br|].
  destruct Hbest as [[-> _]|[Hlt Heq]].
  - rewrite list_insert_id; [done|].
    apply list_lookup_lookup_total_lt. lia.
  - lia.
Qed.

Lemma conflict_directed_mutation_never_worsens_witness :
  moves_a_conflicted_gene (GA.NewGeneticSolver 4) [0; 1; 2; 3]
    (Rand.Source mutation_2_tape 0)
    (Rand.Float64 (Rand.Source mutation_2_tape 0)).2.
Proof.
  apply (conflict_directed_mutation_never_worsens (GA.NewGeneticSolver 4)
           [0; 1; 2; 3] (Rand.Source mutation_2_tape 0));
    [reflexivity | by vm_compute | by vm_compute | vm_compute; lia].
Defined.

(** X26 ([genetic.go], [singleRun], lines 454 to 463).  When [sort.Slice]
    sorts, the success check of a generation does not miss a solution:
    the run returns [true] in this generation exactly when some
    chromosome of the population has no conflict, and the solution it
    stores is such a chromosome. *)
Theorem generation_finds_a_solution_in_the_population
    (sortSlice : (GA.Individual -> GA.Individual -> bool) ->
                 list GA.Individual -> list GA.Individual)
    (ga : GA.GeneticSolver)
    (generationsWithoutImprovement bestFitnessEver : Z) (r : Rand.t) :
  sorts_by_fitness sortSlice ->
  length (GA.population ga) = GA.populationSize ga ->
  (0 < GA.populationSize ga)%nat ->
  ((∃ x, x ∈ GA.population ga ∧ GA.calculateFitness ga (GA.chromosome x) = 0)
   <-> ∃ ga' r', GA.before_selection sortSlice ga generationsWithoutImprovement
                   bestFitnessEver r = GA.Success ga' r')
  ∧ ∀ ga' r',
      GA.before_selection sortSlice ga generationsWithoutImprovement
        bestFitnessEver r = GA.Success ga' r' ->
      GA.solved ga' = true
      ∧ ∃ x, x ∈ GA.population ga
           ∧ GA.calculateFitness ga (GA.chromosome x) = 0
           ∧ GA.GetSolution ga' = copy (make (GA.n ga)) (GA.chromosome x).
Proof.
  intros Hsort Hl Hpos.
  destruct (evaluatePopulation_spec sortSlice ga Hsort Hl)
    as (Heq & Hperm & Hfresh & Hleast).
  set (ga1 := GA.evaluatePopulation sortSlice ga) in *.
  assert (Hlen1 : (0 < length (GA.population ga1))%nat).
  { rewrite Hperm, length_fmap. lia. }
  set (best := GA.population ga1 !!! 0%nat) in *.
  assert (Hbest : best ∈ GA.population ga1) by (by apply list_elem_of_lookup_total_2).
  assert (Horigin : ∃ x, x ∈ GA.population ga ∧ best = reevaluate ga x).
  { rewrite Hperm in Hbest. apply list_elem_of_fmap in Hbest as (x & Hx & Hin).
    by exists x. }
  assert (Hsuccess : ∀ ga' r',
            GA.before_selection sortSlice ga generationsWithoutImprovement
              bestFitnessEver r = GA.Success ga' r' ->
            GA.fitness best = 0 ∧ ga' = GA.found ga1).
  { intros ga' r'. unfold GA.before_selection. fold ga1. fold best.
    destruct (Z.eqb_spec (GA.fitness best) 0) as [Hz|Hz].
    - by intros [= <- _].
    - destruct (GA.track _ _ _) as [b g]. destruct (g >? 50); [done|].
      by destruct (GA.adapt ga1 g r). }
  split; [split|].
  - intros (x & Hx & Hzero).
    assert (Hin : reevaluate ga x ∈ GA.population ga1).
    { rewrite Hperm. apply list_elem_of_fmap. by exists x. }
    pose proof (Hleast _ Hin) as Hle. cbn [reevaluate GA.fitness] in Hle.
    pose proof (Hfresh _ Hbest) as Hb.
    pose proof (calculateFitness_nonneg ga (GA.chromosome best)).
    assert (Hz : GA.fitness best = 0) by (fold best in Hle; lia).
    unfold GA.before_selection. fold ga1. fold best. rewrite Hz. cbn.
    by do 2 eexists.
  - intros (ga' & r' & Hs). destruct (Hsuccess _ _ Hs) as [Hz _].
    destruct Horigin as (x & Hx & Hbx). exists x. split; [done|].
    rewrite Hbx in Hz. done.
  - intros ga' r' Hs. destruct (Hsuccess _ _ Hs) as [Hz ->].
    split; [done|]. destruct Horigin as (x & Hx & Hbx). exists x.
    split; [done|]. split; [by rewrite Hbx in Hz|].
    unfold GA.GetSolution, GA.found. cbn [GA.solution]. fold best.
    rewrite Hbx, Heq. done.
Qed.

Lemma generation_finds_a_solution_in_the_population_witness :
  ((∃ x, x ∈ GA.population lucky_population
         ∧ GA.calculateFitness lucky_population (GA.chromosome x) = 0)
   <-> ∃ ga' r', GA.before_selection merge_sortSlice lucky_population 0 16
                   (Rand.Source zero_tape 0) = GA.Success ga' r')
  ∧ ∀ ga' r',
      GA.before_selection merge_sortSlice lucky_population 0 16
        (Rand.Source zero_tape 0) = GA.Success ga' r' ->
      GA.solved ga' = true
      ∧ ∃ x, x ∈ GA.population lucky_population
           ∧ GA.calculateFitness lucky_population (GA.chromosome x) = 0
           ∧ GA.GetSolution ga'
             = copy (make (GA.n lucky_population)) (GA.chromosome x).
Proof.
  apply (generation_finds_a_solution_in_the_population merge_sortSlice
           lucky_population 0 16 (Rand.Source zero_tape 0));
    [exact merge_sortSlice_sorts | by vm_compute | vm_compute; lia].
Defined.

(** ** The budgets of the solvers *)

(** *** Greedy hill climbing *)



(** *** Genetic algorithm *)







Section Generations.

Variable sortSlice :
  (GA.Individual -> GA.Individual -> bool) -> list GA.Individual -> list GA.Individual.
Hypothesis sortSlice_perm : ∀ less l, sortSlice less l ≡ₚ l.
Variable n : nat.
Hypothesis n_2_3 : n = 2%nat ∨ n = 3%nat.





End Generations.

(** *** Simulated annealing *)






Section Restarts.

Variable Exp : float -> float.
Variable fuel : nat.
Variable n : nat.
Hypothesis n_2_3 : n = 2%nat ∨ n = 3%nat.




End Restarts.








